(** * multipart-form-body-parser: the byte-level parser of parser.ts

    A shallow embedding of [parseMultipartFormData] and of the helpers it is
    built from, followed by the properties of the specification that were
    checked against it.

    Conventions of the embedding.
    - A [Uint8Array] is a [list byte]; [a[i]] is the lookup [a !! i], which is
      [None] where JavaScript yields [undefined]; [a.subarray(b, e)] clamps
      both ends to the array, as [subarray] below does.
    - Indices are [nat]: every index the source computes is non-negative
      ([i - 1] is only taken for [i >= 1], [lineEndIdx - 2] only after
      [+ 2]).
    - A JavaScript string is a Rocq [string] holding the UTF-8 form of the
      text, so [TextEncoder.encode] is [list_byte_of_string].
      [TextDecoder.decode] and [JSON.parse] belong to the platform and are
      taken as parameters ([Platform]).
    - An object used as a dictionary has its own properties and those it
      inherits.  The processor registry is a [gmap] of its own properties; a
      name that it does not own is looked up among the members of
      [Object.prototype] ([objectPrototypeNames]), and what the call of such
      a member answers belongs to the runtime ([Runtime]).  The result is
      the association list of its own properties in the order of their
      creation, with a slot for the array that an assignment to [__proto__]
      installs as its prototype; [chainValue] is the lookup of a name that
      is not own, and [ownKeys] enumerates the own properties as
      [Object.keys] does, array indices first.
    - [throw Error(msg)] is [Throw msg].  The [while] and [do ... while]
      loops of the driver take a fuel argument and answer [Timeout] when it
      runs out; the [for] loops with a bound run for their trip count. *)

From Stdlib Require Import Strings.Byte.
From stdpp Require Import base list strings gmap sorting.

Local Open Scope string_scope.
Local Open Scope list_scope.
Local Open Scope nat_scope.

(** ** Results of a call *)

Inductive outcome (A : Type) : Type :=
| Ret (a : A)
| Throw (msg : string)
| Timeout.
Arguments Ret {A} a.
Arguments Throw {A} msg.
Arguments Timeout {A}.

Global Instance outcome_bind : MBind outcome := λ A B k m,
  match m with
  | Ret a => k a
  | Throw msg => Throw msg
  | Timeout => Timeout
  end.

Global Instance outcome_fmap : FMap outcome := λ A B f m,
  match m with
  | Ret a => Ret (f a)
  | Throw msg => Throw msg
  | Timeout => Timeout
  end.

(** ** The platform: text decoding, JSON and opaque values *)

Class Platform := {
  decode : list byte → string;
  jsvalue : Type;
  JSON_parse : string → outcome jsvalue;
}.

(** ** Byte scanner *)

Definition byte_is (o : option byte) (b : byte) : bool :=
  match o with
  | Some x => Byte.eqb x b
  | None => false
  end.

Definition subarray (a : list byte) (b e : nat) : list byte :=
  take (e - b) (drop b a).

Definition arrayEq (a b : list byte) : bool :=
  if negb (length a =? length b) then false
  else forallb (fun i => match a !! i, b !! i with
                         | Some x, Some y => Byte.eqb x y
                         | None, None => true
                         | _, _ => false
                         end) (seq 0 (length a)).

Definition startsWithArrayPrefix (arr prefixArr : list byte) : bool :=
  arrayEq (subarray arr 0 (length prefixArr)) prefixArr.

Definition encode (s : string) : list byte := String.list_byte_of_string s.

Definition contentDispositionPrefixUTF8 : list byte :=
  encode "Content-Disposition: form-data;".
Definition contentTypePrefixUTF8 : list byte := encode "Content-Type:".

Definition finalByte : byte := x2d.
Definition equalUTF8 : byte := x3d.
Definition quoteUTF8 : byte := x22.

Definition nameUTF8 : list byte := encode "name".
Definition filenameUTF8 : list byte := encode "filename".

(** [getLineEndIdx]: the [for] loop runs for [i = offset + 1 .. length - 1];
    [n] counts the iterations that are left. *)
Fixpoint getLineEndIdx_loop (array : list byte) (n i : nat)
    (currentByte : option byte) : nat :=
  match n with
  | 0 => length array
  | S n' =>
      let prevByte := currentByte in
      let currentByte := array !! i in
      if byte_is prevByte x0d && byte_is currentByte x0a then i - 1
      else getLineEndIdx_loop array n' (S i) currentByte
  end.

Definition getLineEndIdx (array : list byte) (offset : nat) : nat :=
  getLineEndIdx_loop array (length array - (offset + 1)) (offset + 1)
    (array !! offset).

(** ** Content-Disposition parameters *)

Section Params.
Context `{Platform}.

Record extracted := { x_data : string; x_offset : nat }.

(** The search for the closing quote: [i = endI + 2 .. length - 1]. *)
Fixpoint extractParam_loop (params : list byte) (endI n i : nat)
    : outcome (option extracted) :=
  match n with
  | 0 => Throw "Something went wrong during the params extraction"
  | S n' =>
      if byte_is (params !! i) quoteUTF8
      then Ret (Some {| x_data := decode (subarray params (endI + 2) i);
                        x_offset := i + 1 |})
      else extractParam_loop params endI n' (S i)
  end.

Definition extractParam (params paramKey : list byte)
    : outcome (option extracted) :=
  let endI := length paramKey in
  if negb (byte_is (params !! endI) equalUTF8)
     || negb (arrayEq (subarray params 0 endI) paramKey)
  then Ret None
  else extractParam_loop params endI (length params - (endI + 2)) (endI + 2).

(** [!x] for a string that may be [undefined]. *)
Definition falsy (x : option string) : bool :=
  match x with
  | None => true
  | Some s => bool_decide (s = "")
  end.

Record disposition := {
  d_name : option string;
  d_filename : option string;
  d_offset : nat;
}.

(** The [for] loop of [readContentDisposition].  A matched parameter moves
    [i] forward by its offset before the [++i] of the loop, so the loop is
    driven by a bound [n] on the iterations left ([length params] suffices,
    see [readContentDisposition_no_timeout]). *)
Fixpoint readContentDisposition_loop (n : nat) (params : list byte) (i : nat)
    (name filename : option string) : outcome disposition :=
  if negb (i <? length params)
  then Throw "Something went wrong during the content disposition params retrieval"
  else
    match n with
    | 0 => Timeout
    | S n' =>
        let subArray := drop i params in
        extractedName ←
          (if falsy name then extractParam subArray nameUTF8 else Ret None);
        match extractedName with
        | Some x =>
            readContentDisposition_loop n' params (i + x_offset x + 1)
              (Some (x_data x)) filename
        | None =>
            extractedFilename ←
              (if falsy filename then extractParam subArray filenameUTF8
               else Ret None);
            match extractedFilename with
            | Some x =>
                readContentDisposition_loop n' params (i + x_offset x + 1)
                  name (Some (x_data x))
            | None =>
                if byte_is (params !! (i - 1)) x0d && byte_is (params !! i) x0a
                then Ret {| d_name := name; d_filename := filename;
                            d_offset := i + 1 |}
                else readContentDisposition_loop n' params (i + 1) name filename
            end
        end
    end.

Definition readContentDisposition (params : list byte) : outcome disposition :=
  readContentDisposition_loop (length params) params
    (length contentDispositionPrefixUTF8 + 1) None None.

End Params.

(** ** Values of the result *)

Section Values.
Context `{Platform}.

Inductive data : Type :=
| Bytes (content : list byte)
| Str (s : string)
| Val (v : jsvalue).

Record entry := {
  contentType : string;
  data_of : data;
  filename : option string;
}.

End Values.

(** A content processor: bytes to a value, or an exception. *)
Abbreviation processor := (list byte → outcome data).

(** ** The prototype chain

    The registry and the result are plain objects, so besides their own
    properties they have the members of [Object.prototype]: the operator
    [in] and the lookup [object[name]] find those too. *)
Definition objectPrototypeNames : list string :=
  [ "constructor"; "__defineGetter__"; "__defineSetter__"; "hasOwnProperty";
    "__lookupGetter__"; "__lookupSetter__"; "isPrototypeOf";
    "propertyIsEnumerable"; "toString"; "valueOf"; "__proto__";
    "toLocaleString" ].

(** What the runtime does outside the parser's own code:
    [Object_prototype_call name registry content] is the outcome of
    [registry[name](content)] when [name] is not an own property of the
    registry and is found on [Object.prototype];
    [Array_prototype_names] are the property names of [Array.prototype]. *)
Class Runtime `{Platform} := {
  Object_prototype_call :
    string → gmap string processor → list byte → outcome data;
  Array_prototype_names : list string;
}.

(** A value that [result[name]] finds on the prototype chain of the result:
    the object [Object.prototype] itself, one of its members, a member of
    [Array.prototype], or the length of an array. *)
Inductive inherited : Type :=
| ObjectPrototype
| ObjectMember (name : string)
| ArrayMember (name : string)
| ArrayLength (n : nat).

(** A name that is an array index: the canonical decimal form of a number
    below 2^32 - 1.  Own properties with such names are enumerated first. *)
Definition digit (a : Ascii.ascii) : option N :=
  let n := Ascii.N_of_ascii a in
  if (48 <=? n)%N && (n <=? 57)%N then Some (n - 48)%N else None.

Fixpoint digits (s : string) (acc : N) : option N :=
  match s with
  | EmptyString => Some acc
  | String a s' =>
      match digit a with
      | Some d => digits s' (10 * acc + d)%N
      | None => None
      end
  end.

Definition arrayIndex (name : string) : option N :=
  match name with
  | EmptyString => None
  | String a s' =>
      if (Ascii.N_of_ascii a =? 48)%N && negb (bool_decide (s' = EmptyString))
      then None
      else
        match digits name 0 with
        | Some n => if (n <? 4294967295)%N then Some n else None
        | None => None
        end
  end.

(** The order in which own property names are enumerated: the array
    indices in ascending order, then the other names in the order of their
    creation. *)
Definition isIndex (k : string) : Prop := is_Some (arrayIndex k).

Definition indexValue (k : string) : N := default 0%N (arrayIndex k).

Definition indexLe (a b : string) : Prop := (indexValue a ≤ indexValue b)%N.

Global Instance indexLe_dec (a b : string) : Decision (indexLe a b) :=
  decide (indexValue a ≤ indexValue b)%N.

Definition keyOrder (created : list string) : list string :=
  merge_sort indexLe (filter isIndex created)
  ++ filter (fun k => ¬ isIndex k) created.

(** ** Content transformer and result aggregator *)

Section Result.
Context `{Platform} `{!Runtime}.

(** [contentType in contentProcessors] holds for the own properties of the
    registry and for the names on [Object.prototype]; the value found is
    called with the body. *)
Definition processContent
    (contentProcessors : gmap string (list byte → outcome data))
    (contentType : string) (content : list byte) (filename : option string)
    : outcome entry :=
  let key := if bool_decide (is_Some (contentProcessors !! contentType))
                || bool_decide (contentType ∈ objectPrototypeNames)
             then contentType else "default" in
  d ← match contentProcessors !! key with
      | Some f => f content
      | None =>
          if bool_decide (key ∈ objectPrototypeNames)
          then Object_prototype_call key contentProcessors content
          else Throw "TypeError: contentProcessors[...] is not a function"
      end;
  Ret {| contentType := contentType; data_of := d; filename := filename |}.

(** A value of the result: an entry, a list of entries, or a list whose
    first element was found on the prototype chain. *)
Inductive field : Type :=
| Single (e : entry)
| Multiple (es : list entry)
| Headed (v : inherited) (es : list entry).

(** The own properties of the result in the order of their creation.  The
    slot [__proto__] is no own property: it holds the array that the
    prototype setter installed as the prototype of the result, when a part
    was named [__proto__]. *)
Definition ParseResult : Type := list (string * field).

Fixpoint get (result : ParseResult) (name : string) : option field :=
  match result with
  | [] => None
  | (k, v) :: rest => if bool_decide (k = name) then Some v else get rest name
  end.

Fixpoint set (result : ParseResult) (name : string) (v : field) : ParseResult :=
  match result with
  | [] => [(name, v)]
  | (k, w) :: rest =>
      if bool_decide (k = name) then (k, v) :: rest
      else (k, w) :: set rest name v
  end.

Definition objectMember (name : string) : option (entry + inherited) :=
  if bool_decide (name ∈ objectPrototypeNames)
  then Some (inr (ObjectMember name)) else None.

(** [result[name]] for a name that is no own property: the value found on
    the prototype chain, if any.  The chain is [Object.prototype], or,
    once an array [v, e1, ..., en] has been installed as the prototype,
    that array, [Array.prototype] and [Object.prototype]. *)
Definition chainValue (result : ParseResult) (name : string)
    : option (entry + inherited) :=
  if bool_decide (name = "__proto__") then Some (inr ObjectPrototype)
  else
    match get result "__proto__" with
    | Some (Headed v es) =>
        match arrayIndex name with
        | Some i =>
            if (i =? 0)%N then Some (inr v)
            else if (i <=? N.of_nat (length es))%N
                 then inl <$> es !! N.to_nat (i - 1)
                 else None
        | None =>
            if bool_decide (name = "length")
            then Some (inr (ArrayLength (S (length es))))
            else if bool_decide (name ∈ Array_prototype_names)
                 then Some (inr (ArrayMember name))
                 else objectMember name
        end
    | _ => objectMember name
    end.

(** [value === undefined]: the name is neither own nor inherited, and the
    entry is stored alone.  [Array.isArray(value)]: an own list (or the
    installed prototype array) is appended to.  Otherwise the value, own or
    inherited, becomes the first element of a new list, and the assignment
    creates an own property, or, for [__proto__], installs the list as the
    prototype. *)
Definition addContentToResult (result : ParseResult) (name : string)
    (content : entry) : ParseResult :=
  match get result name with
  | None =>
      match chainValue result name with
      | None => set result name (Single content)
      | Some (inl value) => set result name (Multiple [value; content])
      | Some (inr value) => set result name (Headed value [content])
      end
  | Some (Multiple value) => set result name (Multiple (value ++ [content]))
  | Some (Headed v value) => set result name (Headed v (value ++ [content]))
  | Some (Single value) => set result name (Multiple [value; content])
  end.

(** [Object.keys(result)]. *)
Definition ownKeys (result : ParseResult) : list string :=
  keyOrder (filter (fun k => k ≠ "__proto__") result.*1).

End Result.

(** ** Parse driver *)

Section Driver.
Context `{Platform} `{!Runtime}.

Definition defaultProcessors : gmap string processor :=
  <["text/plain" := fun content => Ret (Str (decode content))]>
  (<["application/json" :=
       fun content => v ← JSON_parse (decode content); Ret (Val v)]>
  (<["default" := fun content => Ret (Bytes content)]> ∅)).

(** [{...defaults, ...contentProcessors}]: the caller's entries win. *)
Definition withDefaults (contentProcessors : gmap string processor)
    : gmap string processor :=
  contentProcessors ∪ defaultProcessors.

(** The preamble [do ... while]; the value is [startIdx] after the loop. *)
Fixpoint skipPreamble (fuel : nat) (array separatorUTF8 : list byte)
    (startIdx : nat) : outcome nat :=
  match fuel with
  | 0 => Timeout
  | S fuel' =>
      let lineEndIdx := getLineEndIdx array startIdx in
      let line := subarray array startIdx lineEndIdx in
      let startIdx := lineEndIdx + 2 in
      if negb (startsWithArrayPrefix line separatorUTF8)
         && (startIdx <? length array)
      then skipPreamble fuel' array separatorUTF8 startIdx
      else Ret startIdx
  end.

Record headers := {
  h_startIdx : nat;
  h_name : option string;
  h_contentType : option string;
  h_filename : option string;
}.

(** One pass through the body of the header [do ... while].  The source
    keeps the line end of a Content-Type line in the driver's [lineEndIdx];
    the driver overwrites that variable right after the loop, so it is a
    local here. *)
Definition headerStep (array : list byte) (h : headers) : outcome headers :=
  let startIdx := h_startIdx h in
  let line := drop startIdx array in
  if falsy (h_name h) && startsWithArrayPrefix line contentDispositionPrefixUTF8
  then
    d ← readContentDisposition line;
    Ret {| h_startIdx := startIdx + d_offset d; h_name := d_name d;
           h_contentType := h_contentType h; h_filename := d_filename d |}
  else if falsy (h_contentType h)
          && startsWithArrayPrefix line contentTypePrefixUTF8
  then
    let lineEndIdx :=
      getLineEndIdx array (startIdx + length contentTypePrefixUTF8) in
    Ret {| h_startIdx := lineEndIdx + 2; h_name := h_name h;
           h_contentType :=
             Some (decode (subarray array
                     (startIdx + length contentTypePrefixUTF8 + 1) lineEndIdx));
           h_filename := h_filename h |}
  else
    Ret {| h_startIdx := startIdx + 1; h_name := h_name h;
           h_contentType := h_contentType h; h_filename := h_filename h |}.

(** The loop test of the header [do ... while]. *)
Definition headerMore (array : list byte) (startIdx : nat) : bool :=
  (negb (byte_is (array !! startIdx) x0d)
   || negb (byte_is (array !! (startIdx + 1)) x0a))
  && (startIdx <? length array).

Fixpoint readHeaders (fuel : nat) (array : list byte) (h : headers)
    : outcome headers :=
  match fuel with
  | 0 => Timeout
  | S fuel' =>
      h' ← headerStep array h;
      if headerMore array (h_startIdx h') then readHeaders fuel' array h'
      else Ret h'
  end.

(** The body [do ... while]: the search for the next delimiter line. *)
Fixpoint bodyScan (fuel : nat) (array separatorUTF8 : list byte)
    (lineEndIdx : nat) : outcome nat :=
  match fuel with
  | 0 => Timeout
  | S fuel' =>
      let lineEndIdx := getLineEndIdx array lineEndIdx + 2 in
      if negb (startsWithArrayPrefix (drop lineEndIdx array) separatorUTF8)
      then bodyScan fuel' array separatorUTF8 lineEndIdx
      else Ret lineEndIdx
  end.

(** The variables of the driver that live across parts. *)
Record scan := {
  startIdx : nat;
  lineEndIdx : nat;
  result : ParseResult;
}.

Inductive control : Type :=
| Next (st : scan)
| Break (st : scan).

(** The header variables at the start of a part: all [undefined]. *)
Definition newPart (startIdx : nat) : headers :=
  {| h_startIdx := startIdx; h_name := None; h_contentType := None;
     h_filename := None |}.

(** One pass through the body of the outer [while].  The [match] on the
    name is [if (!name) throw]: [undefined] and the empty string both
    raise. *)
Definition partStep (fuel : nat) (array separatorUTF8 : list byte)
    (contentProcessorsWithDefaults : gmap string processor) (st : scan)
    : outcome control :=
  h ← readHeaders fuel array (newPart (lineEndIdx st));
  match h_name h with
  | None => Throw "The entry name is missing"
  | Some name =>
      if bool_decide (name = "") then Throw "The entry name is missing"
      else
        let contentType := default "text/plain" (h_contentType h) in
        let startIdx := h_startIdx h + 1 in
        lineEndIdx ← bodyScan fuel array separatorUTF8 startIdx;
        let line := subarray array (startIdx + 1) (lineEndIdx - 2) in
        content ← processContent contentProcessorsWithDefaults contentType
                    line (h_filename h);
        let result := addContentToResult (result st) name content in
        let startIdx := lineEndIdx in
        let lineEndIdx := getLineEndIdx array startIdx in
        let line :=
          subarray array (startIdx + length separatorUTF8) lineEndIdx in
        if byte_is (line !! 0) finalByte && byte_is (line !! 1) finalByte
        then Ret (Break {| startIdx := startIdx; lineEndIdx := lineEndIdx;
                           result := result |})
        else Ret (Next {| startIdx := startIdx; lineEndIdx := lineEndIdx + 2;
                          result := result |})
  end.

Fixpoint partsLoop (fuel : nat) (array separatorUTF8 : list byte)
    (contentProcessorsWithDefaults : gmap string processor) (st : scan)
    : outcome scan :=
  if negb (startIdx st <? length array) then Ret st
  else
    match fuel with
    | 0 => Timeout
    | S fuel' =>
        c ← partStep fuel' array separatorUTF8 contentProcessorsWithDefaults
              st;
        match c with
        | Break st' => Ret st'
        | Next st' =>
            partsLoop fuel' array separatorUTF8 contentProcessorsWithDefaults
              st'
        end
    end.

Definition separatorOf (boundary : string) : list byte :=
  encode ("--" +:+ boundary).

(** The driver's variables when the outer loop is first tested. *)
Definition firstPart (startIdx : nat) : scan :=
  {| startIdx := startIdx; lineEndIdx := startIdx; result := [] |}.

Definition parseMultipartFormData (fuel : nat) (inputArray : list byte)
    (boundary : string) (contentProcessors : gmap string processor)
    : outcome ParseResult :=
  let contentProcessorsWithDefaults := withDefaults contentProcessors in
  let array := inputArray in
  let separatorUTF8 := separatorOf boundary in
  startIdx ← skipPreamble fuel array separatorUTF8 0;
  st ← partsLoop fuel array separatorUTF8 contentProcessorsWithDefaults
         (firstPart startIdx);
  Ret (result st).

End Driver.

(** ** Vocabulary of the statements *)

Section Vocabulary.
Context `{Platform} `{!Runtime}.





(** What one call leaves under the name it is given. *)
Definition merge1 (o : option field) (e : entry) : option field :=
  Some match o with
       | None => Single e
       | Some (Single x) => Multiple [x; e]
       | Some (Multiple l) => Multiple (l ++ [e])
       | Some (Headed v l) => Headed v (l ++ [e])
       end.

End Vocabulary.

Section Reachability.
Context `{Platform} `{!Runtime}.

(** [Reaches fuel array sep procs st]: the driver arrives at the test of the
    outer loop with its variables as in [st]. *)
Inductive Reaches (fuel : nat) (array sep : list byte)
    (procs : gmap string processor) : scan → Prop :=
| Reaches_first (s : nat) :
    skipPreamble fuel array sep 0 = Ret s →
    Reaches fuel array sep procs (firstPart s)
| Reaches_next (st st' : scan) :
    Reaches fuel array sep procs st →
    startIdx st < length array →
    partStep fuel array sep procs st = Ret (Next st') →
    Reaches fuel array sep procs st'.

End Reachability.

(** A captured name as the tests [!name] see it: the empty string is no
    name. *)
Section Normal.
Context `{Platform} `{!Runtime}.

Definition normName (o : option string) : option string :=
  if falsy o then None else o.

Definition normDisposition (d : disposition) : disposition :=
  {| d_name := normName (d_name d); d_filename := d_filename d;
     d_offset := d_offset d |}.

Definition normHeaders (h : headers) : headers :=
  {| h_startIdx := h_startIdx h; h_name := normName (h_name h);
     h_contentType := h_contentType h; h_filename := h_filename h |}.

End Normal.

(** [crlfAt a j]: a CR LF pair sits at index [j]. *)
Definition crlfAt (a : list byte) (j : nat) : Prop :=
  a !! j = Some x0d ∧ a !! S j = Some x0a.

(** The lines of a buffer, split at every CR LF pair. *)
Definition consHead (b : byte) (ls : list (list byte)) : list (list byte) :=
  match ls with
  | l :: ls' => (b :: l) :: ls'
  | [] => [[b]]
  end.

Fixpoint crlfLines (a : list byte) : list (list byte) :=
  match a with
  | [] => [[]]
  | b :: rest =>
      match rest with
      | c :: rest' =>
          if Byte.eqb b x0d && Byte.eqb c x0a then [] :: crlfLines rest'
          else consHead b (crlfLines rest)
      | [] => [[b]]
      end
  end.

(** Moving the driver's positions [k] bytes to the right. *)
Section Shift.
Context `{Platform} `{!Runtime}.

Definition shiftHeaders (k : nat) (h : headers) : headers :=
  {| h_startIdx := k + h_startIdx h; h_name := h_name h;
     h_contentType := h_contentType h; h_filename := h_filename h |}.

Definition shiftScan (k : nat) (st : scan) : scan :=
  {| startIdx := k + startIdx st; lineEndIdx := k + lineEndIdx st;
     result := result st |}.

Definition shiftControl (k : nat) (c : control) : control :=
  match c with
  | Next st => Next (shiftScan k st)
  | Break st => Break (shiftScan k st)
  end.

(** The driver's variables after a pass through the part loop. *)
Definition scanOf (c : control) : scan :=
  match c with
  | Next st => st
  | Break st => st
  end.

End Shift.

(** A preamble: lines, each followed by CR LF. *)
Definition preambleOf (ls : list (list byte)) : list byte :=
  concat (map (fun l => l ++ [x0d; x0a]) ls).

(** Two buffers that share their first [n] bytes. *)
Definition agree (n : nat) (a a' : list byte) : Prop :=
  take n a = take n a' ∧ n ≤ length a ∧ n ≤ length a'.

(** ** A platform for running the model on 7-bit payloads

    On bytes below 128 UTF-8 decoding is byte for byte; the JSON text is kept
    as it is. *)
Definition asciiPlatform : Platform :=
  {| decode := String.string_of_list_byte;
     jsvalue := string;
     JSON_parse := fun s => Ret s |}.

(** The members of [Object.prototype] in that platform.  A value that is
    no string and no byte array is written as JavaScript prints it.
    [toString] and [toLocaleString] answer the tag of a plain object (a
    processor registered as [toString] is run on no bytes by
    [toLocaleString]); [constructor] answers its argument; [valueOf] answers
    the registry; [hasOwnProperty] and [propertyIsEnumerable] look up the
    bytes printed in decimal, joined by commas; no registry is a prototype
    of the body; the body has no getter or setter; [__defineGetter__] and
    [__defineSetter__] miss their function; [__proto__] is an object, not a
    function. *)
Definition byteDecimal (b : byte) : string :=
  let n := Byte.to_N b in
  let d (k : N) := Ascii.ascii_of_N (48 + k) in
  if (n <? 10)%N then String (d n) EmptyString
  else if (n <? 100)%N
       then String (d (n / 10)%N) (String (d (n mod 10)%N) EmptyString)
       else String (d (n / 100)%N)
              (String (d ((n / 10) mod 10)%N)
                 (String (d (n mod 10)%N) EmptyString)).

Fixpoint joinCommas (ls : list string) : string :=
  match ls with
  | [] => ""
  | [l] => l
  | l :: rest => l +:+ "," +:+ joinCommas rest
  end.

Definition asciiPrototypeCall
    (name : string)
    (registry : gmap string (list byte → outcome (data (H := asciiPlatform))))
    (content : list byte) : outcome (data (H := asciiPlatform)) :=
  let own :=
    bool_decide (is_Some (registry !! joinCommas (byteDecimal <$> content))) in
  if bool_decide (name = "toString") then Ret (Str "[object Object]")
  else if bool_decide (name = "toLocaleString")
  then match registry !! "toString" with
       | Some f => f []
       | None => Ret (Str "[object Object]")
       end
  else if bool_decide (name = "constructor") then Ret (Bytes content)
  else if bool_decide (name = "valueOf") then Ret (Val (H := asciiPlatform) "[object Object]")
  else if bool_decide (name = "hasOwnProperty")
          || bool_decide (name = "propertyIsEnumerable")
  then Ret (Val (H := asciiPlatform) (if own then "true" else "false"))
  else if bool_decide (name = "isPrototypeOf") then Ret (Val (H := asciiPlatform) "false")
  else if bool_decide (name = "__lookupGetter__")
          || bool_decide (name = "__lookupSetter__")
  then Ret (Val (H := asciiPlatform) "undefined")
  else if bool_decide (name = "__defineGetter__")
  then Throw "TypeError: Object.prototype.__defineGetter__: Expecting function"
  else if bool_decide (name = "__defineSetter__")
  then Throw "TypeError: Object.prototype.__defineSetter__: Expecting function"
  else Throw "TypeError: contentProcessors[...] is not a function".

Global Instance asciiRuntime : Runtime (H := asciiPlatform) :=
  {| Object_prototype_call := asciiPrototypeCall;
     Array_prototype_names :=
       [ "constructor"; "at"; "concat"; "copyWithin"; "fill"; "find";
         "findIndex"; "findLast"; "findLastIndex"; "lastIndexOf"; "pop";
         "push"; "reverse"; "shift"; "unshift"; "slice"; "sort"; "splice";
         "includes"; "indexOf"; "join"; "keys"; "entries"; "values";
         "forEach"; "filter"; "flat"; "flatMap"; "map"; "every"; "some";
         "reduce"; "reduceRight"; "toLocaleString"; "toString";
         "toReversed"; "toSorted"; "toSpliced"; "with" ] |}.

Definition crlf : string := String.string_of_list_byte [x0d; x0a].

Definition quoted (s : string) : string :=
  String.string_of_list_byte [x22] +:+ s +:+ String.string_of_list_byte [x22].

Fixpoint joinLines (ls : list string) : string :=
  match ls with
  | [] => ""
  | [l] => l
  | l :: rest => l +:+ crlf +:+ joinLines rest
  end.

Definition readmePayload : list byte := encode (joinLines [
  "This is the preamble.  It is to be ignored";
  "";
  "------WebKitFormBoundary";
  "Content-Disposition: form-data; name=" +:+ quoted "username";
  "";
  "john_doe";
  "------WebKitFormBoundary";
  "Content-Disposition: form-data; name=" +:+ quoted "binaryData"
    +:+ "; filename=" +:+ quoted "image.jpg";
  "Content-Type: application/octet-stream";
  "";
  "some binary data";
  "------WebKitFormBoundary";
  "Content-Type: application/json";
  "Content-Disposition: form-data; name=" +:+ quoted "metadata";
  "";
  "{}";
  "";
  "------WebKitFormBoundary";
  "Content-Disposition: form-data; name=" +:+ quoted "username";
  "";
  "hello world";
  "------WebKitFormBoundary--" ]).

(** The payload of the test 'parse array buffer' of parser.test.ts. *)
Definition jsonBody : string :=
  "{" +:+ quoted "age" +:+ ": 30, " +:+ quoted "location" +:+ ": "
  +:+ quoted "New York" +:+ "}".

Definition testPayload : list byte := encode (joinLines [
  "------WebKitFormBoundary7MA4YWxkTrZu0gW";
  "Content-Disposition: form-data; name=" +:+ quoted "username";
  "";
  "john_doe";
  "------WebKitFormBoundary7MA4YWxkTrZu0gW";
  "Content-Disposition: form-data; name=" +:+ quoted "profile_picture"
    +:+ "; filename=" +:+ quoted "profile.jpg";
  "Content-Type: image/jpeg";
  "";
  "  [Binary data of the JPEG file]";
  "------WebKitFormBoundary7MA4YWxkTrZu0gW";
  "Content-Type: application/octet-stream";
  "Content-Disposition: form-data; name=" +:+ quoted "profile_picture"
    +:+ "; filename=" +:+ quoted "profile2.jpg";
  "";
  "  [Some other binary data]";
  "------WebKitFormBoundary7MA4YWxkTrZu0gW";
  "Content-Type: application/json";
  "Content-Disposition: form-data; name=" +:+ quoted "metadata";
  "";
  jsonBody;
  "------WebKitFormBoundary7MA4YWxkTrZu0gW--" ]).

(** ** Payloads used in the examples *)

Definition truncatedPayload : list byte := encode (joinLines [
  "--B";
  "Content-Disposition: form-data; name=" +:+ quoted "a";
  "";
  "body" ]).

Definition helloPayload : list byte := encode "hello".

Definition headerAtEndPayload : list byte := encode (joinLines [
  "--B";
  "X" ]).

Definition noNamePayload : list byte := encode (joinLines [
  "--B";
  "Content-Disposition: form-data; name=" +:+ quoted "a";
  "";
  "1";
  "--B";
  "Content-Type: text/plain";
  "";
  "2";
  "--B--" ]).

Definition emptyNamePayload : list byte := encode (joinLines [
  "--B";
  "Content-Disposition: form-data; name=" +:+ quoted "";
  "";
  "x";
  "--B--" ]).

Definition renamedPayload : list byte := encode (joinLines [
  "--B";
  "Content-Disposition: form-data; name=" +:+ quoted "" +:+ "; name="
    +:+ quoted "x";
  "";
  "v";
  "--B--" ]).

Definition onePartPayload : list byte := encode (joinLines [
  "--B";
  "Content-Disposition: form-data; name=" +:+ quoted "a";
  "Content-Type: image/png";
  "";
  "body";
  "--B--" ]).

Definition onlyFinalBoundary : list byte := encode (joinLines [
  "--B--";
  "" ]).

Definition unquotedParam : list byte := encode "name=xab" ++ [quoteUTF8].

(** The messages of the driver's errors, by kind. *)
Definition missingFieldError : string := "The entry name is missing".

Definition structuralErrors : list string :=
  [ "Something went wrong during the params extraction";
    "Something went wrong during the content disposition params retrieval" ].

(** States of the example runs. *)
Definition noNameSecond : scan :=
  Eval vm_compute in
    match partStep (H := asciiPlatform) 20 noNamePayload (separatorOf "B")
            (withDefaults ∅) (firstPart 5) with
    | Ret (Next st) => st
    | _ => firstPart 0
    end.

Definition onePartFinal : scan :=
  Eval vm_compute in
    match partStep (H := asciiPlatform) 20 onePartPayload (separatorOf "B")
            (withDefaults ∅) (firstPart 5) with
    | Ret (Break st) => st
    | _ => firstPart 0
    end.

(** ** Vocabulary of the further properties *)

Global Instance byte_eq_dec : EqDecision byte := Byte.byte_eq_dec.


(** The text of a [name] and of a [filename] parameter, and a
    Content-Disposition line with its CR LF: the name alone, or the two
    parameters in either order. *)
Definition nameParam (v : list byte) : list byte :=
  nameUTF8 ++ equalUTF8 :: quoteUTF8 :: v ++ [quoteUTF8].

Definition filenameParam (v : list byte) : list byte :=
  filenameUTF8 ++ equalUTF8 :: quoteUTF8 :: v ++ [quoteUTF8].

Definition dispositionParams (name : list byte) (file : option (list byte))
    (fileFirst : bool) : list byte :=
  match file with
  | None => nameParam name
  | Some f =>
      if fileFirst then filenameParam f ++ x3b :: x20 :: nameParam name
      else nameParam name ++ x3b :: x20 :: filenameParam f
  end.

Definition dispositionLine (name : list byte) (file : option (list byte))
    (fileFirst : bool) : list byte :=
  contentDispositionPrefixUTF8 ++ x20 :: dispositionParams name file fileFirst
  ++ [x0d; x0a].

(** [delimiterAt a sep l]: a CR LF pair ends at [l] and the bytes from [l]
    on start with the delimiter. *)
Definition delimiterAt (a sep : list byte) (l : nat) : Prop :=
  2 ≤ l ∧ crlfAt a (l - 2) ∧ startsWithArrayPrefix (drop l a) sep = true.

Global Instance delimiterAt_dec (a sep : list byte) (l : nat) :
    Decision (delimiterAt a sep l) :=
  decide (2 ≤ l
          ∧ (a !! (l - 2) = Some x0d ∧ a !! S (l - 2) = Some x0a)
          ∧ startsWithArrayPrefix (drop l a) sep = true).


(** ** Payloads as a sender writes them

    A part has a name, possibly a file name (before or after the name on
    the Content-Disposition line), possibly a content type (on a line
    before or after the Content-Disposition line), and a body. *)
Record part := {
  p_name : list byte;
  p_file : option (list byte);
  p_fileFirst : bool;
  p_type : option (list byte);
  p_typeFirst : bool;
  p_body : list byte;
}.

Definition contentTypeLine (t : list byte) : list byte :=
  contentTypePrefixUTF8 ++ x20 :: t ++ [x0d; x0a].

Definition headerLines (p : part) : list byte :=
  let d := dispositionLine (p_name p) (p_file p) (p_fileFirst p) in
  match p_type p with
  | None => d
  | Some t =>
      if p_typeFirst p then contentTypeLine t ++ d else d ++ contentTypeLine t
  end.

(** The header lines, the empty line, the body and its CR LF. *)
Definition renderPart (p : part) : list byte :=
  headerLines p ++ x0d :: x0a :: p_body p ++ [x0d; x0a].

(** Every part after a delimiter line; the final delimiter at the end. *)
Fixpoint renderParts (sep : list byte) (ps : list part) : list byte :=
  match ps with
  | [] => sep ++ [x2d; x2d]
  | p :: ps' => sep ++ x0d :: x0a :: renderPart p ++ renderParts sep ps'
  end.

Section Rendered.
Context `{Platform} `{!Runtime}.

(** What a part must obey to be read back: no double quote in the name and
    the file name, a name that does not decode to the empty string, no
    CR LF in the content type, and no CR LF in the body that the delimiter
    follows. *)
Definition wellFormed (sep : list byte) (p : part) : Prop :=
  (quoteUTF8 ∉ p_name p)
  ∧ (∀ f, p_file p = Some f → quoteUTF8 ∉ f)
  ∧ decode (p_name p) ≠ ""
  ∧ (∀ t, p_type p = Some t → ∀ j, ¬ crlfAt t j)
  ∧ (∀ l, l < length (p_body p) + 2 →
          ¬ delimiterAt (p_body p ++ x0d :: x0a :: sep) sep l).

(** The entry of a part: what [processContent] answers for its content
    type, [text/plain] when it has none, and its body. *)
Definition entryOf (contentProcessors : gmap string processor) (p : part)
    : outcome entry :=
  processContent (withDefaults contentProcessors)
    (default "text/plain" (decode <$> p_type p)) (p_body p)
    (decode <$> p_file p).

(** The entries of the parts, added in order by [addContentToResult]; the
    exception of the first call of [processContent] that raises. *)
Fixpoint collect (contentProcessors : gmap string processor)
    (result : ParseResult) (ps : list part) : outcome ParseResult :=
  match ps with
  | [] => Ret result
  | p :: ps' =>
      e ← entryOf contentProcessors p;
      collect contentProcessors
        (addContentToResult result (decode (p_name p)) e) ps'
  end.

End Rendered.


(** A payload whose last delimiter line is not the final one, and the
    variables of the driver after its only part. *)
Definition unfinishedPayload : list byte := encode (joinLines [
  "--B";
  "Content-Disposition: form-data; name=" +:+ quoted "a";
  "";
  "1";
  "--B";
  "" ]).

Definition unfinishedSecond : scan :=
  Eval vm_compute in
    match partStep (H := asciiPlatform) 20 unfinishedPayload (separatorOf "B")
            (withDefaults ∅) (firstPart 5) with
    | Ret (Next st) => st
    | _ => firstPart 0
    end.


(** A payload whose only part is not closed by a delimiter line. *)
Definition unclosedPayload : list byte := encode (joinLines [
  "--B";
  "Content-Disposition: form-data; name=" +:+ quoted "a";
  "";
  "line1";
  "line2" ]).

(** A header block that begins with a line the parser does not know. *)
Definition unknownHeaderPayload : list byte := encode (joinLines [
  "--B";
  "X-Id: 7";
  "";
  "b" ]).

(** A delimiter line after one line of preamble. *)
Definition notePayload : list byte := encode (joinLines [
  "note";
  "--B";
  "rest" ]).

(** Two parts: a plain field, and a file with a JSON body of two lines. *)
Definition examplePart1 : part :=
  {| p_name := encode "a"; p_file := None; p_fileFirst := false;
     p_type := None; p_typeFirst := false; p_body := encode "1" |}.

Definition examplePart2 : part :=
  {| p_name := encode "f"; p_file := Some (encode "x.txt");
     p_fileFirst := true; p_type := Some (encode "application/json");
     p_typeFirst := true; p_body := encode (joinLines ["{"; "}"]) |}.


(** A Content-Disposition line that the buffer cuts off. *)
Definition cutDispositionPayload : list byte := encode (joinLines [
  "--B";
  "Content-Disposition: form-data; x" ]).

(** A part whose content type is the name of a member of
    [Object.prototype]. *)
Definition inheritedTypePayload : list byte := encode (joinLines [
  "--B";
  "Content-Disposition: form-data; name=" +:+ quoted "a";
  "Content-Type: toString";
  "";
  "body";
  "--B--" ]).

(** An entry, and three names of which two are array indices. *)
Definition plainEntry : entry (H := asciiPlatform) :=
  {| contentType := "text/plain"; data_of := Str "v"; filename := None |}.



(** A part whose content type is the accessor name of [Object.prototype]. *)
Definition protoTypePayload : list byte := encode (joinLines [
  "--B";
  "Content-Disposition: form-data; name=" +:+ quoted "a";
  "Content-Type: __proto__";
  "";
  "body";
  "--B--" ]).

Definition notCallable : string :=
  "TypeError: contentProcessors[...] is not a function".


(** A part named [__proto__] of content type [toString], and a part named
    [1]. *)
Definition protoPart : part :=
  {| p_name := encode "__proto__"; p_file := None; p_fileFirst := false;
     p_type := Some (encode "toString"); p_typeFirst := false;
     p_body := encode "x" |}.

Definition indexPart : part :=
  {| p_name := encode "1"; p_file := None; p_fileFirst := false;
     p_type := None; p_typeFirst := false; p_body := encode "y" |}.

(** * Properties *)

(** Two runs of a loop that agree once the shorter one has answered. *)
Lemma fuel_agree {A : Type} (f : nat → outcome A) :
  (∀ n n', n ≤ n' → f n ≠ Timeout → f n' = f n) →
  ∀ n0 n v, f n0 = Ret v → f n = Ret v ∨ f n = Timeout.
Proof.
  intros Hmono n0 n v E0. destruct (le_ge_dec n n0) as [Hle|Hge].
  - destruct (f n) as [w|msg|] eqn:E; [| |by right].
    + left. rewrite <- E0, (Hmono n n0 Hle) by (by rewrite E). done.
    + rewrite (Hmono n n0 Hle) in E0 by (by rewrite E). congruence.
  - left. rewrite (Hmono n0 n Hge) by (by rewrite E0). done.
Qed.

(** Membership of a byte in one of the constant byte strings. *)
Ltac not_in_bytes :=
  unfold contentDispositionPrefixUTF8, contentTypePrefixUTF8, nameUTF8,
    filenameUTF8, equalUTF8, encode; simpl;
  repeat (apply not_elem_of_cons; split; [discriminate|]);
  apply not_elem_of_nil.


(** ** Byte scanner *)

Lemma byte_is_true (o : option byte) (b : byte) :
  byte_is o b = true ↔ o = Some b.
Proof.
  destruct o as [x|]; simpl; split; intros E; try discriminate.
  - f_equal. by apply Byte.byte_dec_bl.
  - injection E as ->. by apply Byte.byte_dec_lb.
Qed.

Lemma byte_is_false (o : option byte) (b : byte) :
  byte_is o b = false ↔ o ≠ Some b.
Proof.
  rewrite <- byte_is_true. destruct (byte_is o b); split; congruence.
Qed.

Lemma arrayEq_spec (a b : list byte) : arrayEq a b = true ↔ a = b.
Proof.
  unfold arrayEq. split.
  - destruct (length a =? length b) eqn:El; simpl; [|discriminate].
    apply Nat.eqb_eq in El. intros Hall. apply list_eq. intros i.
    destruct (decide (i < length a)) as [Hi|Hi].
    + rewrite forallb_forall in Hall. specialize (Hall i).
      rewrite in_seq in Hall. specialize (Hall ltac:(lia)).
      destruct (a !! i), (b !! i); try discriminate; [|done].
      f_equal. by apply Byte.byte_dec_bl.
    + rewrite !lookup_ge_None_2; [done|lia..].
  - intros <-. rewrite Nat.eqb_refl. simpl. apply forallb_forall.
    intros i _. destruct (a !! i); [|done]. by apply Byte.byte_dec_lb.
Qed.

Lemma subarray_0 (a : list byte) (e : nat) : subarray a 0 e = take e a.
Proof. unfold subarray. by rewrite Nat.sub_0_r, drop_0. Qed.

Lemma startsWith_spec (arr pre : list byte) :
  startsWithArrayPrefix arr pre = true ↔ take (length pre) arr = pre.
Proof. unfold startsWithArrayPrefix. by rewrite arrayEq_spec, subarray_0. Qed.

Lemma startsWith_app (arr pre : list byte) :
  startsWithArrayPrefix arr pre = true ↔ ∃ rest, arr = pre ++ rest.
Proof.
  rewrite startsWith_spec. split.
  - intros E. exists (drop (length pre) arr).
    by rewrite <- E at 1; rewrite take_drop.
  - intros [rest ->]. by rewrite take_app_length.
Qed.

Lemma startsWith_nil (pre : list byte) :
  pre ≠ [] → startsWithArrayPrefix [] pre = false.
Proof.
  intros Hne. apply not_true_is_false. rewrite startsWith_spec.
  rewrite take_nil. congruence.
Qed.

Lemma crlfAt_lt (a : list byte) (j : nat) : crlfAt a j → S j < length a.
Proof. intros [_ E]. by apply lookup_lt_Some in E. Qed.

Lemma crlfAt_test (a : list byte) (j : nat) :
  byte_is (a !! j) x0d && byte_is (a !! S j) x0a = true ↔ crlfAt a j.
Proof. unfold crlfAt. by rewrite andb_true_iff, !byte_is_true. Qed.

Lemma getLineEndIdx_loop_spec (a : list byte) (n k : nat) :
  n = length a - S k →
  (getLineEndIdx_loop a n (S k) (a !! k) = length a
   ∨ (k ≤ getLineEndIdx_loop a n (S k) (a !! k)
      ∧ crlfAt a (getLineEndIdx_loop a n (S k) (a !! k))))
  ∧ (∀ j, k ≤ j < getLineEndIdx_loop a n (S k) (a !! k) → ¬ crlfAt a j).
Proof.
  revert k. induction n as [|n IH]; intros k Hn; simpl.
  - split; [by left|]. intros j Hj Hc. apply crlfAt_lt in Hc. lia.
  - destruct (byte_is (a !! k) x0d && byte_is (a !! S k) x0a) eqn:Et.
    + apply crlfAt_test in Et. rewrite Nat.sub_0_r. split; [right; done|].
      intros j Hj. lia.
    + destruct (IH (S k) ltac:(lia)) as [IH1 IH2]. split.
      * destruct IH1 as [?|[? ?]]; [by left|right; split; [lia|done]].
      * intros j Hj. destruct (decide (j = k)) as [->|Hne].
        -- rewrite <- crlfAt_test. congruence.
        -- apply IH2. lia.
Qed.

Lemma getLineEndIdx_spec (a : list byte) (off : nat) :
  (getLineEndIdx a off = length a
   ∨ (off ≤ getLineEndIdx a off ∧ crlfAt a (getLineEndIdx a off)))
  ∧ (∀ j, off ≤ j < getLineEndIdx a off → ¬ crlfAt a j).
Proof.
  unfold getLineEndIdx. rewrite Nat.add_1_r.
  by apply getLineEndIdx_loop_spec.
Qed.

(** The index is determined by the position of the first CR LF pair. *)
Lemma getLineEndIdx_unique (a : list byte) (off r : nat) :
  r = length a ∨ (off ≤ r ∧ crlfAt a r) →
  (∀ j, off ≤ j < r → ¬ crlfAt a j) →
  getLineEndIdx a off = r.
Proof.
  intros Hr Hfirst. destruct (getLineEndIdx_spec a off) as [H1 H2].
  set (r0 := getLineEndIdx a off) in *.
  destruct (lt_eq_lt_dec r0 r) as [[Hlt|?]|Hgt]; [|done|].
  - exfalso. destruct H1 as [E|[Hle Hc]].
    + destruct Hr as [->|[_ Hc]]; [lia|]. apply crlfAt_lt in Hc. lia.
    + by apply (Hfirst r0).
  - exfalso. destruct Hr as [->|[Hle Hc]].
    + destruct H1 as [E|[_ Hc]]; [lia|]. apply crlfAt_lt in Hc. lia.
    + by apply (H2 r).
Qed.

Lemma getLineEndIdx_le (a : list byte) (off : nat) :
  getLineEndIdx a off ≤ length a.
Proof.
  destruct (getLineEndIdx_spec a off) as [[->|[_ Hc]] _]; [done|].
  apply crlfAt_lt in Hc. lia.
Qed.

Lemma getLineEndIdx_ge (a : list byte) (off : nat) :
  off ≤ length a → off ≤ getLineEndIdx a off.
Proof.
  intros Hle. destruct (getLineEndIdx_spec a off) as [[->|[? _]] _]; done.
Qed.

Lemma getLineEndIdx_past (a : list byte) (off : nat) :
  length a ≤ off → getLineEndIdx a off = length a.
Proof.
  intros Hle. apply getLineEndIdx_unique; [by left|].
  intros j Hj Hc. apply crlfAt_lt in Hc. lia.
Qed.

Lemma getLineEndIdx_found (a : list byte) (off : nat) :
  getLineEndIdx a off < length a →
  off ≤ getLineEndIdx a off ∧ crlfAt a (getLineEndIdx a off).
Proof.
  intros Hlt. destruct (getLineEndIdx_spec a off) as [[E|?] _]; [lia|done].
Qed.

Lemma subarray_app (pre v rest : list byte) (b e : nat) :
  b = length pre → e = length pre + length v →
  subarray (pre ++ v ++ rest) b e = v.
Proof.
  intros -> ->. unfold subarray. rewrite drop_app_length.
  replace (length pre + length v - length pre) with (length v) by lia.
  by rewrite take_app_length.
Qed.

(** ** Content-Disposition parameters *)

Section ParamsFacts.
Context `{Platform} `{!Runtime}.

Lemma extractParam_loop_finds (pre v rest : list byte) (endI : nat) :
  quoteUTF8 ∉ v →
  extractParam_loop (pre ++ v ++ quoteUTF8 :: rest) endI
    (length (v ++ quoteUTF8 :: rest)) (length pre)
  = Ret (Some {| x_data := decode (subarray (pre ++ v ++ quoteUTF8 :: rest)
                                     (endI + 2) (length pre + length v));
                 x_offset := length pre + length v + 1 |}).
Proof.
  revert pre. induction v as [|b v IH]; intros pre Hv.
  - simpl. rewrite list_lookup_middle by done. simpl.
    by rewrite Nat.add_0_r.
  - apply not_elem_of_cons in Hv as [Hb Hv].
    cbn [app length extractParam_loop].
    rewrite list_lookup_middle by done.
    destruct (byte_is (Some b) quoteUTF8) eqn:Eb.
    { apply byte_is_true in Eb. congruence. }
    rewrite (cons_middle b pre), app_assoc.
    replace (S (length pre)) with (length (pre ++ [b]))
      by (rewrite length_app; simpl; lia).
    rewrite (IH _ Hv), length_app, <- app_assoc. simpl.
    by replace (length pre + 1 + length v) with (length pre + S (length v))
      by lia.
Qed.

Lemma extractParam_loop_inv (pre tail : list byte) (endI : nat)
    (o : option extracted) :
  extractParam_loop (pre ++ tail) endI (length tail) (length pre) = Ret o →
  ∃ v rest, tail = v ++ quoteUTF8 :: rest ∧ quoteUTF8 ∉ v.
Proof.
  revert pre. induction tail as [|b tail IH]; intros pre; [done|].
  cbn [length extractParam_loop].
  rewrite list_lookup_middle by done.
  destruct (byte_is (Some b) quoteUTF8) eqn:Eb.
  - apply byte_is_true in Eb. injection Eb as ->. intros _.
    exists [], tail. split; [done|]. apply not_elem_of_nil.
  - rewrite (cons_middle b pre), app_assoc.
    replace (S (length pre)) with (length (pre ++ [b]))
      by (rewrite length_app; simpl; lia).
    intros E. destruct (IH _ E) as (v & rest & -> & Hv).
    exists (b :: v), rest. split; [done|].
    apply not_elem_of_cons. split; [|done].
    intros <-. apply byte_is_false in Eb. done.
Qed.

(** The guard of [extractParam]: the key, then the byte [=]. *)
Lemma extractParam_guard (params paramKey : list byte) :
  negb (byte_is (params !! length paramKey) equalUTF8)
  || negb (arrayEq (subarray params 0 (length paramKey)) paramKey) = false
  ↔ ∃ rest, params = paramKey ++ equalUTF8 :: rest.
Proof.
  rewrite orb_false_iff, !negb_false_iff, byte_is_true, arrayEq_spec,
    subarray_0.
  split.
  - intros [Heq Hk].
    exists (drop (S (length paramKey)) params).
    apply take_drop_middle in Heq. by rewrite Hk in Heq.
  - intros [rest ->]. split.
    + by rewrite list_lookup_middle.
    + by rewrite take_app_length.
Qed.

(** What [extractParam] captures, and when.  The byte after [=] is skipped
    without being looked at; the value runs from the byte after it to the
    first quote from there on. *)
Lemma extractParam_Some (params paramKey : list byte) (x : extracted) :
  extractParam params paramKey = Ret (Some x) ↔
  ∃ c v rest,
    params = paramKey ++ equalUTF8 :: c :: v ++ quoteUTF8 :: rest
    ∧ (quoteUTF8 ∉ v)
    ∧ x = {| x_data := decode v;
             x_offset := length paramKey + 2 + length v + 1 |}.
Proof.
  unfold extractParam. split.
  - destruct (negb _ || negb _) eqn:Eg; [done|].
    apply extractParam_guard in Eg as [rest ->].
    destruct rest as [|c tail].
    { rewrite length_app. simpl.
      replace (_ - _) with 0 by lia. done. }
    replace (paramKey ++ equalUTF8 :: c :: tail)
      with ((paramKey ++ [equalUTF8; c]) ++ tail)
      by (by rewrite <- app_assoc).
    replace (length paramKey + 2) with (length (paramKey ++ [equalUTF8; c]))
      by (rewrite length_app; simpl; lia).
    replace (length ((paramKey ++ [equalUTF8; c]) ++ tail)
             - length (paramKey ++ [equalUTF8; c]))
      with (length tail) by (rewrite !length_app; simpl; lia).
    intros E.
    destruct (extractParam_loop_inv _ _ _ _ E) as (v & rest & -> & Hv).
    rewrite (extractParam_loop_finds _ _ _ _ Hv) in E.
    injection E as <-. exists c, v, rest.
    split; [by rewrite <- app_assoc|]. split; [done|].
    by rewrite subarray_app by (rewrite ?length_app; simpl; lia).
  - intros (c & v & rest & -> & Hv & ->).
    destruct (negb _ || negb _) eqn:Eg.
    { apply not_false_iff_true in Eg. exfalso. apply Eg.
      apply extractParam_guard. eauto. }
    replace (paramKey ++ equalUTF8 :: c :: v ++ quoteUTF8 :: rest)
      with ((paramKey ++ [equalUTF8; c]) ++ v ++ quoteUTF8 :: rest)
      by (by rewrite <- app_assoc).
    replace (length paramKey + 2) with (length (paramKey ++ [equalUTF8; c]))
      by (rewrite length_app; simpl; lia).
    replace (length ((paramKey ++ [equalUTF8; c]) ++ v ++ quoteUTF8 :: rest)
             - length (paramKey ++ [equalUTF8; c]))
      with (length (v ++ quoteUTF8 :: rest))
      by (rewrite !length_app; simpl; lia).
    rewrite (extractParam_loop_finds _ _ _ _ Hv).
    by rewrite subarray_app by (rewrite ?length_app; simpl; lia).
Qed.

End ParamsFacts.

(** ** Content transformer *)

Section TransformerFacts.
Context `{Platform} `{!Runtime}.

Lemma withDefaults_default (contentProcessors : gmap string processor) :
  is_Some (withDefaults contentProcessors !! "default").
Proof.
  unfold withDefaults. rewrite lookup_union.
  destruct (contentProcessors !! "default"); simpl; [by eexists|].
  by eexists.
Qed.

Lemma withDefaults_builtin_default (contentProcessors : gmap string processor) :
  contentProcessors !! "default" = None →
  withDefaults contentProcessors !! "default"
  = Some (fun content => Ret (Bytes content)).
Proof.
  intros E. unfold withDefaults. rewrite lookup_union_r by done.
  reflexivity.
Qed.

Lemma processContent_fallback (registry : gmap string processor)
    (contentType : string) (content : list byte) (filename : option string)
    (f : processor) :
  registry !! contentType = None →
  contentType ∉ objectPrototypeNames →
  registry !! "default" = Some f →
  processContent registry contentType content filename
  = d ← f content;
    Ret {| contentType := contentType; data_of := d; filename := filename |}.
Proof.
  intros E Hn Ed. unfold processContent.
  rewrite bool_decide_eq_false_2 by (rewrite E; by intros [? ?]).
  rewrite (bool_decide_eq_false_2 (contentType ∈ _)) by done.
  cbn [orb]. by rewrite Ed.
Qed.

(** A name of [Object.prototype] that the registry does not own is found
    by [in], and the member of [Object.prototype] is what is called. *)
Lemma processContent_inherited (registry : gmap string processor)
    (contentType : string) (content : list byte) (filename : option string) :
  registry !! contentType = None →
  contentType ∈ objectPrototypeNames →
  processContent registry contentType content filename
  = d ← Object_prototype_call contentType registry content;
    Ret {| contentType := contentType; data_of := d; filename := filename |}.
Proof.
  intros E Hin. unfold processContent.
  rewrite (bool_decide_eq_true_2 (contentType ∈ _)) by done.
  rewrite orb_true_r, E. by rewrite bool_decide_eq_true_2.
Qed.

End TransformerFacts.

(** ** Result aggregator *)

Section AggregatorFacts.
Context `{Platform} `{!Runtime}.

Lemma get_set_eq (result : ParseResult) (name : string) (v : field) :
  get (set result name v) name = Some v.
Proof.
  induction result as [|[k w] rest IH]; simpl.
  - by rewrite bool_decide_eq_true_2.
  - destruct (bool_decide (k = name)) eqn:E; simpl; rewrite E; done.
Qed.

Lemma get_set_ne (result : ParseResult) (name other : string) (v : field) :
  other ≠ name → get (set result name v) other = get result other.
Proof.
  intros Hne. induction result as [|[k w] rest IH]; simpl.
  - by rewrite bool_decide_eq_false_2.
  - destruct (bool_decide (k = name)) eqn:E; simpl.
    + apply bool_decide_eq_true in E as ->.
      by rewrite !bool_decide_eq_false_2.
    + by rewrite IH.
Qed.

Lemma get_None (result : ParseResult) (name : string) :
  get result name = None ↔ name ∉ result.*1.
Proof.
  induction result as [|[k w] rest IH]; simpl.
  - split; [intros _; apply not_elem_of_nil|done].
  - rewrite not_elem_of_cons. destruct (bool_decide (k = name)) eqn:E.
    + apply bool_decide_eq_true in E as ->. split; [done|]. by intros [? _].
    + apply bool_decide_eq_false in E. rewrite IH.
      split; [intros ?; split; [congruence|done]|by intros [_ ?]].
Qed.

Lemma keys_set_new (result : ParseResult) (name : string) (v : field) :
  name ∉ result.*1 → (set result name v).*1 = result.*1 ++ [name].
Proof.
  induction result as [|[k w] rest IH]; [done|].
  rewrite fmap_cons, not_elem_of_cons. intros [Hne Hnin].
  cbn [set]. rewrite bool_decide_eq_false_2 by done.
  by rewrite !fmap_cons, IH.
Qed.

Lemma keys_set_old (result : ParseResult) (name : string) (v : field) :
  name ∈ result.*1 → (set result name v).*1 = result.*1.
Proof.
  induction result as [|[k w] rest IH].
  - by intros ?%elem_of_nil.
  - rewrite fmap_cons, elem_of_cons. cbn [set]. case_bool_decide as E; [done|].
    intros [?|Hin]; [by subst|]. by rewrite !fmap_cons, IH.
Qed.



Lemma get_add_eq (result : ParseResult) (name : string) (e : entry) :
  (get result name = None → chainValue result name = None) →
  get (addContentToResult result name e) name = merge1 (get result name) e.
Proof.
  intros Hc. unfold addContentToResult, merge1.
  destruct (get result name) as [[x|l|v l]|]; [by rewrite get_set_eq..|].
  rewrite Hc by done. by rewrite get_set_eq.
Qed.

Lemma get_add_ne (result : ParseResult) (name other : string) (e : entry) :
  other ≠ name →
  get (addContentToResult result name e) other = get result other.
Proof.
  intros Hne. unfold addContentToResult.
  destruct (get result name) as [[x|l|v l]|];
    [..|destruct (chainValue result name) as [[x|v]|]];
    by rewrite get_set_ne.
Qed.

Lemma keys_add (result : ParseResult) (name : string) (e : entry) :
  (addContentToResult result name e).*1
  = if bool_decide (name ∈ result.*1) then result.*1 else result.*1 ++ [name].
Proof.
  unfold addContentToResult. case_bool_decide as Hin.
  - assert (get result name ≠ None) as Hg by (by rewrite get_None; intros ?).
    destruct (get result name) as [[x|l|v l]|]; [..|done];
      by rewrite keys_set_old.
  - pose proof Hin as Hg. apply get_None in Hg. rewrite Hg.
    destruct (chainValue result name) as [[x|v]|]; by rewrite keys_set_new.
Qed.







Lemma keyOrder_elem (created : list string) (x : string) :
  x ∈ keyOrder created ↔ x ∈ created.
Proof.
  unfold keyOrder. rewrite elem_of_app, merge_sort_Permutation.
  rewrite !list_elem_of_filter. split; [by intros [[_ ?]|[_ ?]]|].
  intros Hx. destruct (decide (isIndex x)); [left|right]; done.
Qed.

Lemma ownKeys_elem (result : ParseResult) (x : string) :
  x ∈ ownKeys result ↔ x ≠ "__proto__" ∧ x ∈ result.*1.
Proof. unfold ownKeys. by rewrite keyOrder_elem, list_elem_of_filter. Qed.



End AggregatorFacts.

(** ** Fuel *)

Lemma bind_Ret {A B : Type} (a : A) (k : A → outcome B) : Ret a ≫= k = k a.
Proof. done. Qed.

Lemma fmap_Ret {A B : Type} (f : A → B) (a : A) : f <$> Ret a = Ret (f a).
Proof. done. Qed.

Lemma bind_not_Timeout {A B : Type} (m : outcome A) (k : A → outcome B) :
  m ≫= k ≠ Timeout → m ≠ Timeout.
Proof. by destruct m. Qed.

Section Fuel.
Context `{Platform} `{!Runtime}.

Lemma readContentDisposition_loop_mono (n n' : nat) (params : list byte)
    (i : nat) (name filename : option string) :
  n ≤ n' →
  readContentDisposition_loop n params i name filename ≠ Timeout →
  readContentDisposition_loop n' params i name filename
  = readContentDisposition_loop n params i name filename.
Proof.
  revert n' i name filename.
  induction n as [|n IH]; intros n' i name filename Hle Hnt.
  - simpl in *. destruct (negb (i <? length params)) eqn:E; [|done].
    destruct n'; simpl; by rewrite E.
  - destruct n' as [|n']; [lia|]. simpl in *.
    destruct (negb (i <? length params)); [done|].
    destruct (if falsy name then _ else _) as [[x|]| |]; simpl in *;
      [apply IH; [lia|done]| |done..].
    destruct (if falsy filename then _ else _) as [[x|]| |]; simpl in *;
      [apply IH; [lia|done]| |done..].
    destruct (_ && _); [done|]. apply IH; [lia|done].
Qed.

Lemma skipPreamble_mono (fuel fuel' : nat) (array sep : list byte) (s : nat) :
  fuel ≤ fuel' →
  skipPreamble fuel array sep s ≠ Timeout →
  skipPreamble fuel' array sep s = skipPreamble fuel array sep s.
Proof.
  revert fuel' s. induction fuel as [|fuel IH]; intros fuel' s Hle Hnt;
    [done|].
  destruct fuel' as [|fuel']; [lia|]. simpl in *.
  destruct (_ && _); [|done]. apply IH; [lia|done].
Qed.

Lemma readHeaders_mono (fuel fuel' : nat) (array : list byte) (h : headers) :
  fuel ≤ fuel' →
  readHeaders fuel array h ≠ Timeout →
  readHeaders fuel' array h = readHeaders fuel array h.
Proof.
  revert fuel' h. induction fuel as [|fuel IH]; intros fuel' h Hle Hnt;
    [done|].
  destruct fuel' as [|fuel']; [lia|]. simpl in *.
  destruct (headerStep array h) as [h'| |]; simpl in *; [|done..].
  destruct (headerMore array (h_startIdx h')); [|done]. apply IH; [lia|done].
Qed.

Lemma bodyScan_mono (fuel fuel' : nat) (array sep : list byte) (i : nat) :
  fuel ≤ fuel' →
  bodyScan fuel array sep i ≠ Timeout →
  bodyScan fuel' array sep i = bodyScan fuel array sep i.
Proof.
  revert fuel' i. induction fuel as [|fuel IH]; intros fuel' i Hle Hnt;
    [done|].
  destruct fuel' as [|fuel']; [lia|]. simpl in *.
  destruct (negb _); [|done]. apply IH; [lia|done].
Qed.

Lemma partStep_mono (fuel fuel' : nat) (array sep : list byte)
    (procs : gmap string processor) (st : scan) :
  fuel ≤ fuel' →
  partStep fuel array sep procs st ≠ Timeout →
  partStep fuel' array sep procs st = partStep fuel array sep procs st.
Proof.
  intros Hle Hnt. unfold partStep in *.
  rewrite (readHeaders_mono fuel fuel') by
    (try done; by apply bind_not_Timeout in Hnt).
  destruct (readHeaders fuel array _) as [h| |]; simpl in *; [|done..].
  destruct (h_name h) as [name|]; [|done].
  destruct (bool_decide (name = "")); [done|].
  rewrite (bodyScan_mono fuel fuel') by
    (try done; by apply bind_not_Timeout in Hnt).
  done.
Qed.

Lemma partsLoop_mono (fuel fuel' : nat) (array sep : list byte)
    (procs : gmap string processor) (st : scan) :
  fuel ≤ fuel' →
  partsLoop fuel array sep procs st ≠ Timeout →
  partsLoop fuel' array sep procs st = partsLoop fuel array sep procs st.
Proof.
  revert fuel' st. induction fuel as [|fuel IH]; intros fuel' st Hle Hnt.
  - simpl in *. destruct (negb _) eqn:E; [|done].
    destruct fuel'; simpl; by rewrite E.
  - destruct fuel' as [|fuel']; [lia|]. simpl in *.
    destruct (negb _); [done|].
    rewrite (partStep_mono fuel fuel') by
      (try lia; by apply bind_not_Timeout in Hnt).
    destruct (partStep fuel array sep procs st) as [[st'|st']| |];
      simpl in *; [|done..].
    apply IH; [lia|done].
Qed.

Lemma parse_mono (fuel fuel' : nat) (array : list byte) (boundary : string)
    (procs : gmap string processor) :
  fuel ≤ fuel' →
  parseMultipartFormData fuel array boundary procs ≠ Timeout →
  parseMultipartFormData fuel' array boundary procs
  = parseMultipartFormData fuel array boundary procs.
Proof.
  intros Hle Hnt. unfold parseMultipartFormData in *.
  rewrite (skipPreamble_mono fuel fuel') by
    (try done; by apply bind_not_Timeout in Hnt).
  destruct (skipPreamble fuel array _ 0) as [s| |]; simpl in *; [|done..].
  rewrite (partsLoop_mono fuel fuel') by
    (try done; by apply bind_not_Timeout in Hnt).
  done.
Qed.

(** A scan that starts at or past the end of the buffer never leaves the
    body loop: [getLineEndIdx] answers the length, and the empty view at
    [length + 2] does not start with the delimiter. *)
Lemma bodyScan_stuck (fuel : nat) (array sep : list byte) (i : nat) :
  sep ≠ [] → length array ≤ i → bodyScan fuel array sep i = Timeout.
Proof.
  intros Hsep. revert i. induction fuel as [|fuel IH]; intros i Hi; [done|].
  simpl. rewrite getLineEndIdx_past by done.
  rewrite drop_ge by lia. rewrite startsWith_nil by done. simpl.
  apply IH. lia.
Qed.

End Fuel.

(** ** Reaching a part *)

Section ReachabilityFacts.
Context `{Platform} `{!Runtime}.

Lemma Reaches_partsLoop (fuel : nat) (array sep : list byte)
    (procs : gmap string processor) (st : scan) (r : outcome scan) :
  Reaches fuel array sep procs st →
  (∃ f0, ∀ f, f0 ≤ f → partsLoop f array sep procs st = r) →
  ∃ f0, ∀ f, f0 ≤ f →
    (s ← skipPreamble f array sep 0;
     partsLoop f array sep procs (firstPart s)) = r.
Proof.
  intros Hreach. revert r.
  induction Hreach as [s Hs|st st' Hreach IH Hlt Hstep]; intros r [f0 Hr].
  - exists (max fuel f0). intros f Hf.
    rewrite (skipPreamble_mono fuel f) by (try lia; by rewrite Hs).
    rewrite Hs. simpl. apply Hr. lia.
  - apply IH. exists (S (max fuel f0)). intros f Hf.
    destruct f as [|f]; [lia|]. simpl.
    rewrite (proj2 (Nat.ltb_lt _ _) Hlt). simpl.
    rewrite (partStep_mono fuel f) by (try lia; by rewrite Hstep).
    rewrite Hstep. simpl. apply Hr. lia.
Qed.

(** An exception in a part that is reached is the outcome of the call. *)
Lemma Reaches_Throw (fuel : nat) (array : list byte) (boundary : string)
    (procs : gmap string processor) (st : scan) (msg : string) :
  Reaches fuel array (separatorOf boundary) (withDefaults procs) st →
  startIdx st < length array →
  partStep fuel array (separatorOf boundary) (withDefaults procs) st
  = Throw msg →
  ∃ f0, ∀ f, f0 ≤ f →
    parseMultipartFormData f array boundary procs = Throw msg.
Proof.
  intros Hreach Hlt Hstep.
  destruct (Reaches_partsLoop _ _ _ _ _ (Throw msg) Hreach) as [f0 Hf0].
  - exists (S fuel). intros f Hf. destruct f as [|f]; [lia|]. simpl.
    rewrite (proj2 (Nat.ltb_lt _ _) Hlt). simpl.
    rewrite (partStep_mono fuel f) by (try lia; by rewrite Hstep).
    by rewrite Hstep.
  - exists f0. intros f Hf. unfold parseMultipartFormData.
    specialize (Hf0 f Hf). simpl in *.
    destruct (skipPreamble f array _ 0) as [s| |]; simpl in *;
      [by rewrite Hf0|congruence..].
Qed.

Lemma partStep_missing_name (fuel : nat) (array sep : list byte)
    (procs : gmap string processor) (st : scan) (h : headers) :
  readHeaders fuel array (newPart (lineEndIdx st)) = Ret h →
  falsy (h_name h) = true →
  partStep fuel array sep procs st = Throw "The entry name is missing".
Proof.
  intros Hh Hname. unfold partStep. rewrite Hh. simpl.
  destruct (h_name h) as [name|]; [|done]. simpl in Hname.
  by rewrite Hname.
Qed.

End ReachabilityFacts.

(** ** Lines and the preamble loop *)

Lemma crlfAt_drop (a : list byte) (s j : nat) :
  crlfAt (drop s a) j ↔ crlfAt a (s + j).
Proof. unfold crlfAt. by rewrite !lookup_drop, Nat.add_succ_r. Qed.

Lemma crlfAt_cons (b : byte) (a : list byte) (j : nat) :
  crlfAt (b :: a) (S j) ↔ crlfAt a j.
Proof. done. Qed.

Lemma crlfAt_0 (b c : byte) (a : list byte) :
  Byte.eqb b x0d && Byte.eqb c x0a = true ↔ crlfAt (b :: c :: a) 0.
Proof.
  unfold crlfAt. simpl. rewrite andb_true_iff. split.
  - intros [->%Byte.byte_dec_bl ->%Byte.byte_dec_bl]. done.
  - intros [[= ->] [= ->]]. done.
Qed.

Lemma crlfLines_cons (b c : byte) (rest : list byte) :
  crlfLines (b :: c :: rest)
  = if Byte.eqb b x0d && Byte.eqb c x0a then [] :: crlfLines rest
    else consHead b (crlfLines (c :: rest)).
Proof. done. Qed.

Lemma crlfLines_single (a : list byte) :
  (∀ j, ¬ crlfAt a j) → crlfLines a = [a].
Proof.
  induction a as [|b [|c rest] IH]; intros Hno; [done..|].
  rewrite crlfLines_cons.
  destruct (Byte.eqb b x0d && Byte.eqb c x0a) eqn:E.
  { apply (crlfAt_0 b c rest) in E. by apply Hno in E. }
  rewrite IH; [done|]. intros j Hj. by apply (Hno (S j)).
Qed.

Lemma crlfLines_first (a : list byte) (r : nat) :
  crlfAt a r → (∀ j, j < r → ¬ crlfAt a j) →
  crlfLines a = take r a :: crlfLines (drop (r + 2) a).
Proof.
  revert a. induction r as [|r IH]; intros a Hc Hfirst.
  - destruct a as [|b [|c rest]]; [by destruct Hc..|].
    apply crlfAt_0 in Hc. rewrite crlfLines_cons. by rewrite Hc.
  - destruct a as [|b [|c rest]]; [by destruct Hc..|].
    rewrite crlfLines_cons.
    destruct (Byte.eqb b x0d && Byte.eqb c x0a) eqn:E.
    { apply (crlfAt_0 b c rest) in E. apply Hfirst in E; [done|lia]. }
    rewrite (IH (c :: rest)).
    + done.
    + by apply crlfAt_cons in Hc.
    + intros j Hj Hcj. apply (Hfirst (S j)); [lia|done].
Qed.

Section PreambleFacts.
Context `{Platform} `{!Runtime}.

(** Without a line that starts with the delimiter the preamble loop runs to
    the end of the buffer. *)
Lemma skipPreamble_no_boundary (fuel : nat) (array sep : list byte) (s : nat) :
  s ≤ length array → length array - s < fuel →
  Forall (fun l => startsWithArrayPrefix l sep = false)
    (crlfLines (drop s array)) →
  ∃ s', skipPreamble fuel array sep s = Ret s' ∧ length array ≤ s'.
Proof.
  revert s. induction fuel as [|fuel IH]; intros s Hs Hfuel Hall; [lia|].
  simpl. destruct (getLineEndIdx_spec array s) as [Hr Hfirst].
  set (r := getLineEndIdx array s) in *.
  destruct (decide (r < length array)) as [Hlt|Hnc].
  - assert (crlfAt array r ∧ s ≤ r) as [Hc Hle]
      by (destruct Hr as [?|[? ?]]; [lia|done]).
    rewrite (crlfLines_first _ (r - s)) in Hall.
    + apply Forall_cons in Hall as [Hline Hrest].
      unfold subarray. rewrite Hline. simpl.
      destruct (r + 2 <? length array) eqn:Elt.
      * apply Nat.ltb_lt in Elt. apply IH; [lia..|].
        rewrite drop_drop in Hrest.
        by replace (s + (r - s + 2)) with (r + 2) in Hrest by lia.
      * apply Nat.ltb_ge in Elt. eauto.
    + apply crlfAt_drop. by replace (s + (r - s)) with r by lia.
    + intros j Hj Hcj. apply crlfAt_drop in Hcj.
      apply (Hfirst (s + j)); [lia|done].
  - assert (r = length array) as Er
      by (pose proof (getLineEndIdx_le array s); unfold r in *; lia).
    rewrite crlfLines_single in Hall.
    + apply Forall_cons in Hall as [Hline _].
      unfold subarray. rewrite take_ge by (rewrite length_drop; lia).
      rewrite Hline. simpl.
      rewrite (proj2 (Nat.ltb_ge _ _)) by lia. eexists. split; [done|lia].
    + intros j Hcj. apply crlfAt_drop in Hcj.
      destruct (decide (s + j < r)) as [Hlt|Hge].
      * apply (Hfirst (s + j)); [lia|done].
      * apply crlfAt_lt in Hcj. lia.
Qed.

Lemma partsLoop_past_end (fuel : nat) (array sep : list byte)
    (procs : gmap string processor) (st : scan) :
  length array ≤ startIdx st → partsLoop fuel array sep procs st = Ret st.
Proof.
  intros Hle. destruct fuel; simpl;
    by rewrite (proj2 (Nat.ltb_ge _ _)) by done.
Qed.

End PreambleFacts.

(** ** The driver does not depend on what precedes its start position *)

Lemma ltb_shift (k x y : nat) : (k + x <? k + y) = (x <? y).
Proof. apply eq_true_iff_eq. rewrite !Nat.ltb_lt. lia. Qed.

Lemma lookup_shift (pre a : list byte) (i : nat) :
  (pre ++ a) !! (length pre + i) = a !! i.
Proof.
  rewrite lookup_app_r by lia. f_equal. lia.
Qed.

Lemma subarray_shift (pre a : list byte) (b e : nat) :
  subarray (pre ++ a) (length pre + b) (length pre + e) = subarray a b e.
Proof.
  unfold subarray. rewrite drop_app_add. f_equal. lia.
Qed.

Lemma crlfAt_shift (pre a : list byte) (j : nat) :
  crlfAt (pre ++ a) (length pre + j) ↔ crlfAt a j.
Proof.
  unfold crlfAt. by rewrite <- Nat.add_succ_r, !lookup_shift.
Qed.

Lemma getLineEndIdx_shift (pre a : list byte) (off : nat) :
  getLineEndIdx (pre ++ a) (length pre + off)
  = length pre + getLineEndIdx a off.
Proof.
  destruct (getLineEndIdx_spec a off) as [Hr Hfirst].
  apply getLineEndIdx_unique.
  - destruct Hr as [->|[Hle Hc]].
    + left. by rewrite length_app.
    + right. split; [lia|]. by apply crlfAt_shift.
  - intros j Hj Hc.
    replace j with (length pre + (j - length pre)) in Hc by lia.
    apply crlfAt_shift in Hc. apply (Hfirst (j - length pre)); [lia|done].
Qed.

Section ShiftFacts.
Context `{Platform} `{!Runtime}.

Lemma headerMore_shift (pre a : list byte) (s : nat) :
  headerMore (pre ++ a) (length pre + s) = headerMore a s.
Proof.
  unfold headerMore.
  by rewrite <- (Nat.add_assoc (length pre) s 1), !lookup_shift, length_app,
    ltb_shift.
Qed.

Lemma headerStep_shift (pre a : list byte) (h : headers) :
  headerStep (pre ++ a) (shiftHeaders (length pre) h)
  = shiftHeaders (length pre) <$> headerStep a h.
Proof.
  unfold headerStep. cbn [shiftHeaders h_startIdx h_name h_contentType
    h_filename].
  rewrite drop_app_add.
  destruct (falsy (h_name h) && _).
  { destruct (readContentDisposition _) as [d| |]; [|done..]. simpl.
    unfold shiftHeaders. simpl. f_equal. f_equal. lia. }
  destruct (falsy (h_contentType h) && _).
  { rewrite <- !Nat.add_assoc, getLineEndIdx_shift, subarray_shift.
    simpl. unfold shiftHeaders. simpl. do 2 f_equal. lia. }
  simpl. unfold shiftHeaders. simpl. do 2 f_equal. lia.
Qed.

Lemma readHeaders_shift (fuel : nat) (pre a : list byte) (h : headers) :
  readHeaders fuel (pre ++ a) (shiftHeaders (length pre) h)
  = shiftHeaders (length pre) <$> readHeaders fuel a h.
Proof.
  revert h. induction fuel as [|fuel IH]; intros h; [done|].
  simpl. rewrite headerStep_shift.
  destruct (headerStep a h) as [h'| |]; [|done..]. simpl.
  rewrite headerMore_shift. destruct (headerMore a (h_startIdx h')); [|done].
  apply IH.
Qed.

Lemma bodyScan_shift (fuel : nat) (pre a sep : list byte) (i : nat) :
  bodyScan fuel (pre ++ a) sep (length pre + i)
  = (fun l => length pre + l) <$> bodyScan fuel a sep i.
Proof.
  revert i. induction fuel as [|fuel IH]; intros i; [done|].
  simpl. rewrite getLineEndIdx_shift, <- Nat.add_assoc, drop_app_add.
  destruct (negb _); [|done]. apply IH.
Qed.

Lemma bodyScan_ge (fuel : nat) (a sep : list byte) (i l : nat) :
  bodyScan fuel a sep i = Ret l → 2 ≤ l.
Proof.
  revert i. induction fuel as [|fuel IH]; intros i; [done|].
  simpl. destruct (negb _); [apply IH|]. intros [= <-]. lia.
Qed.

Lemma partStep_shift (fuel : nat) (pre a sep : list byte)
    (procs : gmap string processor) (st : scan) :
  partStep fuel (pre ++ a) sep procs (shiftScan (length pre) st)
  = shiftControl (length pre) <$> partStep fuel a sep procs st.
Proof.
  unfold partStep. cbn [shiftScan lineEndIdx result].
  change (newPart (length pre + lineEndIdx st))
    with (shiftHeaders (length pre) (newPart (lineEndIdx st))).
  rewrite readHeaders_shift.
  destruct (readHeaders fuel a _) as [h| |]; [|done..]. simpl.
  destruct (h_name h) as [name|]; [|done].
  destruct (bool_decide (name = "")); [done|].
  rewrite <- (Nat.add_assoc (length pre) (h_startIdx h) 1), bodyScan_shift.
  destruct (bodyScan fuel a sep _) as [l| |] eqn:El; [|done..]. simpl.
  apply bodyScan_ge in El.
  replace (length pre + l - 2) with (length pre + (l - 2)) by lia.
  rewrite <- (Nat.add_assoc (length pre) (h_startIdx h + 1) 1), subarray_shift.
  destruct (processContent _ _ _ _) as [content| |]; [|done..]. simpl.
  rewrite getLineEndIdx_shift, <- (Nat.add_assoc (length pre) l (length sep)),
    subarray_shift.
  destruct (_ && _); simpl; unfold shiftScan; simpl; do 3 f_equal; lia.
Qed.

Lemma partsLoop_shift (fuel : nat) (pre a sep : list byte)
    (procs : gmap string processor) (st : scan) :
  partsLoop fuel (pre ++ a) sep procs (shiftScan (length pre) st)
  = shiftScan (length pre) <$> partsLoop fuel a sep procs st.
Proof.
  revert st. induction fuel as [|fuel IH]; intros st.
  - simpl. rewrite length_app, ltb_shift. by destruct (negb _).
  - simpl. rewrite length_app, ltb_shift. destruct (negb _); [done|].
    rewrite partStep_shift.
    destruct (partStep fuel a sep procs st) as [[st'|st']| |]; [|done..].
    apply IH.
Qed.

Lemma skipPreamble_shift (fuel : nat) (pre a sep : list byte) (s : nat) :
  skipPreamble fuel (pre ++ a) sep (length pre + s)
  = (fun l => length pre + l) <$> skipPreamble fuel a sep s.
Proof.
  revert s. induction fuel as [|fuel IH]; intros s; [done|].
  simpl. rewrite getLineEndIdx_shift, subarray_shift, length_app.
  rewrite <- Nat.add_assoc, ltb_shift.
  destruct (_ && _); [|done]. apply IH.
Qed.

End ShiftFacts.

(** ** Lines of a preamble *)

Lemma separatorOf_cons (boundary : string) :
  separatorOf boundary = x2d :: x2d :: encode boundary.
Proof. done. Qed.

Lemma separatorOf_nonempty (boundary : string) : separatorOf boundary ≠ [].
Proof. by rewrite separatorOf_cons. Qed.

Lemma getLineEndIdx_line (l rest : list byte) :
  (∀ j, ¬ crlfAt l j) →
  getLineEndIdx (l ++ x0d :: x0a :: rest) 0 = length l.
Proof.
  intros Hl. apply getLineEndIdx_unique.
  - right. split; [lia|]. split.
    + by rewrite list_lookup_middle.
    + rewrite (cons_middle x0d), app_assoc.
      rewrite list_lookup_middle; [done|].
      rewrite length_app. simpl. lia.
  - intros j [_ Hj] [Hc1 Hc2].
    destruct (decide (S j < length l)) as [Hlt|Hge].
    + apply (Hl j). split.
      * by rewrite lookup_app_l in Hc1 by lia.
      * by rewrite lookup_app_l in Hc2 by lia.
    + rewrite list_lookup_middle in Hc2 by lia. done.
Qed.

Section PreambleLines.
Context `{Platform} `{!Runtime}.

Lemma parse_empty (fuel : nat) (boundary : string)
    (procs : gmap string processor) :
  parseMultipartFormData (S fuel) [] boundary procs = Ret [].
Proof.
  unfold parseMultipartFormData. simpl skipPreamble.
  rewrite bind_Ret.
  by rewrite partsLoop_past_end by (simpl; lia).
Qed.

Lemma parse_skip_line (fuel : nat) (l rest : list byte) (boundary : string)
    (procs : gmap string processor) :
  (∀ j, ¬ crlfAt l j) →
  startsWithArrayPrefix l (separatorOf boundary) = false →
  parseMultipartFormData fuel rest boundary procs ≠ Timeout →
  parseMultipartFormData (S fuel) ((l ++ [x0d; x0a]) ++ rest) boundary procs
  = parseMultipartFormData fuel rest boundary procs.
Proof.
  intros Hl Hline Hnt. unfold parseMultipartFormData in *.
  cbn [skipPreamble]. rewrite <- app_assoc. cbn [app].
  rewrite getLineEndIdx_line by done.
  rewrite subarray_0, take_app_length, Hline. cbn [negb andb].
  destruct rest as [|b rest].
  - rewrite (proj2 (Nat.ltb_ge _ _)) by (rewrite length_app; simpl; lia).
    rewrite bind_Ret.
    rewrite partsLoop_past_end by (rewrite length_app; simpl; lia).
    rewrite bind_Ret. destruct fuel as [|fuel]; [done|].
    symmetry. exact (parse_empty fuel boundary procs).
  - rewrite (proj2 (Nat.ltb_lt _ _)) by (rewrite !length_app; simpl; lia).
    set (rest' := b :: rest) in *.
    replace (l ++ x0d :: x0a :: rest') with ((l ++ [x0d; x0a]) ++ rest')
      by (by rewrite <- app_assoc).
    replace (length l + 2) with (length (l ++ [x0d; x0a]) + 0)
      by (rewrite length_app; simpl; lia).
    rewrite skipPreamble_shift.
    destruct (skipPreamble fuel rest' _ 0) as [s| |]; [|done..].
    rewrite fmap_Ret, !bind_Ret. rewrite bind_Ret in Hnt.
    change (firstPart (length (l ++ [x0d; x0a]) + s))
      with (shiftScan (length (l ++ [x0d; x0a])) (firstPart s)).
    rewrite partsLoop_shift.
    rewrite (partsLoop_mono fuel (S fuel)) by
      (try lia; by apply bind_not_Timeout in Hnt).
    destruct (partsLoop fuel rest' _ _ _) as [st| |]; done.
Qed.

End PreambleLines.

(** ** The driver does not depend on what follows its last position *)

Lemma agree_lookup (n : nat) (a a' : list byte) (i : nat) :
  agree n a a' → i < n → a !! i = a' !! i.
Proof.
  intros [E _] Hi.
  by rewrite <- (lookup_take_lt a n i), <- (lookup_take_lt a' n i), E.
Qed.

Lemma agree_le (n m : nat) (a a' : list byte) :
  agree n a a' → m ≤ n → agree m a a'.
Proof.
  intros (E & Hl & Hl') Hm. split; [|lia].
  replace m with (min m n) by lia. by rewrite <- !take_take, E.
Qed.

Lemma agree_sym (n : nat) (a a' : list byte) : agree n a a' → agree n a' a.
Proof. intros (E & Hl & Hl'). done. Qed.

Lemma agree_drop (n s : nat) (a a' : list byte) :
  agree n a a' → s ≤ n → agree (n - s) (drop s a) (drop s a').
Proof.
  intros (E & Hl & Hl') Hs. split; [|rewrite !length_drop; lia].
  rewrite !take_drop_commute.
  replace (s + (n - s)) with n by lia. by rewrite E.
Qed.

Lemma agree_subarray (n : nat) (a a' : list byte) (b e : nat) :
  agree n a a' → e ≤ n → subarray a b e = subarray a' b e.
Proof.
  intros Hag He. unfold subarray.
  destruct (decide (b ≤ e)) as [Hbe|Hbe].
  - rewrite !take_drop_commute.
    destruct (agree_le _ (b + (e - b)) _ _ Hag) as [E _]; [lia|].
    by rewrite E.
  - by replace (e - b) with 0 by lia.
Qed.

Lemma lookup_subarray (a : list byte) (b e i : nat) :
  b + i < e → subarray a b e !! i = a !! (b + i).
Proof.
  intros Hi. unfold subarray.
  rewrite lookup_take_lt by lia. apply lookup_drop.
Qed.

Lemma lookup_subarray_None (a : list byte) (b e i : nat) :
  e ≤ b + i → subarray a b e !! i = None.
Proof.
  intros Hi. unfold subarray. apply lookup_take_ge. lia.
Qed.

Lemma agree_crlfAt (n : nat) (a a' : list byte) (j : nat) :
  agree n a a' → S j < n → crlfAt a j ↔ crlfAt a' j.
Proof.
  intros Hag Hj. unfold crlfAt.
  by rewrite (agree_lookup n a a' j), (agree_lookup n a a' (S j))
    by (done || lia).
Qed.

Lemma agree_getLineEndIdx (n : nat) (a a' : list byte) (off : nat) :
  agree n a a' → getLineEndIdx a off + 2 ≤ n →
  getLineEndIdx a' off = getLineEndIdx a off.
Proof.
  intros Hag Hr. pose proof Hag as (_ & Hl & Hl').
  destruct (getLineEndIdx_spec a off) as [Hfound Hfirst].
  destruct Hfound as [E|[Hle Hc]]; [lia|].
  apply getLineEndIdx_unique.
  - right. split; [done|]. apply (agree_crlfAt n a a'); [done|lia|done].
  - intros j Hj Hcj. apply (Hfirst j Hj).
    apply (agree_crlfAt n a a'); [done|lia|done].
Qed.

Lemma startsWith_lookup (l pat : list byte) (i : nat) :
  startsWithArrayPrefix l pat = true → i < length pat → l !! i = pat !! i.
Proof.
  intros [rest ->]%startsWith_app Hi. by rewrite lookup_app_l.
Qed.

Lemma startsWith_drop (a pat : list byte) (q : nat) :
  startsWithArrayPrefix (drop q a) pat
  = arrayEq (subarray a q (q + length pat)) pat.
Proof.
  unfold startsWithArrayPrefix. rewrite subarray_0. unfold subarray.
  by replace (q + length pat - q) with (length pat) by lia.
Qed.

(** A prefix test inside the shared part has the same answer. *)
Lemma agree_startsWith (n : nat) (a a' pat : list byte) (q : nat) :
  agree n a a' → q + length pat ≤ n →
  startsWithArrayPrefix (drop q a) pat = startsWithArrayPrefix (drop q a') pat.
Proof.
  intros Hag Hq. rewrite !startsWith_drop.
  by rewrite (agree_subarray n a a').
Qed.

(** So has a test that runs into a shared byte the pattern does not have. *)
Lemma agree_startsWith_window (n : nat) (a a' pat : list byte) (q c : nat)
    (b : byte) :
  agree n a a' → q ≤ c → c < n → a !! c = Some b → b ∉ pat →
  startsWithArrayPrefix (drop q a) pat = startsWithArrayPrefix (drop q a') pat.
Proof.
  intros Hag Hqc Hcn Hb Hpat.
  destruct (decide (q + length pat ≤ n)) as [Hin|Hout].
  { by apply (agree_startsWith n). }
  assert (∀ x, x !! c = Some b → startsWithArrayPrefix (drop q x) pat = false)
    as Hfalse.
  { intros x Hx. apply not_true_is_false. intros Hs.
    apply (startsWith_lookup _ _ (c - q)) in Hs; [|lia].
    rewrite lookup_drop in Hs. replace (q + (c - q)) with c in Hs by lia.
    apply Hpat. apply list_elem_of_lookup. exists (c - q). congruence. }
  rewrite !Hfalse; [done| |done].
  by rewrite <- (agree_lookup n a a' c).
Qed.

Lemma agree_prefix (m : nat) (x y pre rest : list byte) :
  agree m x y → x = pre ++ rest → length pre ≤ m → ∃ rest', y = pre ++ rest'.
Proof.
  intros Hag -> Hm. apply startsWith_app. apply startsWith_spec.
  destruct (agree_le _ (length pre) _ _ Hag Hm) as [E _].
  by rewrite <- E, take_app_length.
Qed.

Lemma LF_not_in_name : x0a ∉ nameUTF8 ++ [equalUTF8].
Proof. not_in_bytes. Qed.

Lemma LF_not_in_filename : x0a ∉ filenameUTF8 ++ [equalUTF8].
Proof. not_in_bytes. Qed.

Lemma CR_not_in_contentDisposition : x0d ∉ contentDispositionPrefixUTF8.
Proof. not_in_bytes. Qed.

Lemma CR_not_in_contentType : x0d ∉ contentTypePrefixUTF8.
Proof. not_in_bytes. Qed.

Section LocalParams.
Context `{Platform} `{!Runtime}.

Lemma extractParam_loop_is_Some (params : list byte) (endI n i : nat)
    (o : option extracted) :
  extractParam_loop params endI n i = Ret o → is_Some o.
Proof.
  revert i. induction n as [|n IH]; intros i; simpl; [done|].
  destruct (byte_is _ _); [|apply IH]. intros [= <-]. by eexists.
Qed.

Lemma extractParam_None (params paramKey : list byte) :
  extractParam params paramKey = Ret None
  ↔ startsWithArrayPrefix params (paramKey ++ [equalUTF8]) = false.
Proof.
  unfold extractParam.
  destruct (negb _ || negb _) eqn:Eg; split.
  - intros _. apply not_true_is_false. intros [rest E]%startsWith_app.
    apply not_false_iff_true in Eg. apply Eg. apply extractParam_guard.
    exists rest. by rewrite E, <- app_assoc.
  - done.
  - intros E. apply extractParam_loop_is_Some in E. by destruct E.
  - apply extractParam_guard in Eg as [rest ->]. intros E.
    apply not_true_iff_false in E. exfalso. apply E.
    apply startsWith_app. exists rest. by rewrite <- app_assoc.
Qed.

Lemma extractParam_local (m : nat) (x y paramKey : list byte) (c : nat)
    (b : byte) (o : option extracted) :
  agree m x y → c < m → x !! c = Some b → b ∉ paramKey ++ [equalUTF8] →
  extractParam x paramKey = Ret o →
  (∀ e, o = Some e → x_offset e ≤ m) →
  extractParam y paramKey = Ret o.
Proof.
  intros Hag Hc Hb Hkey Hx Hoff. destruct o as [e|].
  - apply extractParam_Some in Hx as (c0 & v & rest & Ex & Hv & ->).
    specialize (Hoff _ eq_refl). simpl in Hoff.
    destruct (agree_prefix m x y
                (paramKey ++ equalUTF8 :: c0 :: v ++ [quoteUTF8]) rest Hag)
      as [rest' Ey].
    + rewrite Ex. rewrite <- !app_assoc. simpl. by rewrite <- app_assoc.
    + rewrite length_app. simpl. rewrite length_app. simpl. lia.
    + apply extractParam_Some. exists c0, v, rest'.
      split; [|done]. rewrite Ey. rewrite <- !app_assoc. simpl.
      by rewrite <- app_assoc.
  - apply extractParam_None. apply extractParam_None in Hx.
    rewrite <- Hx. symmetry.
    rewrite <- (drop_0 x), <- (drop_0 y).
    apply (agree_startsWith_window m x y _ 0 c b); (done || lia).
Qed.

Lemma readContentDisposition_loop_result (n : nat) (params : list byte)
    (i : nat) (name filename : option string) (d : disposition) :
  readContentDisposition_loop n params i name filename = Ret d →
  i + 1 ≤ d_offset d ∧ params !! (d_offset d - 1) = Some x0a
  ∧ d_offset d ≤ length params.
Proof.
  revert i name filename.
  induction n as [|n IH]; intros i name filename; simpl.
  { by destruct (negb _). }
  destruct (negb (i <? length params)) eqn:Ei; [done|].
  apply negb_false_iff, Nat.ltb_lt in Ei.
  destruct (if falsy name then _ else _) as [[x|]| |]; simpl; [|  |done..].
  { intros E. apply IH in E as (? & ? & ?). split; [lia|done]. }
  destruct (if falsy filename then _ else _) as [[x|]| |]; simpl; [| |done..].
  { intros E. apply IH in E as (? & ? & ?). split; [lia|done]. }
  destruct (byte_is (params !! (i - 1)) x0d && byte_is (params !! i) x0a)
    eqn:Et.
  - intros [= <-]. simpl. apply andb_true_iff in Et as [_ Et].
    apply byte_is_true in Et.
    replace (i + 1 - 1) with i by lia. split; [lia|]. split; [done|lia].
  - intros E. apply IH in E as (? & ? & ?). split; [lia|done].
Qed.

End LocalParams.

Section LocalLoops.
Context `{Platform} `{!Runtime}.

Lemma tryExtract_local (m : nat) (p p' paramKey : list byte) (i e : nat)
    (flag : bool) (o : option extracted) :
  agree m p p' → i ≤ e → e < m → p !! e = Some x0a →
  x0a ∉ paramKey ++ [equalUTF8] →
  (if flag then extractParam (drop i p) paramKey else Ret None) = Ret o →
  (∀ x, o = Some x → i + x_offset x ≤ m) →
  (if flag then extractParam (drop i p') paramKey else Ret None) = Ret o.
Proof.
  intros Hag Hie Hem He Hkey Hx Hoff. destruct flag; [|done].
  apply (extractParam_local (m - i) (drop i p) _ _ (e - i) x0a); try done.
  - apply agree_drop; [done|lia].
  - lia.
  - rewrite lookup_drop. by replace (i + (e - i)) with e by lia.
  - intros x Hox. specialize (Hoff x Hox). lia.
Qed.

Lemma readContentDisposition_loop_local (n n' m : nat) (p p' : list byte)
    (i : nat) (name filename : option string) (d : disposition) :
  agree m p p' →
  readContentDisposition_loop n p i name filename = Ret d →
  d_offset d ≤ m → length p' - i ≤ n' →
  readContentDisposition_loop n' p' i name filename = Ret d.
Proof.
  intros Hag. revert n' i name filename.
  induction n as [|n IH]; intros n' i name filename Hrun Hoff Hn'.
  { simpl in Hrun. by destruct (negb _). }
  destruct (readContentDisposition_loop_result _ _ _ _ _ _ Hrun)
    as (Hi & Hlf & Hlen).
  pose proof Hag as (_ & _ & Hl').
  destruct n' as [|n']; [lia|].
  simpl in Hrun |- *.
  destruct (negb (i <? length p)); [done|].
  rewrite (proj2 (Nat.ltb_lt i (length p'))) by lia. simpl.
  destruct (if falsy name then extractParam (drop i p) nameUTF8 else Ret None)
    as [o| |] eqn:En; [|done..].
  rewrite (tryExtract_local m p p' nameUTF8 i (d_offset d - 1) _ o);
    [|done|lia|lia|done|apply LF_not_in_name|done|].
  2:{ intros x ->. simpl in Hrun.
      apply readContentDisposition_loop_result in Hrun. lia. }
  simpl in *. destruct o as [x|].
  { apply IH; [done|done|].
    apply readContentDisposition_loop_result in Hrun. lia. }
  destruct (if falsy filename then extractParam (drop i p) filenameUTF8
            else Ret None) as [o| |] eqn:Ef; [|done..].
  rewrite (tryExtract_local m p p' filenameUTF8 i (d_offset d - 1) _ o);
    [|done|lia|lia|done|apply LF_not_in_filename|done|].
  2:{ intros x ->. simpl in Hrun.
      apply readContentDisposition_loop_result in Hrun. lia. }
  simpl in *. destruct o as [x|].
  { apply IH; [done|done|].
    apply readContentDisposition_loop_result in Hrun. lia. }
  rewrite <- (agree_lookup m p p' (i - 1)), <- (agree_lookup m p p' i)
    by (done || lia).
  destruct (byte_is (p !! (i - 1)) x0d && byte_is (p !! i) x0a); [done|].
  apply IH; [done|done|lia].
Qed.

(** With its own trip bound the Content-Disposition loop does not run out:
    it returns or throws. *)
Lemma readContentDisposition_loop_no_timeout (n : nat) (params : list byte)
    (i : nat) (name filename : option string) :
  length params - i ≤ n →
  readContentDisposition_loop n params i name filename ≠ Timeout.
Proof.
  revert i name filename.
  induction n as [|n IH]; intros i name filename Hn; simpl.
  - rewrite (proj2 (Nat.ltb_ge i (length params))) by lia. done.
  - destruct (negb (i <? length params)); [done|].
    assert (∀ x key, extractParam x key ≠ Timeout) as Hx.
    { intros x key. unfold extractParam. destruct (negb _ || negb _); [done|].
      generalize (length key + 2) at 2.
      generalize (length x - (length key + 2)).
      intros k. induction k as [|k IHk]; intros j; simpl; [done|].
      destruct (byte_is _ _); [done|apply IHk]. }
    destruct (falsy name).
    + destruct (extractParam (drop i params) nameUTF8) as [[x|]| |] eqn:En;
        simpl; [apply IH; lia| |done|by apply Hx in En].
      destruct (falsy filename).
      * destruct (extractParam (drop i params) filenameUTF8)
          as [[x|]| |] eqn:Ef;
          simpl; [apply IH; lia| |done|by apply Hx in Ef].
        destruct (_ && _); [done|apply IH; lia].
      * simpl. destruct (_ && _); [done|apply IH; lia].
    + simpl. destruct (falsy filename).
      * destruct (extractParam (drop i params) filenameUTF8)
          as [[x|]| |] eqn:Ef;
          simpl; [apply IH; lia| |done|by apply Hx in Ef].
        destruct (_ && _); [done|apply IH; lia].
      * simpl. destruct (_ && _); [done|apply IH; lia].
Qed.

Lemma readContentDisposition_no_timeout (params : list byte) :
  readContentDisposition params ≠ Timeout.
Proof. apply readContentDisposition_loop_no_timeout. lia. Qed.

End LocalLoops.

Lemma startsWith_length (a pat : list byte) (q : nat) :
  startsWithArrayPrefix (drop q a) pat = true → pat ≠ [] →
  q + length pat ≤ length a.
Proof.
  intros [rest E]%startsWith_app Hne.
  assert (length (drop q a) = length pat + length rest) as El
    by (by rewrite E, length_app).
  rewrite length_drop in El. destruct pat; [done|]. simpl in *. lia.
Qed.

Section LocalHeaders.
Context `{Platform} `{!Runtime}.

Lemma headerStep_progress (a : list byte) (h h1 : headers) :
  headerStep a h = Ret h1 → h_startIdx h < h_startIdx h1.
Proof.
  unfold headerStep.
  destruct (falsy (h_name h) && _).
  { destruct (readContentDisposition _) as [d| |] eqn:Ed; [|done..].
    intros [= <-]. simpl.
    apply readContentDisposition_loop_result in Ed. lia. }
  destruct (falsy (h_contentType h) && _) eqn:Et.
  { intros [= <-]. simpl. apply andb_true_iff in Et as [_ Et].
    apply startsWith_length in Et; [|done].
    pose proof (getLineEndIdx_ge a
      (h_startIdx h + length contentTypePrefixUTF8) Et).
    simpl in *. lia. }
  intros [= <-]. simpl. lia.
Qed.

Lemma readHeaders_progress (fuel : nat) (a : list byte) (h hf : headers) :
  readHeaders fuel a h = Ret hf → h_startIdx h < h_startIdx hf.
Proof.
  revert h. induction fuel as [|fuel IH]; intros h; [done|]. simpl.
  destruct (headerStep a h) as [h1| |] eqn:E1; [|done..]. simpl.
  apply headerStep_progress in E1.
  destruct (headerMore a (h_startIdx h1)).
  - intros E. apply IH in E. lia.
  - by intros [= <-].
Qed.

Lemma readHeaders_exit (fuel : nat) (a : list byte) (h hf : headers) :
  readHeaders fuel a h = Ret hf → headerMore a (h_startIdx hf) = false.
Proof.
  revert h. induction fuel as [|fuel IH]; intros h; [done|]. simpl.
  destruct (headerStep a h) as [h1| |] eqn:E1; [|done..]. simpl.
  destruct (headerMore a (h_startIdx h1)) eqn:Em; [apply IH|].
  by intros [= <-].
Qed.

Lemma headerMore_false (a : list byte) (s : nat) :
  headerMore a s = false → s < length a → crlfAt a s.
Proof.
  unfold headerMore. intros E Hs.
  apply andb_false_iff in E as [E|E].
  - apply orb_false_iff in E as [E1 E2].
    apply negb_false_iff, byte_is_true in E1, E2.
    split; [done|]. by rewrite <- Nat.add_1_r.
  - apply Nat.ltb_ge in E. lia.
Qed.

Lemma headerMore_local (n : nat) (a a' : list byte) (s : nat) :
  agree n a a' → s + 1 < n → headerMore a' s = headerMore a s.
Proof.
  intros Hag Hs. pose proof Hag as (_ & Hl & Hl'). unfold headerMore.
  rewrite <- (agree_lookup n a a' s), <- (agree_lookup n a a' (s + 1))
    by (done || lia).
  by rewrite !(proj2 (Nat.ltb_lt s _)) by lia.
Qed.

Lemma headerStep_local (n : nat) (a a' : list byte) (h h1 : headers)
    (c : nat) :
  agree n a a' → headerStep a h = Ret h1 →
  h_startIdx h1 ≤ c → c < n → a !! c = Some x0d →
  headerStep a' h = Ret h1.
Proof.
  intros Hag Hstep Hc Hcn Hcr.
  pose proof (headerStep_progress _ _ _ Hstep) as Hprog.
  unfold headerStep in *.
  rewrite <- (agree_startsWith_window n a a' contentDispositionPrefixUTF8
                (h_startIdx h) c x0d)
    by (done || lia || apply CR_not_in_contentDisposition).
  rewrite <- (agree_startsWith_window n a a' contentTypePrefixUTF8
                (h_startIdx h) c x0d)
    by (done || lia || apply CR_not_in_contentType).
  destruct (falsy (h_name h) && _).
  { destruct (readContentDisposition (drop (h_startIdx h) a))
      as [d| |] eqn:Ed; [|done..].
    injection Hstep as <-. simpl in *.
    unfold readContentDisposition in *.
    assert (agree (n - h_startIdx h) (drop (h_startIdx h) a)
              (drop (h_startIdx h) a')) as Hag'
      by (apply agree_drop; [done|lia]).
    rewrite (readContentDisposition_loop_local _ _ _ _ _ _ _ _ _ Hag' Ed);
      [done|lia|lia]. }
  destruct (falsy (h_contentType h) && _).
  { injection Hstep as <-. simpl in *.
    rewrite (agree_getLineEndIdx n a a') by (done || lia).
    by rewrite (agree_subarray n a a') by (done || lia). }
  done.
Qed.

Lemma readHeaders_local (fuel n : nat) (a a' : list byte) (h hf : headers) :
  agree n a a' → readHeaders fuel a h = Ret hf →
  h_startIdx hf + 1 < n →
  readHeaders fuel a' h = Ret hf.
Proof.
  intros Hag. revert h. induction fuel as [|fuel IH]; intros h Hrun Hn;
    [done|].
  pose proof Hag as (_ & Hl & Hl').
  pose proof (readHeaders_exit _ _ _ _ Hrun) as Hexit.
  apply headerMore_false in Hexit as [Hcr _]; [|lia].
  simpl in *.
  destruct (headerStep a h) as [h1| |] eqn:E1; [|done..]. simpl in *.
  assert (h_startIdx h1 ≤ h_startIdx hf) as Hle.
  { destruct (headerMore a (h_startIdx h1)).
    - apply readHeaders_progress in Hrun. lia.
    - by injection Hrun as <-. }
  rewrite (headerStep_local n a a' h h1 (h_startIdx hf)) by (done || lia).
  simpl. rewrite (headerMore_local n a a') by (done || lia).
  destruct (headerMore a (h_startIdx h1)); [|done]. by apply IH.
Qed.

End LocalHeaders.

Section LocalParts.
Context `{Platform} `{!Runtime}.

Lemma bodyScan_result (fuel : nat) (a sep : list byte) (i l : nat) :
  sep ≠ [] → bodyScan fuel a sep i = Ret l →
  getLineEndIdx a i + 2 ≤ l ∧ l + length sep ≤ length a
  ∧ startsWithArrayPrefix (drop l a) sep = true.
Proof.
  intros Hsep. revert i. induction fuel as [|fuel IH]; intros i; [done|].
  simpl.
  destruct (startsWithArrayPrefix (drop (getLineEndIdx a i + 2) a) sep)
    eqn:Es; simpl.
  - intros [= <-]. split; [lia|]. split; [|done].
    by apply startsWith_length.
  - intros E. destruct (IH _ E) as (Hge & Hlen & Hs).
    split; [|done].
    assert (0 < length sep) by (destruct sep; [done|simpl; lia]).
    destruct (decide (getLineEndIdx a i + 2 ≤ length a)) as [Hin|Hout].
    + pose proof (getLineEndIdx_ge a _ Hin). lia.
    + rewrite getLineEndIdx_past in Hge by lia. lia.
Qed.

Lemma bodyScan_local (fuel n : nat) (a a' sep : list byte) (i l : nat) :
  sep ≠ [] → agree n a a' → bodyScan fuel a sep i = Ret l →
  l + length sep ≤ n →
  bodyScan fuel a' sep i = Ret l.
Proof.
  intros Hsep Hag. revert i. induction fuel as [|fuel IH]; intros i Hrun Hn;
    [done|].
  pose proof (bodyScan_result _ _ _ _ _ Hsep Hrun) as (Hge & _ & _).
  simpl in *.
  rewrite (agree_getLineEndIdx n a a') by (done || lia).
  rewrite <- (agree_startsWith n a a').
  - destruct (negb _); [by apply IH|done].
  - done.
  - destruct (negb _) eqn:Es.
    + apply (bodyScan_result _ _ _ _ _ Hsep) in Hrun as (Hge' & Hlen & _).
      assert (0 < length sep) by (destruct sep; [done|simpl; lia]).
      destruct (decide (getLineEndIdx a i + 2 ≤ length a)) as [Hin|Hout].
      * pose proof (getLineEndIdx_ge a _ Hin). lia.
      * rewrite getLineEndIdx_past in Hge' by lia. lia.
    + injection Hrun as <-. lia.
Qed.

(** The test for the final boundary, on the bytes themselves. *)
Lemma final_test (a : list byte) (p r : nat) :
  byte_is (subarray a p r !! 0) finalByte
  && byte_is (subarray a p r !! 1) finalByte = true
  ↔ a !! p = Some finalByte ∧ a !! (p + 1) = Some finalByte ∧ p + 2 ≤ r.
Proof.
  rewrite andb_true_iff, !byte_is_true. split.
  - intros [E0 E1].
    destruct (decide (p + 1 < r)) as [Hlt|Hge].
    + rewrite lookup_subarray in E0, E1 by lia.
      rewrite Nat.add_0_r in E0. split; [done|]. split; [done|lia].
    + by rewrite lookup_subarray_None in E1 by lia.
  - intros (E0 & E1 & Hr). rewrite !lookup_subarray by lia.
    by rewrite Nat.add_0_r.
Qed.

Lemma getLineEndIdx_local_ge (n : nat) (a a' : list byte) (l k : nat) :
  agree n a a' → k ≤ n → k ≤ getLineEndIdx a l → 0 < k →
  a !! (k - 1) ≠ Some x0d →
  k ≤ getLineEndIdx a' l.
Proof.
  intros Hag Hkn Hk Hpos Hlast. pose proof Hag as (_ & Hl & Hl').
  destruct (decide (k ≤ getLineEndIdx a' l)) as [|Hlt]; [done|exfalso].
  destruct (getLineEndIdx_found a' l) as [Hle Hc]; [lia|].
  destruct (decide (S (getLineEndIdx a' l) < k)) as [Hin|Hedge].
  - apply (agree_crlfAt n a a') in Hc; [|done|lia].
    destruct (getLineEndIdx_spec a l) as [_ Hfirst].
    apply (Hfirst (getLineEndIdx a' l)); [lia|done].
  - destruct Hc as [Hc _]. apply Hlast.
    replace (k - 1) with (getLineEndIdx a' l) by lia.
    by rewrite (agree_lookup n a a') by (done || lia).
Qed.

Lemma partStep_inv (fuel : nat) (a sep : list byte)
    (procs : gmap string processor) (st : scan) (c : control) :
  partStep fuel a sep procs st = Ret c →
  ∃ h name l content,
    readHeaders fuel a (newPart (lineEndIdx st)) = Ret h
    ∧ h_name h = Some name ∧ name ≠ ""
    ∧ bodyScan fuel a sep (h_startIdx h + 1) = Ret l
    ∧ processContent procs (default "text/plain" (h_contentType h))
        (subarray a (h_startIdx h + 1 + 1) (l - 2)) (h_filename h)
      = Ret content
    ∧ c = (if byte_is (subarray a (l + length sep) (getLineEndIdx a l) !! 0)
                finalByte
              && byte_is (subarray a (l + length sep) (getLineEndIdx a l) !! 1)
                   finalByte
           then Break {| startIdx := l; lineEndIdx := getLineEndIdx a l;
                         result := addContentToResult (result st) name
                                     content |}
           else Next {| startIdx := l; lineEndIdx := getLineEndIdx a l + 2;
                        result := addContentToResult (result st) name
                                    content |}).
Proof.
  unfold partStep.
  destruct (readHeaders fuel a _) as [h| |]; [|done..]. simpl.
  destruct (h_name h) as [name|] eqn:En; [|done].
  case_bool_decide as Hname; [done|].
  destruct (bodyScan fuel a sep _) as [l| |] eqn:El; [|done..]. simpl.
  destruct (processContent _ _ _ _) as [content| |] eqn:Ec; [|done..]. simpl.
  intros E. exists h, name, l, content.
  repeat (split; [done|]). destruct (_ && _); congruence.
Qed.

Lemma partStep_progress (fuel : nat) (a sep : list byte)
    (procs : gmap string processor) (st : scan) (c : control) :
  sep ≠ [] → partStep fuel a sep procs st = Ret c →
  lineEndIdx st + 4 ≤ startIdx (scanOf c)
  ∧ startIdx (scanOf c) + length sep ≤ length a
  ∧ (∀ st', c = Next st' → startIdx st' + 2 ≤ lineEndIdx st').
Proof.
  intros Hsep (h & name & l & content & Hh & _ & _ & Hl & _ & ->)%partStep_inv.
  apply readHeaders_progress in Hh. simpl in Hh.
  apply (bodyScan_result _ _ _ _ _ Hsep) in Hl as (Hge & Hlen & _).
  assert (0 < length sep) by (destruct sep; [done|simpl; lia]).
  assert (lineEndIdx st + 4 ≤ l) as Hl4.
  { destruct (decide (h_startIdx h + 1 ≤ length a)) as [Hin|Hout].
    - pose proof (getLineEndIdx_ge a _ Hin). lia.
    - rewrite getLineEndIdx_past in Hge by lia. lia. }
  assert (l ≤ length a) as Hll by lia.
  pose proof (getLineEndIdx_ge a l Hll).
  destruct (_ && _); simpl; (split; [done|]); (split; [done|]);
    intros st' [= <-]; simpl; lia.
Qed.

End LocalParts.

Section LocalDriver.
Context `{Platform} `{!Runtime}.

Lemma partStep_local_Next (fuel n : nat) (a a' sep : list byte)
    (procs : gmap string processor) (st st' : scan) :
  sep ≠ [] → agree n a a' →
  partStep fuel a sep procs st = Ret (Next st') →
  lineEndIdx st' ≤ n → startIdx st' + length sep ≤ n →
  partStep fuel a' sep procs st = Ret (Next st').
Proof.
  intros Hsep Hag Hstep Hn1 Hn2.
  destruct (partStep_progress _ _ _ _ _ _ Hsep Hstep) as (Hp1 & Hp2 & Hp3).
  specialize (Hp3 _ eq_refl). simpl in *.
  apply partStep_inv in Hstep
    as (h & name & l & content & Hh & Hname & Hne & Hl & Hc & Hst).
  destruct (byte_is _ _ && byte_is _ _) eqn:Et; [done|].
  injection Hst as ->. simpl in *.
  pose proof (readHeaders_progress _ _ _ _ Hh) as Hhp. simpl in Hhp.
  destruct (bodyScan_result _ _ _ _ _ Hsep Hl) as (Hge & Hlen & _).
  assert (h_startIdx h + 3 ≤ l) as Hl3.
  { destruct (decide (h_startIdx h + 1 ≤ length a)) as [Hin|Hout].
    - pose proof (getLineEndIdx_ge a _ Hin). lia.
    - rewrite getLineEndIdx_past in Hge by lia. lia. }
  unfold partStep.
  rewrite (readHeaders_local fuel n a a' _ h) by (done || lia). simpl.
  rewrite Hname, bool_decide_eq_false_2 by done.
  rewrite (bodyScan_local fuel n a a' sep _ l) by (done || lia). simpl.
  rewrite <- (agree_subarray n a a' _ (l - 2)) by (done || lia).
  rewrite Hc. simpl.
  rewrite (agree_getLineEndIdx n a a') by (done || lia).
  rewrite <- (agree_subarray n a a') by (done || lia).
  by rewrite Et.
Qed.

Lemma partStep_local_Break (fuel n : nat) (a a' sep : list byte)
    (procs : gmap string processor) (st st' : scan) :
  sep ≠ [] → agree n a a' →
  partStep fuel a sep procs st = Ret (Break st') →
  startIdx st' + length sep + 2 ≤ n →
  ∃ st'', partStep fuel a' sep procs st = Ret (Break st'')
          ∧ startIdx st'' = startIdx st' ∧ result st'' = result st'.
Proof.
  intros Hsep Hag Hstep Hn.
  apply partStep_inv in Hstep
    as (h & name & l & content & Hh & Hname & Hne & Hl & Hc & Hst).
  destruct (byte_is _ _ && byte_is _ _) eqn:Et; [|done].
  injection Hst as ->. simpl in *.
  apply final_test in Et as (E0 & E1 & Hr).
  pose proof (readHeaders_progress _ _ _ _ Hh) as Hhp. simpl in Hhp.
  destruct (bodyScan_result _ _ _ _ _ Hsep Hl) as (Hge & Hlen & _).
  assert (h_startIdx h + 3 ≤ l) as Hl3.
  { destruct (decide (h_startIdx h + 1 ≤ length a)) as [Hin|Hout].
    - pose proof (getLineEndIdx_ge a _ Hin). lia.
    - rewrite getLineEndIdx_past in Hge by lia. lia. }
  unfold partStep.
  rewrite (readHeaders_local fuel n a a' _ h) by (done || lia). simpl.
  rewrite Hname, bool_decide_eq_false_2 by done.
  rewrite (bodyScan_local fuel n a a' sep _ l) by (done || lia). simpl.
  rewrite <- (agree_subarray n a a' _ (l - 2)) by (done || lia).
  rewrite Hc. simpl.
  assert (byte_is (subarray a' (l + length sep) (getLineEndIdx a' l) !! 0)
            finalByte
          && byte_is (subarray a' (l + length sep) (getLineEndIdx a' l) !! 1)
               finalByte = true) as Et'.
  { apply final_test.
    rewrite <- !(agree_lookup n a a') by (done || lia).
    split; [done|]. split; [done|].
    apply (getLineEndIdx_local_ge n a a'); [done|lia|lia|lia|].
    replace (l + length sep + 2 - 1) with (l + length sep + 1) by lia.
    by rewrite E1. }
  rewrite Et'. eexists. split; [done|]. done.
Qed.

Lemma skipPreamble_result (fuel : nat) (a sep : list byte) (s0 s : nat) :
  skipPreamble fuel a sep s0 = Ret s → getLineEndIdx a s0 + 2 ≤ s.
Proof.
  revert s0. induction fuel as [|fuel IH]; intros s0; [done|]. simpl.
  destruct (negb _ && _) eqn:Ec.
  - apply andb_true_iff in Ec as [_ Hlt%Nat.ltb_lt].
    intros E%IH.
    assert (getLineEndIdx a s0 + 2 ≤ length a) as Hle by lia.
    pose proof (getLineEndIdx_ge a _ Hle). lia.
  - intros [= <-]. lia.
Qed.

Lemma skipPreamble_local (fuel n : nat) (a a' sep : list byte) (s0 s : nat) :
  agree n a a' → skipPreamble fuel a sep s0 = Ret s →
  s < length a → s ≤ n →
  skipPreamble fuel a' sep s0 = Ret s.
Proof.
  intros Hag. pose proof Hag as (_ & Hl & Hl').
  revert s0. induction fuel as [|fuel IH]; intros s0 Hrun Hs Hn; [done|].
  pose proof (skipPreamble_result _ _ _ _ _ Hrun) as Hres.
  simpl in *.
  rewrite (agree_getLineEndIdx n a a') by (done || lia).
  rewrite <- (agree_subarray n a a') by (done || lia).
  destruct (negb (startsWithArrayPrefix _ sep)); simpl in *.
  - destruct (getLineEndIdx a s0 + 2 <? length a) eqn:Elt.
    + pose proof (skipPreamble_result _ _ _ _ _ Hrun) as Hres'.
      apply Nat.ltb_lt in Elt.
      assert (getLineEndIdx a s0 + 2 ≤ length a) as Hle by lia.
      pose proof (getLineEndIdx_ge a _ Hle).
      rewrite (proj2 (Nat.ltb_lt _ (length a'))) by lia. by apply IH.
    + apply Nat.ltb_ge in Elt. injection Hrun as <-. lia.
  - done.
Qed.

Lemma Reaches_local (fuel n : nat) (a a' sep : list byte)
    (procs : gmap string processor) (st : scan) :
  sep ≠ [] → agree n a a' →
  Reaches fuel a sep procs st →
  startIdx st < length a → lineEndIdx st + length sep ≤ n →
  Reaches fuel a' sep procs st ∧ startIdx st ≤ lineEndIdx st.
Proof.
  intros Hsep Hag Hreach.
  induction Hreach as [s Hs|st st' Hreach IH Hlt Hstep]; intros Hlen Hn.
  - simpl in *. split; [|done]. constructor.
    apply (skipPreamble_local fuel n a a'); (done || lia).
  - destruct (partStep_progress _ _ _ _ _ _ Hsep Hstep) as (Hp1 & Hp2 & Hp3).
    specialize (Hp3 _ eq_refl). simpl in *.
    destruct IH as [IH Hinv]; [done|lia|].
    pose proof Hag as (_ & Hl & Hl').
    split; [|lia]. apply (Reaches_next _ _ _ _ st); [done|lia|].
    apply (partStep_local_Next fuel n a a'); (done || lia).
Qed.

End LocalDriver.

(** ** Keys of the result *)

Section KeyFacts.
Context `{Platform} `{!Runtime}.

Lemma partStep_keys (fuel : nat) (a sep : list byte)
    (procs : gmap string processor) (st : scan) (c : control) :
  partStep fuel a sep procs st = Ret c →
  "" ∉ (result st).*1 → "" ∉ (result (scanOf c)).*1.
Proof.
  intros (h & name & l & content & _ & _ & Hne & _ & _ & ->)%partStep_inv Hk.
  assert ("" ∉ (addContentToResult (result st) name content).*1) as Hk'.
  { rewrite keys_add. case_bool_decide; [done|].
    rewrite not_elem_of_app, not_elem_of_cons.
    split; [done|]. split; [done|apply not_elem_of_nil]. }
  by destruct (_ && _).
Qed.

Lemma partsLoop_keys (fuel : nat) (a sep : list byte)
    (procs : gmap string processor) (st st' : scan) :
  partsLoop fuel a sep procs st = Ret st' →
  "" ∉ (result st).*1 → "" ∉ (result st').*1.
Proof.
  revert st. induction fuel as [|fuel IH]; intros st; simpl.
  - destruct (negb _); [|done]. by intros [= <-].
  - destruct (negb _); [by intros [= <-]|].
    destruct (partStep fuel a sep procs st) as [c| |] eqn:Ec; [|done..].
    simpl. intros Hrun Hk. apply partStep_keys in Ec; [|done].
    destruct c as [st1|st1]; simpl in *.
    + by apply (IH st1).
    + by injection Hrun as <-.
Qed.

End KeyFacts.

(** ** A body scan that never ends *)

Section Divergence.
Context `{Platform} `{!Runtime}.

(** The body scan of a part whose body holds no CR LF at all never ends,
    whatever the fuel. *)
Lemma parse_never_returns (fuel0 : nat) (array : list byte) (boundary : string)
    (procs : gmap string processor) (s : nat) (h : headers) (name : string) :
  skipPreamble fuel0 array (separatorOf boundary) 0 = Ret s →
  s < length array →
  readHeaders fuel0 array (newPart s) = Ret h →
  h_name h = Some name → name ≠ "" →
  getLineEndIdx array (h_startIdx h + 1) = length array →
  ∀ fuel, parseMultipartFormData fuel array boundary procs = Timeout.
Proof.
  intros Hs Hlt Hh Hname Hne Hend fuel. unfold parseMultipartFormData.
  destruct (skipPreamble fuel array _ 0) as [s'| |] eqn:Es'; [| |done].
  2:{ destruct (le_ge_dec fuel fuel0) as [Hle|Hge].
      - rewrite <- (skipPreamble_mono fuel fuel0), Hs in Es'
          by (done || by rewrite Es'). done.
      - rewrite (skipPreamble_mono fuel0 fuel), Hs in Es'
          by (done || by rewrite Hs). done. }
  assert (s' = s) as ->.
  { destruct (le_ge_dec fuel fuel0) as [Hle|Hge].
    - rewrite <- (skipPreamble_mono fuel fuel0), Hs in Es'
        by (done || by rewrite Es'). by injection Es'.
    - rewrite (skipPreamble_mono fuel0 fuel), Hs in Es'
        by (done || by rewrite Hs). by injection Es'. }
  rewrite bind_Ret. destruct fuel as [|fuel]; simpl.
  { by rewrite (proj2 (Nat.ltb_lt _ _) Hlt). }
  rewrite (proj2 (Nat.ltb_lt _ _) Hlt). simpl. unfold partStep. simpl.
  destruct (readHeaders fuel array (newPart s)) as [h'| |] eqn:Eh; [| |done].
  2:{ destruct (le_ge_dec fuel fuel0) as [Hle|Hge].
      - rewrite <- (readHeaders_mono fuel fuel0), Hh in Eh
          by (done || by rewrite Eh). done.
      - rewrite (readHeaders_mono fuel0 fuel), Hh in Eh
          by (done || by rewrite Hh). done. }
  assert (h' = h) as ->.
  { destruct (le_ge_dec fuel fuel0) as [Hle|Hge].
    - rewrite <- (readHeaders_mono fuel fuel0), Hh in Eh
        by (done || by rewrite Eh). by injection Eh.
    - rewrite (readHeaders_mono fuel0 fuel), Hh in Eh
        by (done || by rewrite Hh). by injection Eh. }
  simpl. rewrite Hname, bool_decide_eq_false_2 by done.
  destruct fuel as [|fuel]; [done|]. simpl.
  rewrite Hend, drop_ge by lia.
  rewrite startsWith_nil by apply separatorOf_nonempty. simpl.
  by rewrite bodyScan_stuck by (apply separatorOf_nonempty || lia).
Qed.

End Divergence.

(** ** The empty string as a captured name *)

Section NormalFacts.
Context `{Platform} `{!Runtime}.

Lemma falsy_normName (o : option string) : falsy (normName o) = falsy o.
Proof. unfold normName. by destruct (falsy o) eqn:E. Qed.

Lemma normName_eq_falsy (o o' : option string) :
  normName o = normName o' → falsy o = falsy o'.
Proof. intros E. by rewrite <- (falsy_normName o), E, falsy_normName. Qed.

Lemma readContentDisposition_loop_norm (n : nat) (params : list byte)
    (i : nat) (name name' filename : option string) :
  normName name = normName name' →
  normDisposition <$> readContentDisposition_loop n params i name filename
  = normDisposition <$> readContentDisposition_loop n params i name' filename.
Proof.
  intros Hn. pose proof (normName_eq_falsy _ _ Hn) as Hf.
  revert i filename. induction n as [|n IH]; intros i filename; simpl.
  { by destruct (negb _). }
  destruct (negb (i <? length params)); [done|]. rewrite <- Hf.
  destruct (if falsy name then _ else _) as [[x|]| |]; simpl; [done| |done..].
  destruct (if falsy filename then _ else _) as [[x|]| |]; simpl;
    [apply IH| |done..].
  destruct (_ && _); [|apply IH].
  rewrite !fmap_Ret. unfold normDisposition. simpl. by rewrite Hn.
Qed.

Lemma headerStep_norm (array : list byte) (h h' : headers) :
  normHeaders h = normHeaders h' →
  normHeaders <$> headerStep array h = normHeaders <$> headerStep array h'.
Proof.
  intros Hh. injection Hh as Hs Hn Hc Hf.
  pose proof (normName_eq_falsy _ _ Hn) as Hfalsy.
  unfold headerStep. rewrite <- Hs, <- Hfalsy, <- Hc, <- Hf.
  destruct (falsy (h_name h) && _); [done|].
  destruct (falsy (h_contentType h) && _);
    rewrite !fmap_Ret; unfold normHeaders; simpl; by rewrite Hn.
Qed.

Lemma readHeaders_norm (fuel : nat) (array : list byte) (h h' : headers) :
  normHeaders h = normHeaders h' →
  normHeaders <$> readHeaders fuel array h
  = normHeaders <$> readHeaders fuel array h'.
Proof.
  revert h h'. induction fuel as [|fuel IH]; intros h h' Hh; [done|]. simpl.
  pose proof (headerStep_norm array h h' Hh) as E.
  destruct (headerStep array h) as [h1| |] eqn:E1,
           (headerStep array h') as [h1'| |] eqn:E1'; try done.
  rewrite !fmap_Ret in E.
  assert (normHeaders h1 = normHeaders h1') as E' by congruence.
  assert (h_startIdx h1 = h_startIdx h1') as Hs
    by exact (f_equal h_startIdx E').
  simpl. rewrite <- Hs. destruct (headerMore array (h_startIdx h1)).
  - by apply IH.
  - by rewrite !fmap_Ret, E'.
Qed.

End NormalFacts.

(** ** The header scan at the end of the buffer *)

Section EndOfScan.
Context `{Platform} `{!Runtime}.

Lemma extractParam_loop_Throw (params : list byte) (endI n i : nat)
    (msg : string) :
  extractParam_loop params endI n i = Throw msg →
  msg = "Something went wrong during the params extraction".
Proof.
  revert i. induction n as [|n IH]; intros i; simpl.
  - by intros [= <-].
  - destruct (byte_is _ _); [done|apply IH].
Qed.

Lemma readContentDisposition_loop_ends (n : nat) (params : list byte)
    (i : nat) (name filename : option string) (d : disposition) :
  readContentDisposition_loop n params i name filename = Ret d →
  i + 1 ≤ d_offset d ∧ d_offset d ≤ length params
  ∧ params !! (d_offset d - 2) = Some x0d
  ∧ params !! (d_offset d - 1) = Some x0a.
Proof.
  revert i name filename.
  induction n as [|n IH]; intros i name filename; simpl.
  { by destruct (negb _). }
  destruct (negb (i <? length params)) eqn:Ei; [done|].
  apply negb_false_iff, Nat.ltb_lt in Ei.
  destruct (if falsy name then _ else _) as [[x|]| |]; simpl; [| |done..].
  { intros E. apply IH in E as (? & ? & ? & ?). split; [lia|done]. }
  destruct (if falsy filename then _ else _) as [[x|]| |]; simpl; [| |done..].
  { intros E. apply IH in E as (? & ? & ? & ?). split; [lia|done]. }
  destruct (byte_is (params !! (i - 1)) x0d && byte_is (params !! i) x0a)
    eqn:Et.
  - intros [= <-]. simpl. apply andb_true_iff in Et as [Et1 Et2].
    apply byte_is_true in Et1, Et2.
    replace (i + 1 - 1) with i by lia. replace (i + 1 - 2) with (i - 1) by lia.
    split; [lia|]. split; [lia|done].
  - intros E. apply IH in E as (? & ? & ? & ?). split; [lia|done].
Qed.

Lemma readContentDisposition_loop_Throw (n : nat) (params : list byte)
    (i : nat) (name filename : option string) (msg : string) :
  readContentDisposition_loop n params i name filename = Throw msg →
  msg ∈ structuralErrors.
Proof.
  assert (∀ x key, extractParam x key = Throw msg → msg ∈ structuralErrors)
    as Hx.
  { intros x key. unfold extractParam. destruct (negb _ || negb _); [done|].
    intros ->%extractParam_loop_Throw. by left. }
  revert i name filename.
  induction n as [|n IH]; intros i name filename; simpl.
  { destruct (negb _); [|done]. intros [= <-]. right. by left. }
  destruct (negb (i <? length params)).
  { intros [= <-]. right. by left. }
  destruct (falsy name).
  - destruct (extractParam (drop i params) nameUTF8) as [[x|]| |] eqn:En;
      simpl; [apply IH| |intros [= <-]; by eapply Hx|done].
    destruct (falsy filename).
    + destruct (extractParam (drop i params) filenameUTF8)
        as [[x|]| |] eqn:Ef;
        simpl; [apply IH| |intros [= <-]; by eapply Hx|done].
      destruct (_ && _); [done|apply IH].
    + simpl. destruct (_ && _); [done|apply IH].
  - simpl. destruct (falsy filename).
    + destruct (extractParam (drop i params) filenameUTF8)
        as [[x|]| |] eqn:Ef;
        simpl; [apply IH| |intros [= <-]; by eapply Hx|done].
      destruct (_ && _); [done|apply IH].
    + simpl. destruct (_ && _); [done|apply IH].
Qed.

Lemma readHeaders_ends (fuel : nat) (array : list byte) (h : headers) :
  length array - h_startIdx h < fuel → readHeaders fuel array h ≠ Timeout.
Proof.
  revert h. induction fuel as [|fuel IH]; intros h Hfuel; [lia|]. simpl.
  destruct (headerStep array h) as [h'|msg|] eqn:Eh; simpl; [|done|].
  - apply headerStep_progress in Eh.
    destruct (headerMore array (h_startIdx h')) eqn:Em; [|done].
    apply IH. unfold headerMore in Em.
    apply andb_true_iff in Em as [_ Hlt%Nat.ltb_lt]. lia.
  - exfalso. revert Eh. unfold headerStep.
    destruct (falsy (h_name h) && _).
    { pose proof (readContentDisposition_no_timeout
                    (drop (h_startIdx h) array)) as Hnt.
      by destruct (readContentDisposition _). }
    by destruct (falsy (h_contentType h) && _).
Qed.

Lemma headerStep_Throw (array : list byte) (h : headers) (msg : string) :
  headerStep array h = Throw msg → msg ∈ structuralErrors.
Proof.
  unfold headerStep. destruct (falsy (h_name h) && _).
  - destruct (readContentDisposition _) as [d|msg'|] eqn:Ed; [done| |done].
    intros [= <-]. by apply readContentDisposition_loop_Throw in Ed.
  - by destruct (falsy (h_contentType h) && _).
Qed.

Lemma readHeaders_Throw (fuel : nat) (array : list byte) (h : headers)
    (msg : string) :
  readHeaders fuel array h = Throw msg → msg ∈ structuralErrors.
Proof.
  revert h. induction fuel as [|fuel IH]; intros h; [done|]. simpl.
  destruct (headerStep array h) as [h'|msg'|] eqn:Eh; simpl; [| |done].
  - destruct (headerMore array (h_startIdx h')); [apply IH|done].
  - intros [= <-]. by apply headerStep_Throw in Eh.
Qed.

Lemma Reaches_mono (fuel fuel' : nat) (array sep : list byte)
    (procs : gmap string processor) (st : scan) :
  fuel ≤ fuel' → Reaches fuel array sep procs st →
  Reaches fuel' array sep procs st.
Proof.
  intros Hle. induction 1 as [s Hs|st st' Hreach IH Hlt Hstep].
  - apply Reaches_first.
    by rewrite (skipPreamble_mono fuel fuel') by (done || by rewrite Hs).
  - apply (Reaches_next _ _ _ _ st); [done..|].
    by rewrite (partStep_mono fuel fuel') by (done || by rewrite Hstep).
Qed.

(** Without a CR LF pair ahead no Content-Disposition line is read to its
    end, so the header loop captures no name. *)
Lemma headerStep_no_crlf (array : list byte) (h h' : headers) :
  (∀ j, h_startIdx h ≤ j → ¬ crlfAt array j) →
  headerStep array h = Ret h' → h_name h' = h_name h.
Proof.
  intros Hno. unfold headerStep.
  destruct (falsy (h_name h) && _).
  { destruct (readContentDisposition _) as [d| |] eqn:Ed; [|done..].
    exfalso.
    apply readContentDisposition_loop_ends in Ed as (Hi & Hlen & Hcr & Hlf).
    change (length contentDispositionPrefixUTF8) with 31 in Hi.
    apply (Hno (h_startIdx h + (d_offset d - 2))); [lia|].
    apply crlfAt_drop. split; [done|].
    by replace (S (d_offset d - 2)) with (d_offset d - 1) by lia. }
  destruct (falsy (h_contentType h) && _); by intros [= <-].
Qed.

Lemma readHeaders_no_crlf (fuel : nat) (array : list byte) (h h' : headers) :
  (∀ j, h_startIdx h ≤ j → ¬ crlfAt array j) →
  readHeaders fuel array h = Ret h' → h_name h' = h_name h.
Proof.
  revert h. induction fuel as [|fuel IH]; intros h Hno; [done|]. simpl.
  destruct (headerStep array h) as [h1| |] eqn:E1; [|done..]. simpl.
  pose proof (headerStep_no_crlf _ _ _ Hno E1) as Hname.
  apply headerStep_progress in E1.
  destruct (headerMore array (h_startIdx h1)).
  - intros E. rewrite <- Hname. apply (IH h1); [|done].
    intros j Hj. apply Hno. lia.
  - by intros [= <-].
Qed.

(** A name or file name that the Content-Disposition scan returns was
    captured at a position of the scan. *)
Lemma readContentDisposition_loop_captured (n : nat) (params : list byte)
    (i : nat) (name filename : option string) (d : disposition) :
  readContentDisposition_loop n params i name filename = Ret d →
  (d_name d = name
   ∨ ∃ j c v rest,
       i ≤ j
       ∧ drop j params = nameUTF8 ++ equalUTF8 :: c :: v ++ quoteUTF8 :: rest
       ∧ (quoteUTF8 ∉ v) ∧ d_name d = Some (decode v))
  ∧ (d_filename d = filename
     ∨ ∃ j c v rest,
         i ≤ j
         ∧ drop j params
           = filenameUTF8 ++ equalUTF8 :: c :: v ++ quoteUTF8 :: rest
         ∧ (quoteUTF8 ∉ v) ∧ d_filename d = Some (decode v)).
Proof.
  revert i name filename.
  induction n as [|n IH]; intros i name filename; simpl.
  { by destruct (negb _). }
  destruct (negb (i <? length params)); [done|].
  destruct (if falsy name then _ else _) as [[x|]| |] eqn:En; simpl;
    [| |done..].
  { intros E. apply IH in E as [Hn Hf].
    assert (extractParam (drop i params) nameUTF8 = Ret (Some x)) as Ex
      by (by destruct (falsy name)).
    apply extractParam_Some in Ex as (c & v & rest & Ed & Hv & ->).
    split.
    - right. destruct Hn as [Hn|(j & c' & v' & rest' & Hj & ?)].
      + exists i, c, v, rest. by rewrite Hn.
      + exists j, c', v', rest'. split; [lia|done].
    - destruct Hf as [Hf|(j & c' & v' & rest' & Hj & ?)]; [by left|].
      right. exists j, c', v', rest'. split; [lia|done]. }
  destruct (if falsy filename then _ else _) as [[x|]| |] eqn:Ef; simpl;
    [| |done..].
  { intros E. apply IH in E as [Hn Hf].
    assert (extractParam (drop i params) filenameUTF8 = Ret (Some x)) as Ex
      by (by destruct (falsy filename)).
    apply extractParam_Some in Ex as (c & v & rest & Ed & Hv & ->).
    split.
    - destruct Hn as [Hn|(j & c' & v' & rest' & Hj & ?)]; [by left|].
      right. exists j, c', v', rest'. split; [lia|done].
    - right. destruct Hf as [Hf|(j & c' & v' & rest' & Hj & ?)].
      + exists i, c, v, rest. by rewrite Hf.
      + exists j, c', v', rest'. split; [lia|done]. }
  destruct (_ && _).
  { intros [= <-]. split; by left. }
  intros E. apply IH in E as [Hn Hf]. split.
  - destruct Hn as [Hn|(j & c' & v' & rest' & Hj & ?)]; [by left|].
    right. exists j, c', v', rest'. split; [lia|done].
  - destruct Hf as [Hf|(j & c' & v' & rest' & Hj & ?)]; [by left|].
    right. exists j, c', v', rest'. split; [lia|done].
Qed.

End EndOfScan.

(** * The claims of the specification *)

Section Claims.
Context `{Platform} `{!Runtime}.

(** C2 (as the code has it): when no line of the buffer, split at CR LF,
    starts with the boundary delimiter, [parseMultipartFormData] raises no
    error: the preamble loop runs to the end of the buffer, the part loop is
    not entered and the empty result is returned. *)
Theorem no_boundary_line_empty_result (fuel : nat) (array : list byte)
    (boundary : string) (procs : gmap string processor) :
  Forall (fun l => startsWithArrayPrefix l (separatorOf boundary) = false)
    (crlfLines array) →
  length array < fuel →
  parseMultipartFormData fuel array boundary procs = Ret [].
Proof.
  intros Hall Hfuel. unfold parseMultipartFormData.
  destruct (skipPreamble_no_boundary fuel array (separatorOf boundary) 0)
    as (s & Hs & Hle); [lia|lia|by rewrite drop_0|].
  rewrite Hs, bind_Ret.
  by rewrite partsLoop_past_end by done.
Qed.

(** C3 (as the code has it): the header scan of a part that the parse
    reaches arrives at the end of the buffer without a blank line in two
    ways.  Inside a Content-Disposition line, whose scan then raises: the
    whole parse fails with that structural error.  By the guard of the
    header loop: when no name has been captured, the whole parse fails with
    the missing-name error "The entry name is missing".  No result is
    returned in either case; and when no CR LF pair follows the start of
    the header block at all, the parse ends in one of these two ways. *)
Theorem header_scan_at_end_without_name (fuel : nat) (array : list byte)
    (boundary : string) (procs : gmap string processor) (st : scan) :
  Reaches fuel array (separatorOf boundary) (withDefaults procs) st →
  startIdx st < length array →
  (∀ msg,
     readHeaders fuel array (newPart (lineEndIdx st)) = Throw msg →
     msg ∈ structuralErrors
     ∧ ∃ fuel0, ∀ fuel', fuel0 ≤ fuel' →
         parseMultipartFormData fuel' array boundary procs = Throw msg)
  ∧ (∀ h,
       readHeaders fuel array (newPart (lineEndIdx st)) = Ret h →
       length array ≤ h_startIdx h →
       falsy (h_name h) = true →
       ∃ fuel0, ∀ fuel', fuel0 ≤ fuel' →
         parseMultipartFormData fuel' array boundary procs
         = Throw "The entry name is missing")
  ∧ ((∀ j, lineEndIdx st ≤ j → ¬ crlfAt array j) →
     ∃ msg,
       (msg ∈ structuralErrors ∨ msg = missingFieldError)
       ∧ ∃ fuel0, ∀ fuel', fuel0 ≤ fuel' →
           parseMultipartFormData fuel' array boundary procs = Throw msg).
Proof.
  intros Hreach Hlt.
  assert (∀ f msg,
            Reaches f array (separatorOf boundary) (withDefaults procs) st →
            readHeaders f array (newPart (lineEndIdx st)) = Throw msg →
            ∃ fuel0, ∀ fuel', fuel0 ≤ fuel' →
              parseMultipartFormData fuel' array boundary procs = Throw msg)
    as Hthrow.
  { intros f msg Hr Hh. apply (Reaches_Throw f array boundary procs st);
      [done..|]. unfold partStep. by rewrite Hh. }
  assert (∀ f h,
            Reaches f array (separatorOf boundary) (withDefaults procs) st →
            readHeaders f array (newPart (lineEndIdx st)) = Ret h →
            falsy (h_name h) = true →
            ∃ fuel0, ∀ fuel', fuel0 ≤ fuel' →
              parseMultipartFormData fuel' array boundary procs
              = Throw "The entry name is missing") as Hmissing.
  { intros f h Hr Hh Hname.
    apply (Reaches_Throw f array boundary procs st); [done..|].
    by apply (partStep_missing_name _ _ _ _ _ h). }
  split; [|split].
  - intros msg Hh. split; [by apply readHeaders_Throw in Hh|]. by eapply Hthrow.
  - intros h Hh _ Hname. by eapply Hmissing.
  - intros Hno. set (f := max fuel (S (length array))).
    assert (Reaches f array (separatorOf boundary) (withDefaults procs) st)
      as Hr by (apply (Reaches_mono fuel); [lia|done]).
    destruct (readHeaders f array (newPart (lineEndIdx st))) as [h|msg|]
      eqn:Hh.
    + exists missingFieldError. split; [by right|].
      apply (Hmissing f h); [done..|].
      apply readHeaders_no_crlf in Hh; [|done]. by rewrite Hh.
    + exists msg. split; [left; by apply readHeaders_Throw in Hh|].
      by apply (Hthrow f).
    + exfalso. revert Hh. apply readHeaders_ends. cbn [newPart h_startIdx].
      lia.
Qed.

(** C4 (as the code has it): during the extraction of the
    Content-Disposition parameters, a parameter is captured at a scan
    position [i] only when the bytes from [i] on are the exact key, the
    byte [=], one more byte that is skipped without being examined (it
    need not be a double quote), a run [v] of bytes without a double quote,
    and a double quote; the captured value is [v] decoded as UTF-8, with no
    escape handling.  The extraction step [extractParam] captures exactly
    then, and every name and file name that the scan returns was captured
    so at a position of the scan. *)
Theorem extractParam_captures (params paramKey : list byte) (i : nat)
    (x : extracted) (d : disposition) :
  (extractParam (drop i params) paramKey = Ret (Some x) ↔
   ∃ c v rest,
     drop i params = paramKey ++ equalUTF8 :: c :: v ++ quoteUTF8 :: rest
     ∧ (quoteUTF8 ∉ v)
     ∧ x = {| x_data := decode v;
              x_offset := length paramKey + 2 + length v + 1 |})
  ∧ (readContentDisposition params = Ret d →
     (∀ n, d_name d = Some n →
        ∃ j c v rest,
          32 ≤ j
          ∧ drop j params
            = nameUTF8 ++ equalUTF8 :: c :: v ++ quoteUTF8 :: rest
          ∧ (quoteUTF8 ∉ v) ∧ n = decode v)
     ∧ (∀ f, d_filename d = Some f →
          ∃ j c v rest,
            32 ≤ j
            ∧ drop j params
              = filenameUTF8 ++ equalUTF8 :: c :: v ++ quoteUTF8 :: rest
            ∧ (quoteUTF8 ∉ v) ∧ f = decode v)).
Proof.
  split; [apply extractParam_Some|].
  intros [Hn Hf]%readContentDisposition_loop_captured.
  change (length contentDispositionPrefixUTF8 + 1) with 32 in Hn, Hf.
  split.
  - intros n En. destruct Hn as [Hn|(j & c & v & rest & Hj & Ed & Hv & E)];
      [congruence|].
    exists j, c, v, rest. repeat (split; [done|]). congruence.
  - intros f Ef. destruct Hf as [Hf|(j & c & v & rest & Hj & Ed & Hv & E)];
      [congruence|].
    exists j, c, v, rest. repeat (split; [done|]). congruence.
Qed.

(** A content type that is neither a key of the effective registry nor a
    name of [Object.prototype] is handled by the registry's [default]
    entry, which always exists; when the caller has not replaced [default],
    the entry's data is the raw body bytes, unchanged. *)
Lemma unregistered_type_uses_default
    (contentProcessors : gmap string processor) (contentType : string)
    (content : list byte) (filename : option string) :
  withDefaults contentProcessors !! contentType = None →
  contentType ∉ objectPrototypeNames →
  (∃ f, withDefaults contentProcessors !! "default" = Some f
        ∧ processContent (withDefaults contentProcessors) contentType content
            filename
          = d ← f content;
            Ret {| contentType := contentType; data_of := d;
                   filename := filename |})
  ∧ (contentProcessors !! "default" = None →
     processContent (withDefaults contentProcessors) contentType content
       filename
     = Ret {| contentType := contentType; data_of := Bytes content;
              filename := filename |}).
Proof.
  intros Hct Hn. split.
  - destruct (withDefaults_default contentProcessors) as [f Hf].
    exists f. split; [done|]. by apply processContent_fallback.
  - intros Hd.
    by rewrite (processContent_fallback _ _ _ _ _ Hct Hn
                  (withDefaults_builtin_default _ Hd)).
Qed.


(** C7: when the header block of a part that the parse reaches ends without
    a captured name, the call fails with "The entry name is missing"; no
    result, and so no entry of an earlier part, is returned. *)
Theorem missing_name_fails (fuel : nat) (array : list byte)
    (boundary : string) (procs : gmap string processor) (st : scan)
    (h : headers) :
  Reaches fuel array (separatorOf boundary) (withDefaults procs) st →
  startIdx st < length array →
  readHeaders fuel array (newPart (lineEndIdx st)) = Ret h →
  falsy (h_name h) = true →
  ∃ fuel0, ∀ fuel', fuel0 ≤ fuel' →
    parseMultipartFormData fuel' array boundary procs
    = Throw "The entry name is missing".
Proof.
  intros Hreach Hlt Hh Hname.
  apply (Reaches_Throw fuel array boundary procs st); [done..|].
  by apply (partStep_missing_name _ _ _ _ _ h).
Qed.

(** C8: a preamble of CR LF terminated lines, none of which starts with the
    boundary delimiter, does not change the outcome: the payload with the
    preamble in front parses to what the payload alone parses to. *)
Theorem preamble_ignored (fuel : nat) (ls : list (list byte))
    (payload : list byte) (boundary : string)
    (procs : gmap string processor) :
  Forall (fun l => (∀ j, ¬ crlfAt l j)
                   ∧ startsWithArrayPrefix l (separatorOf boundary) = false)
    ls →
  parseMultipartFormData fuel payload boundary procs ≠ Timeout →
  parseMultipartFormData (fuel + length ls) (preambleOf ls ++ payload)
    boundary procs
  = parseMultipartFormData fuel payload boundary procs.
Proof.
  intros Hls Hnt. induction Hls as [|l ls [Hl Hline] Hls IH].
  - by rewrite Nat.add_0_r.
  - cbn [length]. rewrite Nat.add_succ_r.
    unfold preambleOf. cbn [map concat]. rewrite <- app_assoc.
    fold (preambleOf ls). rewrite <- IH.
    apply parse_skip_line; [done..|]. by rewrite IH.
Qed.

(** C9 (as the code has it): when the delimiter line that closes the body
    of a part is followed by [--], the parse stops there; every buffer that
    shares the bytes up to and including that [--] gives the same result, so
    no byte of the epilogue reaches an entry. *)
Theorem epilogue_ignored_after_part (fuel : nat) (array array' : list byte)
    (boundary : string) (procs : gmap string processor) (st final : scan) :
  Reaches fuel array (separatorOf boundary) (withDefaults procs) st →
  startIdx st < length array →
  partStep fuel array (separatorOf boundary) (withDefaults procs) st
  = Ret (Break final) →
  agree (startIdx final + length (separatorOf boundary) + 2) array array' →
  ∃ fuel0, ∀ fuel', fuel0 ≤ fuel' →
    parseMultipartFormData fuel' array boundary procs = Ret (result final)
    ∧ parseMultipartFormData fuel' array' boundary procs
      = Ret (result final).
Proof.
  intros Hreach Hlt Hstep Hag.
  pose proof (separatorOf_nonempty boundary) as Hsep.
  pose proof Hag as (_ & Hl & Hl').
  destruct (partStep_progress _ _ _ _ _ _ Hsep Hstep) as (Hp1 & Hp2 & _).
  cbn [scanOf] in *.
  destruct (Reaches_local fuel _ array array' _ _ st Hsep Hag Hreach)
    as [Hreach' Hinv]; [done|lia|].
  destruct (partStep_local_Break fuel _ array array' _ _ st final Hsep Hag
              Hstep) as (final' & Hstep' & Hstart & Hres); [lia|].
  destruct (Reaches_partsLoop _ _ _ _ _ (Ret final) Hreach) as [f0 Hf0].
  { exists (S fuel). intros f Hf. destruct f as [|f]; [lia|]. simpl.
    rewrite (proj2 (Nat.ltb_lt _ _) Hlt). simpl.
    rewrite (partStep_mono fuel f) by (try lia; by rewrite Hstep).
    by rewrite Hstep. }
  destruct (Reaches_partsLoop _ _ _ _ _ (Ret final') Hreach') as [f1 Hf1].
  { exists (S fuel). intros f Hf. destruct f as [|f]; [lia|]. simpl.
    rewrite (proj2 (Nat.ltb_lt _ (length array'))) by lia. simpl.
    rewrite (partStep_mono fuel f) by (try lia; by rewrite Hstep').
    by rewrite Hstep'. }
  exists (max f0 f1). intros f Hf. unfold parseMultipartFormData.
  specialize (Hf0 f ltac:(lia)). specialize (Hf1 f ltac:(lia)).
  split.
  - destruct (skipPreamble f array _ 0) as [s| |]; simpl in *;
      [by rewrite Hf0|done..].
  - destruct (skipPreamble f array' _ 0) as [s| |]; simpl in *;
      [rewrite Hf1; simpl; by rewrite Hres|done..].
Qed.

(** C10 (as the code has it): the empty string as a captured name counts
    as no name.  A part whose header block ends with it (no later name
    parameter of that header block is captured) fails like a part without a
    name, with
    "The entry name is missing"; until then the scans of the
    Content-Disposition line and of the header block go on exactly as they
    do with no name captured (a later name parameter is still looked for);
    and the empty string is never a key of a returned result. *)
Theorem empty_name_is_missing (fuel : nat) (array : list byte)
    (boundary : string) (procs : gmap string processor) :
  (∀ st h,
     Reaches fuel array (separatorOf boundary) (withDefaults procs) st →
     startIdx st < length array →
     readHeaders fuel array (newPart (lineEndIdx st)) = Ret h →
     h_name h = Some "" →
     ∃ fuel0, ∀ fuel', fuel0 ≤ fuel' →
       parseMultipartFormData fuel' array boundary procs
       = Throw "The entry name is missing")
  ∧ (∀ n params i filename,
       normDisposition
         <$> readContentDisposition_loop n params i (Some "") filename
       = normDisposition
           <$> readContentDisposition_loop n params i None filename)
  ∧ (∀ h h',
       normHeaders h = normHeaders h' →
       normHeaders <$> readHeaders fuel array h
       = normHeaders <$> readHeaders fuel array h')
  ∧ (∀ r, parseMultipartFormData fuel array boundary procs = Ret r →
          get r "" = None ∧ "" ∉ ownKeys r).
Proof.
  split; [|split; [|split]].
  - intros st h Hreach Hlt Hh Hname.
    apply (Reaches_Throw fuel array boundary procs st); [done..|].
    apply (partStep_missing_name _ _ _ _ _ h); [done|]. by rewrite Hname.
  - intros n params i filename.
    by apply readContentDisposition_loop_norm.
  - intros h h'. apply readHeaders_norm.
  - intros r. unfold parseMultipartFormData.
    destruct (skipPreamble fuel array _ 0) as [s| |]; [|done..].
    rewrite bind_Ret.
    destruct (partsLoop fuel array _ _ _) as [st'| |] eqn:Eloop; [|done..].
    intros [= <-]. apply partsLoop_keys in Eloop; [|apply not_elem_of_nil].
    split; [by apply get_None|]. rewrite ownKeys_elem. by intros [_ ?].
Qed.

End Claims.

(** * The claims on concrete payloads *)

(** The scenario of the README (its JSON body shortened to [{}]): a
    preamble, a repeated name, a file part of an unregistered type. *)
Example readme_scenario :
  parseMultipartFormData (H := asciiPlatform) 100 readmePayload
    "----WebKitFormBoundary" ∅
  = Ret [ ("username",
           Multiple [ {| contentType := "text/plain"; data_of := Str "john_doe";
                         filename := None |};
                      {| contentType := "text/plain";
                         data_of := Str "hello world"; filename := None |} ]);
          ("binaryData",
           Single {| contentType := "application/octet-stream";
                     data_of := Bytes (encode "some binary data");
                     filename := Some "image.jpg" |});
          ("metadata",
           Single {| contentType := "application/json";
                     data_of := Val (H := asciiPlatform) ("{}" +:+ crlf);
                     filename := None |}) ].
Proof. by vm_compute. Qed.

(** The expectations of the test 'parse array buffer'. *)
Example test_parse_array_buffer :
  parseMultipartFormData (H := asciiPlatform) 100 testPayload
    "----WebKitFormBoundary7MA4YWxkTrZu0gW" ∅
  = Ret [ ("username",
           Single {| contentType := "text/plain"; data_of := Str "john_doe";
                     filename := None |});
          ("profile_picture",
           Multiple [ {| contentType := "image/jpeg";
                         data_of :=
                           Bytes (encode "  [Binary data of the JPEG file]");
                         filename := Some "profile.jpg" |};
                      {| contentType := "application/octet-stream";
                         data_of := Bytes (encode "  [Some other binary data]");
                         filename := Some "profile2.jpg" |} ]);
          ("metadata",
           Single {| contentType := "application/json";
                     data_of := Val (H := asciiPlatform) jsonBody;
                     filename := None |}) ].
Proof. by vm_compute. Qed.

Lemma no_crlf_by_scan (l : list byte) :
  getLineEndIdx l 0 = length l → ∀ j, ¬ crlfAt l j.
Proof.
  intros E j Hc. destruct (getLineEndIdx_spec l 0) as [_ Hfirst].
  apply (Hfirst j); [|done]. apply crlfAt_lt in Hc. lia.
Qed.

(** C1: the buffer ends inside the body of its only part.  The body scan
    runs past the end of the buffer and never leaves its loop: no amount of
    fuel lets the call return or raise. *)
Theorem truncated_body_never_returns (fuel : nat) :
  parseMultipartFormData (H := asciiPlatform) fuel truncatedPayload "B" ∅
  = Timeout.
Proof.
  apply (parse_never_returns (H := asciiPlatform) 20 truncatedPayload "B" ∅ 5
           {| h_startIdx := 47; h_name := Some "a"; h_contentType := None;
              h_filename := None |} "a").
  - by vm_compute.
  - vm_compute. lia.
  - by vm_compute.
  - done.
  - done.
  - by vm_compute.
Qed.

(** C2, the claim as stated fails: a buffer without any delimiter line is
    parsed to the empty result, no error is raised. *)
Lemma no_boundary_returns_empty :
  Forall (fun l => startsWithArrayPrefix l (separatorOf "B") = false)
    (crlfLines helloPayload)
  ∧ parseMultipartFormData (H := asciiPlatform) 10 helloPayload "B" ∅ = Ret []
  ∧ ∀ msg, parseMultipartFormData (H := asciiPlatform) 10 helloPayload "B" ∅
           ≠ Throw msg.
Proof.
  split; [|split].
  - vm_compute. by repeat constructor.
  - by vm_compute.
  - intros msg. by vm_compute.
Qed.

Lemma no_boundary_line_empty_result_witness :
  parseMultipartFormData (H := asciiPlatform) 10 helloPayload "B" ∅ = Ret [].
Proof.
  apply (no_boundary_line_empty_result (H := asciiPlatform) 10 helloPayload
           "B" ∅).
  - vm_compute. repeat constructor.
  - vm_compute. lia.
Defined.

(** C3, the claim as stated fails: the header scan of the only part runs to
    the end of the buffer, and the error raised is the missing-name error,
    not a structural one. *)
Lemma header_end_raises_missing_name :
  readHeaders (H := asciiPlatform) 10 headerAtEndPayload (newPart 5)
  = Ret {| h_startIdx := 6; h_name := None; h_contentType := None;
           h_filename := None |}
  ∧ length headerAtEndPayload = 6
  ∧ parseMultipartFormData (H := asciiPlatform) 10 headerAtEndPayload "B" ∅
    = Throw missingFieldError
  ∧ missingFieldError ∉ structuralErrors.
Proof.
  split; [by vm_compute|]. split; [by vm_compute|].
  split; [by vm_compute|].
  unfold structuralErrors, missingFieldError.
  repeat (apply not_elem_of_cons; split; [discriminate|]).
  apply not_elem_of_nil.
Qed.

Lemma header_scan_at_end_without_name_witness :
  "Something went wrong during the content disposition params retrieval"
    ∈ structuralErrors
  ∧ ∃ fuel0, ∀ fuel', fuel0 ≤ fuel' →
      parseMultipartFormData (H := asciiPlatform) fuel' cutDispositionPayload
        "B" ∅
      = Throw
          "Something went wrong during the content disposition params retrieval".
Proof.
  destruct (header_scan_at_end_without_name (H := asciiPlatform) 10
              cutDispositionPayload "B" ∅ (firstPart 5)) as [Hthrow _].
  - apply Reaches_first. vm_compute. reflexivity.
  - vm_compute. lia.
  - apply Hthrow. vm_compute. reflexivity.
Defined.

(** C4, the claim as stated fails: the byte after [=] is [x], not a double
    quote, and the parameter is captured all the same. *)
Lemma unchecked_byte_after_equals :
  unquotedParam !! 5 = Some x78
  ∧ extractParam (H := asciiPlatform) unquotedParam nameUTF8
    = Ret (Some {| x_data := "ab"; x_offset := 9 |}).
Proof. split; by vm_compute. Qed.

Lemma unregistered_type_uses_default_witness :
  processContent (H := asciiPlatform) (withDefaults ∅) "image/png"
    (encode "body") None
  = Ret {| contentType := "image/png"; data_of := Bytes (encode "body");
           filename := None |}.
Proof.
  apply (unregistered_type_uses_default (H := asciiPlatform) ∅ "image/png"
           (encode "body") None).
  - vm_compute. reflexivity.
  - unfold objectPrototypeNames.
    repeat (apply not_elem_of_cons; split; [discriminate|]).
    apply not_elem_of_nil.
  - reflexivity.
Defined.

(** C5: the content type [toString] is no key of the registry, and yet the
    [default] processor is not the one applied: [in] finds the name on
    [Object.prototype], and the entry's data is what
    [Object.prototype.toString] answers for the registry, not the bytes of
    the body. *)
Theorem inherited_type_skips_default :
  withDefaults (H := asciiPlatform) ∅ !! "toString" = None
  ∧ parseMultipartFormData (H := asciiPlatform) 20 inheritedTypePayload "B" ∅
    = Ret [ ("a", Single {| contentType := "toString";
                            data_of := Str "[object Object]";
                            filename := None |}) ]
  ∧ Str (H := asciiPlatform) "[object Object]" ≠ Bytes (encode "body").
Proof. split; [|split]; by vm_compute. Qed.



Lemma missing_name_fails_witness :
  ∃ fuel0, ∀ fuel', fuel0 ≤ fuel' →
    parseMultipartFormData (H := asciiPlatform) fuel' noNamePayload "B" ∅
    = Throw "The entry name is missing".
Proof.
  apply (missing_name_fails (H := asciiPlatform) 20 noNamePayload "B" ∅
           noNameSecond
           {| h_startIdx := 83; h_name := None;
              h_contentType := Some "text/plain"; h_filename := None |}).
  - apply (Reaches_next _ _ _ _ (firstPart 5)).
    + apply Reaches_first. vm_compute. reflexivity.
    + vm_compute. lia.
    + vm_compute. reflexivity.
  - vm_compute. lia.
  - vm_compute. reflexivity.
  - reflexivity.
Defined.

Lemma preamble_ignored_witness :
  parseMultipartFormData (H := asciiPlatform) (20 + 2)
    (preambleOf [encode "note"; []] ++ onePartPayload) "B" ∅
  = parseMultipartFormData (H := asciiPlatform) 20 onePartPayload "B" ∅.
Proof.
  apply (preamble_ignored (H := asciiPlatform) 20 [encode "note"; []]
           onePartPayload "B" ∅).
  - repeat constructor;
      try (apply no_crlf_by_scan; vm_compute; reflexivity);
      vm_compute; reflexivity.
  - vm_compute. discriminate.
Defined.

(** C9, the claim as stated fails: the first delimiter line is already the
    final one.  The two buffers share it, CR LF included, and differ only
    after it; one parses to the empty result, the other raises. *)
Lemma epilogue_after_lone_final_boundary :
  take 7 (onlyFinalBoundary ++ encode "x") = onlyFinalBoundary
  ∧ parseMultipartFormData (H := asciiPlatform) 10 onlyFinalBoundary "B" ∅
    = Ret []
  ∧ parseMultipartFormData (H := asciiPlatform) 10
      (onlyFinalBoundary ++ encode "x") "B" ∅
    = Throw "The entry name is missing".
Proof. split; [|split]; by vm_compute. Qed.

Lemma epilogue_ignored_after_part_witness :
  ∃ fuel0, ∀ fuel', fuel0 ≤ fuel' →
    parseMultipartFormData (H := asciiPlatform) fuel' onePartPayload "B" ∅
    = Ret (result onePartFinal)
    ∧ parseMultipartFormData (H := asciiPlatform) fuel'
        (onePartPayload ++ encode "epilogue") "B" ∅
      = Ret (result onePartFinal).
Proof.
  apply (epilogue_ignored_after_part (H := asciiPlatform) 20 onePartPayload
           (onePartPayload ++ encode "epilogue") "B" ∅ (firstPart 5)
           onePartFinal).
  - apply Reaches_first. vm_compute. reflexivity.
  - vm_compute. lia.
  - vm_compute. reflexivity.
  - split; [vm_compute; reflexivity|]. split; vm_compute; lia.
Defined.

(** C10, the claim as stated fails: the Content-Disposition line of the
    only part carries [name=] followed by two double quotes, and the call
    raises no error.  The empty name does not end the search for a name:
    the parameter that follows it on the same line is captured, and the
    result is keyed by it. *)
Example empty_name_then_name :
  (∃ pre post,
     renamedPayload
     = pre ++ (encode "name=" ++ [quoteUTF8; quoteUTF8]) ++ post)
  ∧ parseMultipartFormData (H := asciiPlatform) 20 renamedPayload "B" ∅
    = Ret [ ("x", Single {| contentType := "text/plain"; data_of := Str "v";
                            filename := None |}) ]
  ∧ (∀ fuel, parseMultipartFormData (H := asciiPlatform) fuel renamedPayload
               "B" ∅
             ≠ Throw missingFieldError).
Proof.
  split; [|split].
  - exists (take 37 renamedPayload), (drop 44 renamedPayload).
    by vm_compute.
  - by vm_compute.
  - intros fuel E.
    assert (parseMultipartFormData (H := asciiPlatform) 20 renamedPayload
              "B" ∅
            = Ret [ ("x", Single {| contentType := "text/plain";
                                    data_of := Str "v"; filename := None |}) ])
      as E0 by (by vm_compute).
    destruct (fuel_agree
                (fun n => parseMultipartFormData (H := asciiPlatform) n
                            renamedPayload "B" ∅)
                (fun n n' => parse_mono n n' renamedPayload "B" ∅)
                20 fuel _ E0) as [E'|E']; congruence.
Qed.

Lemma empty_name_is_missing_witness :
  ∃ fuel0, ∀ fuel', fuel0 ≤ fuel' →
    parseMultipartFormData (H := asciiPlatform) fuel' emptyNamePayload "B" ∅
    = Throw "The entry name is missing".
Proof.
  apply (proj1 (empty_name_is_missing (H := asciiPlatform) 20
                  emptyNamePayload "B" ∅) (firstPart 5)
           {| h_startIdx := 46; h_name := Some ""; h_contentType := None;
              h_filename := None |}).
  - apply Reaches_first. vm_compute. reflexivity.
  - vm_compute. lia.
  - vm_compute. reflexivity.
  - reflexivity.
Defined.

(** * Further properties of the code *)

(** ** Byte scanner *)

(** X1: [arrayEq] is equality of the two byte sequences: the same length
    and the same byte at every index. *)
Theorem arrayEq_true_iff (a b : list byte) :
  arrayEq a b = true ↔ length a = length b ∧ ∀ i, a !! i = b !! i.
Proof.
  rewrite arrayEq_spec. split.
  - by intros ->.
  - intros [_ E]. by apply list_eq.
Qed.

(** X2: [startsWithArrayPrefix arr prefixArr] holds exactly when [arr] is
    [prefixArr] followed by some bytes; an array shorter than the prefix
    never starts with it. *)
Theorem startsWithArrayPrefix_iff (arr prefixArr : list byte) :
  (startsWithArrayPrefix arr prefixArr = true
   ↔ ∃ rest, arr = prefixArr ++ rest)
  ∧ (length arr < length prefixArr →
     startsWithArrayPrefix arr prefixArr = false).
Proof.
  split; [apply startsWith_app|].
  intros Hlt. apply not_true_is_false. intros [rest ->]%startsWith_app.
  rewrite length_app in Hlt. lia.
Qed.

(** X3: [getLineEndIdx array offset] is the index of the first CR LF pair
    whose CR sits at [offset] or later, and the length of the array when
    there is none (also when [offset] is past the end). *)
Theorem getLineEndIdx_iff (array : list byte) (offset r : nat) :
  getLineEndIdx array offset = r ↔
  (r = length array ∨ (offset ≤ r ∧ crlfAt array r))
  ∧ (∀ j, offset ≤ j < r → ¬ crlfAt array j).
Proof.
  split.
  - intros <-. apply getLineEndIdx_spec.
  - intros [Hr Hfirst]. by apply getLineEndIdx_unique.
Qed.

(** ** Content-Disposition parameters *)

Section MoreParams.
Context `{Platform} `{!Runtime}.


Lemma extractParam_loop_no_Timeout (params : list byte) (endI n i : nat) :
  extractParam_loop params endI n i ≠ Timeout.
Proof.
  revert i. induction n as [|n IH]; intros i; simpl; [done|].
  destruct (byte_is _ _); [done|apply IH].
Qed.

(** X4: the outcomes of [extractParam] other than a capture.  It answers
    [undefined] exactly when the bytes are not the key followed by [=]; it
    raises exactly when they are and no double quote follows the byte after
    [=]; it always answers. *)
Theorem extractParam_outcomes (params paramKey : list byte) :
  (extractParam params paramKey = Ret None
   ↔ ¬ ∃ rest, params = paramKey ++ equalUTF8 :: rest)
  ∧ (∀ msg,
       extractParam params paramKey = Throw msg
       ↔ msg = "Something went wrong during the params extraction"
         ∧ ∃ rest, params = paramKey ++ equalUTF8 :: rest
                   ∧ quoteUTF8 ∉ drop 1 rest)
  ∧ extractParam params paramKey ≠ Timeout.
Proof.
  unfold extractParam.
  destruct (negb _ || negb _) eqn:Eg.
  - assert (¬ ∃ rest, params = paramKey ++ equalUTF8 :: rest) as Hno.
    { intros Hex. apply extractParam_guard in Hex. congruence. }
    split; [done|]. split; [|done].
    intros msg. split; [done|]. intros [_ (rest & E & _)].
    exfalso. apply Hno. eauto.
  - apply extractParam_guard in Eg as [rest ->].
    assert (length (paramKey ++ equalUTF8 :: rest) - (length paramKey + 2)
            = length (drop 1 rest)) as ->.
    { rewrite length_app, length_drop. simpl. lia. }
    assert (paramKey ++ equalUTF8 :: rest
            = (paramKey ++ equalUTF8 :: take 1 rest) ++ drop 1 rest) as E.
    { rewrite <- app_assoc. simpl. by rewrite take_drop. }
    split; [|split].
    + split.
      * intros E'. apply extractParam_loop_is_Some in E'. by destruct E'.
      * intros Hno. exfalso. apply Hno. eauto.
    + intros msg. split.
      * intros Hthrow. split; [by apply extractParam_loop_Throw in Hthrow|].
        exists rest. split; [done|]. intros Hin.
        apply list_elem_of_split_l in Hin as (v & rest' & Ev & Hv).
        destruct rest as [|c tail]; [by destruct v|].
        change (drop 1 (c :: tail)) with tail in *. subst tail.
        replace (paramKey ++ equalUTF8 :: c :: v ++ quoteUTF8 :: rest')
          with ((paramKey ++ [equalUTF8; c]) ++ v ++ quoteUTF8 :: rest')
          in Hthrow by (by rewrite <- app_assoc).
        replace (length paramKey + 2)
          with (length (paramKey ++ [equalUTF8; c])) in Hthrow
          by (rewrite length_app; simpl; lia).
        simpl in Hthrow.
        by rewrite (extractParam_loop_finds _ _ _ _ Hv) in Hthrow.
      * intros [-> (rest0 & E0 & Hq)].
        apply app_inv_head in E0. injection E0 as <-.
        destruct rest as [|c tail].
        { simpl. done. }
        change (drop 1 (c :: tail)) with tail in *.
        destruct (extractParam_loop _ _ _ _) as [o| msg'|] eqn:El.
        -- exfalso.
           replace (paramKey ++ equalUTF8 :: c :: tail)
             with ((paramKey ++ [equalUTF8; c]) ++ tail) in El
             by (by rewrite <- app_assoc).
           replace (length paramKey + 2)
             with (length (paramKey ++ [equalUTF8; c])) in El
             by (rewrite length_app; simpl; lia).
           apply extractParam_loop_inv in El as (v & r' & -> & _).
           apply Hq. apply elem_of_app. right. by left.
        -- by apply extractParam_loop_Throw in El as ->.
        -- by apply extractParam_loop_no_Timeout in El.
    + apply extractParam_loop_no_Timeout.
Qed.


(** X5: when [readContentDisposition] returns, its offset is at least 33,
    lies within the bytes it was given, and points just past a CR LF pair:
    the driver resumes at the start of the next line. *)
Theorem readContentDisposition_offset (params : list byte) (d : disposition) :
  readContentDisposition params = Ret d →
  33 ≤ d_offset d ∧ d_offset d ≤ length params
  ∧ crlfAt params (d_offset d - 2).
Proof.
  intros (Hi & Hlen & Hcr & Hlf)%readContentDisposition_loop_ends.
  change (length contentDispositionPrefixUTF8) with 31 in Hi.
  split; [lia|]. split; [done|]. split; [done|].
  by replace (S (d_offset d - 2)) with (d_offset d - 1) by lia.
Qed.


(** X6: the only exceptions of [readContentDisposition] are the two
    structural errors, and a line without a CR LF pair from index 31 on
    (the byte after the prefix) always raises one of them. *)
Theorem readContentDisposition_errors (params : list byte) :
  (∀ msg, readContentDisposition params = Throw msg → msg ∈ structuralErrors)
  ∧ ((∀ j, 31 ≤ j → ¬ crlfAt params j) →
     ∃ msg, readContentDisposition params = Throw msg).
Proof.
  split.
  - intros msg. apply readContentDisposition_loop_Throw.
  - intros Hno.
    destruct (readContentDisposition params) as [d|msg|] eqn:E.
    + apply readContentDisposition_loop_ends in E as (Hi & Hlen & Hcr & Hlf).
      change (length contentDispositionPrefixUTF8) with 31 in Hi.
      exfalso. apply (Hno (d_offset d - 2)); [lia|]. split; [done|].
      by replace (S (d_offset d - 2)) with (d_offset d - 1) by lia.
    + by exists msg.
    + exfalso. revert E. apply readContentDisposition_loop_no_timeout. lia.
Qed.

End MoreParams.

(** Lists of bytes written with [++] and [::], flattened to the right. *)
Ltac flatten_app := repeat (progress (simpl; rewrite <- ?app_assoc)).

Section CanonicalDisposition.
Context `{Platform} `{!Runtime}.

Lemma readContentDisposition_loop_stable (n n' : nat) (params : list byte)
    (i : nat) (name filename : option string) :
  length params - i ≤ n → length params - i ≤ n' →
  readContentDisposition_loop n params i name filename
  = readContentDisposition_loop n' params i name filename.
Proof.
  intros Hn Hn'. destruct (le_ge_dec n n') as [Hle|Hge].
  - symmetry. apply readContentDisposition_loop_mono; [done|].
    by apply readContentDisposition_loop_no_timeout.
  - apply readContentDisposition_loop_mono; [done|].
    by apply readContentDisposition_loop_no_timeout.
Qed.

Lemma readContentDisposition_loop_S (n : nat) (params : list byte)
    (i : nat) (name filename : option string) :
  readContentDisposition_loop (S n) params i name filename
  = if negb (i <? length params)
    then Throw "Something went wrong during the content disposition params retrieval"
    else
      extractedName ←
        (if falsy name then extractParam (drop i params) nameUTF8
         else Ret None);
      match extractedName with
      | Some x =>
          readContentDisposition_loop n params (i + x_offset x + 1)
            (Some (x_data x)) filename
      | None =>
          extractedFilename ←
            (if falsy filename then extractParam (drop i params) filenameUTF8
             else Ret None);
          match extractedFilename with
          | Some x =>
              readContentDisposition_loop n params (i + x_offset x + 1)
                name (Some (x_data x))
          | None =>
              if byte_is (params !! (i - 1)) x0d && byte_is (params !! i) x0a
              then Ret {| d_name := name; d_filename := filename;
                          d_offset := i + 1 |}
              else readContentDisposition_loop n params (i + 1) name filename
          end
      end.
Proof. reflexivity. Qed.

Lemma readContentDisposition_loop_unfold (n : nat) (params : list byte)
    (i : nat) (name filename : option string) :
  i < length params → length params - i ≤ n →
  readContentDisposition_loop n params i name filename
  = extractedName ←
      (if falsy name then extractParam (drop i params) nameUTF8
       else Ret None);
    match extractedName with
    | Some x =>
        readContentDisposition_loop n params (i + x_offset x + 1)
          (Some (x_data x)) filename
    | None =>
        extractedFilename ←
          (if falsy filename then extractParam (drop i params) filenameUTF8
           else Ret None);
        match extractedFilename with
        | Some x =>
            readContentDisposition_loop n params (i + x_offset x + 1)
              name (Some (x_data x))
        | None =>
            if byte_is (params !! (i - 1)) x0d && byte_is (params !! i) x0a
            then Ret {| d_name := name; d_filename := filename;
                        d_offset := i + 1 |}
            else readContentDisposition_loop n params (i + 1) name filename
        end
    end.
Proof.
  intros Hi Hn. destruct n as [|m]; [lia|].
  rewrite (readContentDisposition_loop_S m params i name filename).
  rewrite (proj2 (Nat.ltb_lt _ _) Hi). cbn [negb].
  destruct (if falsy name then _ else _) as [[x|]| |]; [| |done..].
  { rewrite !bind_Ret. apply readContentDisposition_loop_stable; lia. }
  rewrite !bind_Ret.
  destruct (if falsy filename then _ else _) as [[x|]| |]; [| |done..].
  { rewrite !bind_Ret. apply readContentDisposition_loop_stable; lia. }
  rewrite !bind_Ret.
  destruct (_ && _); [done|]. apply readContentDisposition_loop_stable; lia.
Qed.

Lemma drop_lt_length (params rest : list byte) (i : nat) (b : byte) :
  drop i params = b :: rest → i < length params.
Proof.
  intros E. destruct (decide (i < length params)) as [|Hge]; [done|].
  by rewrite drop_ge in E by lia.
Qed.

Lemma drop_nonempty (params : list byte) (i : nat) :
  drop i params ≠ [] → i < length params.
Proof.
  intros E. destruct (decide (i < length params)) as [|Hge]; [done|].
  by rewrite drop_ge in E by lia.
Qed.

Lemma drop_head (params rest : list byte) (i : nat) (b : byte) :
  drop i params = b :: rest → params !! i = Some b.
Proof.
  intros E. by rewrite <- (Nat.add_0_r i), <- lookup_drop, E.
Qed.

Lemma drop_step (params rest : list byte) (i : nat) (b : byte) :
  drop i params = b :: rest → drop (i + 1) params = rest.
Proof. intros E. by rewrite <- drop_drop, E. Qed.

Lemma drop_past (params pre rest : list byte) (i k : nat) :
  drop i params = pre ++ rest → k = length pre → drop (i + k) params = rest.
Proof. intros E ->. by rewrite <- drop_drop, E, drop_app_length. Qed.

Lemma extractParam_other_byte (x rest key : list byte) (b k0 : byte) :
  x = b :: rest → key !! 0 = Some k0 → b ≠ k0 →
  extractParam x key = Ret None.
Proof.
  intros -> Hk Hne. apply extractParam_None. apply not_true_is_false.
  intros [r E]%startsWith_app. destruct key as [|k key']; [done|].
  simpl in *. congruence.
Qed.

(** The byte [b] at [i] starts neither key and does not end the line. *)
Lemma readContentDisposition_loop_skip (n : nat) (params rest : list byte)
    (i : nat) (b : byte) (name filename : option string) :
  drop i params = b :: rest → length params - i ≤ n →
  b ≠ x6e → b ≠ x66 → b ≠ x0a →
  readContentDisposition_loop n params i name filename
  = readContentDisposition_loop n params (i + 1) name filename.
Proof.
  intros E Hn Hn1 Hn2 Hn3.
  rewrite readContentDisposition_loop_unfold
    by (done || by eapply drop_lt_length).
  rewrite (extractParam_other_byte _ rest nameUTF8 b x6e E eq_refl Hn1).
  rewrite (extractParam_other_byte _ rest filenameUTF8 b x66 E eq_refl Hn2).
  rewrite (drop_head _ _ _ _ E).
  replace (byte_is (Some b) x0a) with false
    by (symmetry; apply byte_is_false; congruence).
  rewrite andb_false_r. by destruct (falsy name), (falsy filename).
Qed.

Lemma readContentDisposition_loop_name (n : nat) (params v rest : list byte)
    (i : nat) (c : byte) (name filename : option string) :
  drop i params = nameUTF8 ++ equalUTF8 :: c :: v ++ quoteUTF8 :: rest →
  (quoteUTF8 ∉ v) → length params - i ≤ n → falsy name = true →
  readContentDisposition_loop n params i name filename
  = readContentDisposition_loop n params (i + (length v + 7) + 1)
      (Some (decode v)) filename.
Proof.
  intros E Hv Hn Hname.
  rewrite readContentDisposition_loop_unfold
    by (done || (apply drop_nonempty; by rewrite E)).
  rewrite Hname.
  rewrite (proj2 (extractParam_Some (drop i params) nameUTF8
             {| x_data := decode v;
                x_offset := length nameUTF8 + 2 + length v + 1 |}))
    by (exists c, v, rest; done).
  rewrite bind_Ret. cbn [x_offset x_data].
  by replace (length nameUTF8 + 2 + length v + 1) with (length v + 7)
    by (simpl; lia).
Qed.

Lemma readContentDisposition_loop_filename (n : nat)
    (params v rest : list byte) (i : nat) (c : byte)
    (name filename : option string) :
  drop i params = filenameUTF8 ++ equalUTF8 :: c :: v ++ quoteUTF8 :: rest →
  (quoteUTF8 ∉ v) → length params - i ≤ n → falsy filename = true →
  readContentDisposition_loop n params i name filename
  = readContentDisposition_loop n params (i + (length v + 11) + 1)
      name (Some (decode v)).
Proof.
  intros E Hv Hn Hfile.
  rewrite readContentDisposition_loop_unfold
    by (done || (apply drop_nonempty; by rewrite E)).
  assert (extractParam (drop i params) nameUTF8 = Ret None) as ->.
  { rewrite E. by eapply (extractParam_other_byte _ _ nameUTF8 x66 x6e). }
  assert ((if falsy name then Ret None else Ret None)
          = (Ret None : outcome (option extracted))) as ->
    by (by destruct (falsy name)).
  rewrite bind_Ret, Hfile.
  rewrite (proj2 (extractParam_Some (drop i params) filenameUTF8
             {| x_data := decode v;
                x_offset := length filenameUTF8 + 2 + length v + 1 |}))
    by (exists c, v, rest; done).
  rewrite bind_Ret. cbn [x_offset x_data].
  by replace (length filenameUTF8 + 2 + length v + 1) with (length v + 11)
    by (simpl; lia).
Qed.

Lemma readContentDisposition_loop_end (n : nat) (params rest : list byte)
    (i : nat) (name filename : option string) :
  drop i params = x0a :: rest → params !! (i - 1) = Some x0d →
  length params - i ≤ n →
  readContentDisposition_loop n params i name filename
  = Ret {| d_name := name; d_filename := filename; d_offset := i + 1 |}.
Proof.
  intros E Hprev Hn.
  rewrite readContentDisposition_loop_unfold
    by (done || by eapply drop_lt_length).
  rewrite (extractParam_other_byte _ rest nameUTF8 x0a x6e E) by done.
  rewrite (extractParam_other_byte _ rest filenameUTF8 x0a x66 E) by done.
  rewrite (drop_head _ _ _ _ E), Hprev.
  by destruct (falsy name), (falsy filename).
Qed.

(** A Content-Disposition line written the usual way is read back, whatever
    follows it. *)
Lemma readContentDisposition_line (name : list byte)
    (file : option (list byte)) (fileFirst : bool) (rest : list byte) :
  quoteUTF8 ∉ name → (∀ f, file = Some f → quoteUTF8 ∉ f) →
  readContentDisposition (dispositionLine name file fileFirst ++ rest)
  = Ret {| d_name := Some (decode name); d_filename := decode <$> file;
           d_offset := length (dispositionLine name file fileFirst) |}.
Proof.
  intros Hname Hfile. unfold readContentDisposition.
  set (params := dispositionLine name file fileFirst ++ rest).
  assert (drop 32 params
          = dispositionParams name file fileFirst ++ x0d :: x0a :: rest) as E0.
  { unfold params, dispositionLine.
    change (contentDispositionPrefixUTF8 ++ x20 :: ?l)
      with ((contentDispositionPrefixUTF8 ++ [x20]) ++ l).
    rewrite <- (app_assoc (contentDispositionPrefixUTF8 ++ [x20]) _ rest).
    rewrite <- (app_assoc (dispositionParams name file fileFirst) _ rest).
    by rewrite (drop_app_length' _ _ 32). }
  change (length contentDispositionPrefixUTF8 + 1) with 32.
  destruct file as [f|]; [destruct fileFirst|];
    unfold dispositionParams in E0.
  - (* filename, then name *)
    specialize (Hfile f eq_refl).
    assert (drop 32 params
            = filenameUTF8 ++ equalUTF8 :: quoteUTF8 :: f ++ quoteUTF8
              :: x3b :: x20 :: nameParam name ++ x0d :: x0a :: rest) as E1.
    { rewrite E0. unfold filenameParam. by flatten_app. }
    rewrite (readContentDisposition_loop_filename _ _ f _ _ _ _ _ E1)
      by (done || lia).
    assert (drop (32 + (length f + 11)) params
            = x3b :: x20 :: nameParam name ++ x0d :: x0a :: rest) as E2.
    { apply (drop_past _ (filenameUTF8 ++ equalUTF8 :: quoteUTF8 :: f
                          ++ [quoteUTF8])).
      - rewrite E1. by flatten_app.
      - rewrite length_app. simpl. rewrite length_app. simpl. lia. }
    apply drop_step in E2.
    rewrite (readContentDisposition_loop_skip _ _ _ _ _ _ _ E2)
      by (done || lia).
    apply drop_step in E2.
    assert (drop (32 + (length f + 11) + 1 + 1) params
            = nameUTF8 ++ equalUTF8 :: quoteUTF8 :: name ++ quoteUTF8
              :: x0d :: x0a :: rest) as E3.
    { rewrite E2. unfold nameParam. by flatten_app. }
    rewrite (readContentDisposition_loop_name _ _ name _ _ _ _ _ E3)
      by (done || lia).
    assert (drop (32 + (length f + 11) + 1 + 1 + (length name + 7)) params
            = x0d :: x0a :: rest) as E4.
    { apply (drop_past _ (nameUTF8 ++ equalUTF8 :: quoteUTF8 :: name
                          ++ [quoteUTF8])).
      - rewrite E3. by flatten_app.
      - rewrite length_app. simpl. rewrite length_app. simpl. lia. }
    rewrite (readContentDisposition_loop_end _ _ rest).
    + f_equal. f_equal. unfold dispositionLine, dispositionParams,
        filenameParam, nameParam.
      rewrite !length_app. simpl. rewrite !length_app. simpl.
      rewrite !length_app. simpl. lia.
    + by apply drop_step in E4.
    + apply drop_head in E4. rewrite <- E4. f_equal. lia.
    + lia.
  - (* name, then filename *)
    specialize (Hfile f eq_refl).
    assert (drop 32 params
            = nameUTF8 ++ equalUTF8 :: quoteUTF8 :: name ++ quoteUTF8
              :: x3b :: x20 :: filenameParam f ++ x0d :: x0a :: rest) as E1.
    { rewrite E0. unfold nameParam. by flatten_app. }
    rewrite (readContentDisposition_loop_name _ _ name _ _ _ _ _ E1)
      by (done || lia).
    assert (drop (32 + (length name + 7)) params
            = x3b :: x20 :: filenameParam f ++ x0d :: x0a :: rest) as E2.
    { apply (drop_past _ (nameUTF8 ++ equalUTF8 :: quoteUTF8 :: name
                          ++ [quoteUTF8])).
      - rewrite E1. by flatten_app.
      - rewrite length_app. simpl. rewrite length_app. simpl. lia. }
    apply drop_step in E2.
    rewrite (readContentDisposition_loop_skip _ _ _ _ _ _ _ E2)
      by (done || lia).
    apply drop_step in E2.
    assert (drop (32 + (length name + 7) + 1 + 1) params
            = filenameUTF8 ++ equalUTF8 :: quoteUTF8 :: f ++ quoteUTF8
              :: x0d :: x0a :: rest) as E3.
    { rewrite E2. unfold filenameParam. by flatten_app. }
    rewrite (readContentDisposition_loop_filename _ _ f _ _ _ _ _ E3)
      by (done || lia).
    assert (drop (32 + (length name + 7) + 1 + 1 + (length f + 11)) params
            = x0d :: x0a :: rest) as E4.
    { apply (drop_past _ (filenameUTF8 ++ equalUTF8 :: quoteUTF8 :: f
                          ++ [quoteUTF8])).
      - rewrite E3. by flatten_app.
      - rewrite length_app. simpl. rewrite length_app. simpl. lia. }
    rewrite (readContentDisposition_loop_end _ _ rest).
    + f_equal. f_equal. unfold dispositionLine, dispositionParams,
        filenameParam, nameParam.
      rewrite !length_app. simpl. rewrite !length_app. simpl.
      rewrite !length_app. simpl. lia.
    + by apply drop_step in E4.
    + apply drop_head in E4. rewrite <- E4. f_equal. lia.
    + lia.
  - (* the name alone *)
    assert (drop 32 params
            = nameUTF8 ++ equalUTF8 :: quoteUTF8 :: name ++ quoteUTF8
              :: x0d :: x0a :: rest) as E1.
    { rewrite E0. unfold nameParam. by flatten_app. }
    rewrite (readContentDisposition_loop_name _ _ name _ _ _ _ _ E1)
      by (done || lia).
    assert (drop (32 + (length name + 7)) params = x0d :: x0a :: rest) as E4.
    { apply (drop_past _ (nameUTF8 ++ equalUTF8 :: quoteUTF8 :: name
                          ++ [quoteUTF8])).
      - rewrite E1. by flatten_app.
      - rewrite length_app. simpl. rewrite length_app. simpl. lia. }
    rewrite (readContentDisposition_loop_end _ _ rest).
    + f_equal. f_equal. unfold dispositionLine, dispositionParams, nameParam.
      rewrite !length_app. simpl. rewrite !length_app. simpl. lia.
    + by apply drop_step in E4.
    + apply drop_head in E4. rewrite <- E4. f_equal. lia.
    + lia.
Qed.

(** X7: a Content-Disposition line written the usual way, with the name
    alone or with the name and the file name in either order, and values
    without a double quote, is read back: the two values are decoded and the
    offset is the length of the line with its CR LF, whatever follows. *)
Theorem readContentDisposition_canonical (name : list byte)
    (file : option (list byte)) (fileFirst : bool) (rest : list byte) :
  quoteUTF8 ∉ name → (∀ f, file = Some f → quoteUTF8 ∉ f) →
  readContentDisposition (dispositionLine name file fileFirst ++ rest)
  = Ret {| d_name := Some (decode name); d_filename := decode <$> file;
           d_offset := length (dispositionLine name file fileFirst) |}.
Proof. apply readContentDisposition_line. Qed.

End CanonicalDisposition.

(** ** Content transformer *)

Section MoreTransformer.
Context `{Platform} `{!Runtime}.

(** X8: a processor that the caller registers for a content type is the one
    applied to a part of that type, also when the type is one of the
    built-in ones; the entry keeps the content type and the file name. *)
Theorem caller_processor_wins (contentProcessors : gmap string processor)
    (contentType : string) (content : list byte) (filename : option string)
    (f : processor) :
  contentProcessors !! contentType = Some f →
  processContent (withDefaults contentProcessors) contentType content filename
  = d ← f content;
    Ret {| contentType := contentType; data_of := d; filename := filename |}.
Proof.
  intros E. unfold processContent, withDefaults.
  rewrite (lookup_union_Some_l _ _ _ _ E).
  rewrite bool_decide_eq_true_2 by (by eexists).
  by rewrite (lookup_union_Some_l _ _ _ _ E).
Qed.

(** X9: the built-in processors, when the caller has not replaced them: a
    [text/plain] body is decoded to a string, an [application/json] body is
    decoded and handed to [JSON.parse], whose exception is the outcome. *)
Theorem builtin_processors (contentProcessors : gmap string processor)
    (content : list byte) (filename : option string) :
  (contentProcessors !! "text/plain" = None →
   processContent (withDefaults contentProcessors) "text/plain" content
     filename
   = Ret {| contentType := "text/plain"; data_of := Str (decode content);
            filename := filename |})
  ∧ (contentProcessors !! "application/json" = None →
     processContent (withDefaults contentProcessors) "application/json"
       content filename
     = v ← JSON_parse (decode content);
       Ret {| contentType := "application/json"; data_of := Val v;
              filename := filename |}).
Proof.
  split; intros E; unfold processContent, withDefaults.
  - rewrite (lookup_union_r _ _ "text/plain") by done.
    rewrite bool_decide_eq_true_2 by (by eexists).
    by rewrite (lookup_union_r _ _ "text/plain") by done.
  - rewrite (lookup_union_r _ _ "application/json") by done.
    rewrite bool_decide_eq_true_2 by (by eexists).
    rewrite (lookup_union_r _ _ "application/json") by done.
    change (defaultProcessors !! "application/json")
      with (Some (fun content : list byte =>
                    v ← JSON_parse (decode content); Ret (Val v))).
    cbv beta iota. by destruct (JSON_parse (decode content)).
Qed.

End MoreTransformer.

(** ** Result aggregator *)

Section MoreAggregator.
Context `{Platform} `{!Runtime}.

(** X10: one call of [addContentToResult] touches the slot of the given
    name only.  Every other own property keeps its value; the slots keep
    the order of their creation and a new one goes last.  A name that is
    an own property, or that is found nowhere on the prototype chain,
    holds the new entry, alone or appended to what it held.  A member of
    [Object.prototype] other than [__proto__], on a result that owns no
    such name and has [Object.prototype] as its prototype, becomes the
    first element of a list that the entry follows.  The name [__proto__]
    creates no key. *)
Theorem addContentToResult_frame (result : ParseResult) (name : string)
    (content : entry) :
  (∀ other, other ≠ name →
     get (addContentToResult result name content) other = get result other)
  ∧ (addContentToResult result name content).*1
    = (if bool_decide (name ∈ result.*1) then result.*1
       else result.*1 ++ [name])
  ∧ ((get result name = None → chainValue result name = None) →
     get (addContentToResult result name content) name
     = merge1 (get result name) content)
  ∧ (get result name = None → get result "__proto__" = None →
     name ∈ objectPrototypeNames → name ≠ "__proto__" →
     get (addContentToResult result name content) name
     = Some (Headed (ObjectMember name) [content]))
  ∧ ownKeys (addContentToResult result "__proto__" content) = ownKeys result.
Proof.
  split; [intros other Hne; by apply get_add_ne|].
  split; [apply keys_add|]. split; [apply get_add_eq|]. split.
  - intros Hg Hp Hin Hne. unfold addContentToResult, chainValue, objectMember.
    rewrite Hg, Hp, bool_decide_eq_false_2 by done.
    rewrite bool_decide_eq_true_2 by done. apply get_set_eq.
  - unfold ownKeys. rewrite keys_add. case_bool_decide; [done|].
    rewrite filter_app, filter_cons_False by (by intros ?).
    by rewrite filter_nil, app_nil_r.
Qed.

End MoreAggregator.

(** ** The loops of the driver *)

Section MoreLoops.
Context `{Platform} `{!Runtime}.

Lemma bodyScan_no_Throw (fuel : nat) (a sep : list byte) (i : nat)
    (msg : string) :
  bodyScan fuel a sep i ≠ Throw msg.
Proof.
  revert i. induction fuel as [|fuel IH]; intros i; [done|]. simpl.
  destruct (negb _); [apply IH|done].
Qed.

Lemma bodyScan_Ret_first (fuel : nat) (a sep : list byte) (i l : nat) :
  sep ≠ [] → bodyScan fuel a sep i = Ret l →
  i + 2 ≤ l ∧ delimiterAt a sep l
  ∧ ∀ l', i + 2 ≤ l' < l → ¬ delimiterAt a sep l'.
Proof.
  intros Hsep. revert i. induction fuel as [|fuel IH]; intros i; [done|].
  intros Hrun.
  pose proof (bodyScan_result _ _ _ _ _ Hsep Hrun) as (Hge & Hlen & Hs).
  assert (0 < length sep) as Hpos by (destruct sep; [done|simpl; lia]).
  destruct (getLineEndIdx_spec a i) as [Hr Hfirst].
  simpl in Hrun. set (r := getLineEndIdx a i) in *.
  assert (r < length a) as Hrlt by lia.
  assert (i ≤ r ∧ crlfAt a r) as [Hir Hc]
    by (destruct Hr as [?|[? ?]]; [lia|done]).
  destruct (startsWithArrayPrefix (drop (r + 2) a) sep) eqn:Es;
    simpl in Hrun.
  - injection Hrun as <-. split; [lia|]. split.
    + split; [lia|]. split; [|done].
      by replace (r + 2 - 2) with r by lia.
    + intros l' Hl' (_ & Hc' & _). apply (Hfirst (l' - 2)); [lia|done].
  - apply IH in Hrun as (Hl & Hd & Hnone). split; [lia|]. split; [done|].
    intros l' Hl' Hd'. pose proof Hd' as (_ & Hc' & Hs').
    destruct (decide (l' - 2 < r)) as [Hlt|Hnlt].
    { apply (Hfirst (l' - 2)); [lia|done]. }
    destruct (decide (l' = r + 2)) as [->|Hne]; [congruence|].
    destruct (decide (l' = r + 3)) as [->|Hne'].
    { destruct Hc as [_ Hc], Hc' as [Hc' _].
      replace (r + 3 - 2) with (S r) in Hc' by lia. congruence. }
    apply (Hnone l'); [lia|done].
Qed.

Lemma bodyScan_finds (fuel : nat) (a sep : list byte) (i l : nat) :
  i + 2 ≤ l → delimiterAt a sep l →
  (∀ l', i + 2 ≤ l' < l → ¬ delimiterAt a sep l') →
  l ≤ i + fuel →
  bodyScan fuel a sep i = Ret l.
Proof.
  revert i. induction fuel as [|fuel IH]; intros i Hl Hd Hnone Hfuel; [lia|].
  pose proof Hd as (_ & Hc & Hs).
  destruct (getLineEndIdx_spec a i) as [Hr Hfirst].
  simpl. set (r := getLineEndIdx a i) in *.
  assert (r ≤ l - 2) as Hrl.
  { destruct (decide (r ≤ l - 2)) as [|Hgt]; [done|].
    exfalso. apply (Hfirst (l - 2)); [lia|done]. }
  assert (i ≤ r ∧ crlfAt a r) as [Hir Hcr].
  { destruct Hr as [->|[? ?]]; [|done]. apply crlfAt_lt in Hc. lia. }
  destruct (decide (r = l - 2)) as [Er|Hne].
  - replace (r + 2) with l by lia. by rewrite Hs.
  - assert (r + 2 ≤ l - 2) as Hrl'.
    { destruct (decide (l - 2 = r + 1)) as [E1|]; [|lia].
      destruct Hcr as [_ Hcr], Hc as [Hc _]. rewrite E1 in Hc.
      replace (r + 1) with (S r) in Hc by lia. congruence. }
    destruct (startsWithArrayPrefix (drop (r + 2) a) sep) eqn:Es.
    { exfalso. apply (Hnone (r + 2)); [lia|]. split; [lia|]. split; [|done].
      by replace (r + 2 - 2) with r by lia. }
    simpl. apply IH; [lia|done| |lia].
    intros l' Hl'. apply Hnone. lia.
Qed.

(** X11: the body loop returns the first position, two or more past its
    start, at which a CR LF pair ends and the delimiter begins; it never
    raises; and where no such position exists it does not end, whatever the
    fuel: the loop has no test for the end of the buffer. *)
Theorem bodyScan_first_delimiter (a sep : list byte) (i : nat) :
  sep ≠ [] →
  (∀ l, (∃ fuel, bodyScan fuel a sep i = Ret l)
        ↔ i + 2 ≤ l ∧ delimiterAt a sep l
          ∧ ∀ l', i + 2 ≤ l' < l → ¬ delimiterAt a sep l')
  ∧ (∀ fuel msg, bodyScan fuel a sep i ≠ Throw msg)
  ∧ ((∀ l, i + 2 ≤ l → ¬ delimiterAt a sep l) →
     ∀ fuel, bodyScan fuel a sep i = Timeout).
Proof.
  intros Hsep. split; [|split].
  - intros l. split.
    + intros [fuel Hrun]. by apply (bodyScan_Ret_first fuel).
    + intros (Hl & Hd & Hnone). exists l.
      apply bodyScan_finds; [done..|lia].
  - intros fuel msg. apply bodyScan_no_Throw.
  - intros Hnone fuel.
    destruct (bodyScan fuel a sep i) as [l|msg|] eqn:E; [| |done].
    + apply bodyScan_Ret_first in E as (Hl & Hd & _); [|done].
      by apply Hnone in Hd.
    + by apply bodyScan_no_Throw in E.
Qed.

Lemma skipPreamble_finds (fuel : nat) (array sep : list byte) (s : nat)
    (ls : list (list byte)) (l : list byte) (rest : list (list byte)) :
  sep ≠ [] → s ≤ length array →
  crlfLines (drop s array) = ls ++ l :: rest →
  Forall (fun x => startsWithArrayPrefix x sep = false) ls →
  startsWithArrayPrefix l sep = true →
  length ls < fuel →
  skipPreamble fuel array sep s
  = Ret (s + length (preambleOf ls) + length l + 2).
Proof.
  intros Hsep. revert s ls.
  induction fuel as [|fuel IH]; intros s ls Hs Hlines Hall Hl Hfuel; [lia|].
  simpl. destruct (getLineEndIdx_spec array s) as [Hr Hfirst].
  set (r := getLineEndIdx array s) in *.
  destruct (decide (r < length array)) as [Hlt|Hnc].
  - assert (crlfAt array r ∧ s ≤ r) as [Hc Hle]
      by (destruct Hr as [?|[? ?]]; [lia|done]).
    rewrite (crlfLines_first _ (r - s)) in Hlines.
    2:{ apply crlfAt_drop. by replace (s + (r - s)) with r by lia. }
    2:{ intros j Hj Hcj. apply crlfAt_drop in Hcj.
        apply (Hfirst (s + j)); [lia|done]. }
    assert (length (take (r - s) (drop s array)) = r - s) as Hlen.
    { rewrite length_take, length_drop. lia. }
    destruct ls as [|l0 ls'].
    + injection Hlines as <- _. unfold subarray. rewrite Hl. simpl.
      f_equal. rewrite Hlen. lia.
    + injection Hlines as <- Hrest.
      apply Forall_cons in Hall as [Hl0 Hall].
      unfold subarray. rewrite Hl0. simpl.
      rewrite drop_drop in Hrest.
      replace (s + (r - s + 2)) with (r + 2) in Hrest by lia.
      destruct (r + 2 <? length array) eqn:Elt.
      * apply Nat.ltb_lt in Elt.
        rewrite (IH (r + 2) ls') by (done || simpl in *; lia).
        f_equal. unfold preambleOf. simpl. rewrite !length_app, Hlen.
        simpl. lia.
      * apply Nat.ltb_ge in Elt. rewrite drop_ge in Hrest by lia.
        simpl in Hrest. destruct ls' as [|? [|? ?]]; [|done..].
        injection Hrest as <- _. by rewrite startsWith_nil in Hl.
  - assert (r = length array) as Er
      by (pose proof (getLineEndIdx_le array s); unfold r in *; lia).
    rewrite crlfLines_single in Hlines.
    2:{ intros j Hcj. apply crlfAt_drop in Hcj.
        destruct (decide (s + j < r)) as [Hlt|Hge].
        - apply (Hfirst (s + j)); [lia|done].
        - apply crlfAt_lt in Hcj. lia. }
    destruct ls as [|l0 [|? ?]]; [|done..].
    injection Hlines as <- _.
    unfold subarray. rewrite take_ge by (rewrite length_drop; lia).
    rewrite Hl. simpl. f_equal. rewrite length_drop. lia.
Qed.

(** X12: the preamble loop stops after the first line (split at CR LF) that
    starts with the delimiter: the parts begin two bytes past the end of
    that line. *)
Theorem skipPreamble_first_delimiter_line (fuel : nat)
    (array sep : list byte) (ls : list (list byte)) (l : list byte)
    (rest : list (list byte)) :
  sep ≠ [] →
  crlfLines array = ls ++ l :: rest →
  Forall (fun x => startsWithArrayPrefix x sep = false) ls →
  startsWithArrayPrefix l sep = true →
  length ls < fuel →
  skipPreamble fuel array sep 0
  = Ret (length (preambleOf ls) + length l + 2).
Proof.
  intros Hsep Hlines Hall Hl Hfuel.
  by rewrite (skipPreamble_finds fuel array sep 0 ls l rest)
    by (done || lia || by rewrite drop_0).
Qed.

Lemma skipPreamble_ends (fuel : nat) (array sep : list byte) (s : nat) :
  length array - s < fuel → skipPreamble fuel array sep s ≠ Timeout.
Proof.
  revert s. induction fuel as [|fuel IH]; intros s Hfuel; [lia|]. simpl.
  destruct (negb _ && _) eqn:Ec; [|done].
  apply andb_true_iff in Ec as [_ Hlt%Nat.ltb_lt]. apply IH.
  assert (getLineEndIdx array s + 2 ≤ length array) as Hle by lia.
  assert (s ≤ getLineEndIdx array s); [|lia].
  destruct (decide (s ≤ length array)) as [Hs|Hs].
  - by apply getLineEndIdx_ge.
  - rewrite getLineEndIdx_past in Hle by lia. lia.
Qed.


Lemma headerMore_true (array : list byte) (s : nat) :
  s < length array → ¬ crlfAt array s → headerMore array s = true.
Proof.
  intros Hs Hc. destruct (headerMore array s) eqn:E; [done|].
  by apply headerMore_false in E.
Qed.

Lemma headerMore_crlf (array : list byte) (s : nat) :
  crlfAt array s ∨ length array ≤ s → headerMore array s = false.
Proof.
  unfold headerMore. intros [[E1 E2]|Hs].
  - rewrite Nat.add_1_r, E1, E2. done.
  - rewrite (proj2 (Nat.ltb_ge _ _)) by done. apply andb_false_r.
Qed.

Lemma headerStep_other (array : list byte) (h : headers) :
  startsWithArrayPrefix (drop (h_startIdx h) array)
    contentDispositionPrefixUTF8 = false →
  startsWithArrayPrefix (drop (h_startIdx h) array)
    contentTypePrefixUTF8 = false →
  headerStep array h
  = Ret {| h_startIdx := h_startIdx h + 1; h_name := h_name h;
           h_contentType := h_contentType h; h_filename := h_filename h |}.
Proof.
  intros E1 E2. unfold headerStep. by rewrite E1, E2, !andb_false_r.
Qed.

(** X14: where the bytes start neither a Content-Disposition nor a
    Content-Type header, the header loop goes on one byte at a time and
    stops at the first CR LF pair after its first step, or at the end of
    the buffer, with the header variables unchanged: the end of a line it
    does not know ends the header block like an empty line. *)
Theorem readHeaders_unrecognised (fuel : nat) (array : list byte)
    (h : headers) (k : nat) :
  0 < k → k ≤ fuel → h_startIdx h + k ≤ length array →
  (∀ j, j < k →
     startsWithArrayPrefix (drop (h_startIdx h + j) array)
       contentDispositionPrefixUTF8 = false
     ∧ startsWithArrayPrefix (drop (h_startIdx h + j) array)
         contentTypePrefixUTF8 = false) →
  (∀ j, 0 < j < k → ¬ crlfAt array (h_startIdx h + j)) →
  crlfAt array (h_startIdx h + k) ∨ h_startIdx h + k = length array →
  readHeaders fuel array h
  = Ret {| h_startIdx := h_startIdx h + k; h_name := h_name h;
           h_contentType := h_contentType h; h_filename := h_filename h |}.
Proof.
  revert h k.
  induction fuel as [|fuel IH]; intros h k Hk Hfuel Hlen Hother Hno Hend;
    [lia|].
  simpl. destruct (Hother 0 Hk) as [E1 E2]. rewrite Nat.add_0_r in E1, E2.
  rewrite headerStep_other by done. rewrite bind_Ret. cbn [h_startIdx].
  destruct (decide (k = 1)) as [->|Hk1].
  - rewrite headerMore_crlf; [done|]. destruct Hend as [?|?]; [by left|].
    right. lia.
  - rewrite headerMore_true by (try lia; apply Hno; lia).
    rewrite (IH _ (k - 1)); cbn [h_startIdx h_name h_contentType h_filename].
    + do 2 f_equal. lia.
    + lia.
    + lia.
    + lia.
    + intros j Hj. replace (h_startIdx h + 1 + j)
        with (h_startIdx h + S j) by lia. apply Hother. lia.
    + intros j Hj. replace (h_startIdx h + 1 + j)
        with (h_startIdx h + S j) by lia. apply Hno. lia.
    + by replace (h_startIdx h + 1 + (k - 1)) with (h_startIdx h + k) by lia.
Qed.

End MoreLoops.

(** ** The exceptions of a call *)

Section MoreErrors.
Context `{Platform} `{!Runtime}.

Lemma skipPreamble_no_Throw (fuel : nat) (array sep : list byte) (s : nat)
    (msg : string) :
  skipPreamble fuel array sep s ≠ Throw msg.
Proof.
  revert s. induction fuel as [|fuel IH]; intros s; [done|]. simpl.
  destruct (_ && _); [apply IH|done].
Qed.


Lemma processContent_Throw (contentProcessors : gmap string processor)
    (contentType : string) (content : list byte) (filename : option string)
    (msg : string) :
  processContent (withDefaults contentProcessors) contentType content filename
  = Throw msg →
  (∃ key f, withDefaults contentProcessors !! key = Some f
            ∧ f content = Throw msg)
  ∨ (∃ key, key ∈ objectPrototypeNames
            ∧ withDefaults contentProcessors !! key = None
            ∧ Object_prototype_call key (withDefaults contentProcessors)
                content = Throw msg).
Proof.
  unfold processContent.
  set (key := if _ || _ then contentType else "default").
  destruct (withDefaults contentProcessors !! key) as [f|] eqn:Ef.
  - intros E. left. exists key, f. split; [done|].
    destruct (f content) as [d|msg'|]; [done| |done]. by injection E as <-.
  - case_bool_decide as Hin.
    + intros E. right. exists key. split; [done|]. split; [done|].
      destruct (Object_prototype_call _ _ _) as [d|msg'|]; [done| |done].
      by injection E as <-.
    + intros _. exfalso. unfold key in Ef, Hin.
      destruct (bool_decide (is_Some _)) eqn:E1; cbn [orb] in *.
      * apply bool_decide_eq_true in E1. rewrite Ef in E1. by destruct E1.
      * case_bool_decide; [done|].
        pose proof (withDefaults_default contentProcessors) as Hd.
        rewrite Ef in Hd. by destruct Hd.
Qed.

Lemma partStep_Throw (fuel : nat) (array sep : list byte)
    (contentProcessors : gmap string processor) (st : scan) (msg : string) :
  partStep fuel array sep (withDefaults contentProcessors) st = Throw msg →
  msg = missingFieldError ∨ msg ∈ structuralErrors
  ∨ (∃ key f b e, withDefaults contentProcessors !! key = Some f
                  ∧ f (subarray array b e) = Throw msg)
  ∨ (∃ key b e, key ∈ objectPrototypeNames
                ∧ withDefaults contentProcessors !! key = None
                ∧ Object_prototype_call key (withDefaults contentProcessors)
                    (subarray array b e) = Throw msg).
Proof.
  unfold partStep.
  destruct (readHeaders fuel array _) as [h|msg'|] eqn:Eh; simpl; [| |done].
  2:{ intros [= <-]. right. left. by apply readHeaders_Throw in Eh. }
  destruct (h_name h) as [name|]; [|intros [= <-]; by left].
  case_bool_decide; [intros [= <-]; by left|].
  destruct (bodyScan fuel array sep _) as [l|msg'|] eqn:El; simpl; [| |done].
  2:{ by apply bodyScan_no_Throw in El. }
  destruct (processContent _ _ _ _) as [content|msg'|] eqn:Ec; simpl;
    [by destruct (_ && _)| |done].
  intros [= <-]. right. right.
  apply processContent_Throw in Ec
    as [(key & f & Hf & Hthrow)|(key & Hin & Hf & Hthrow)].
  - left. by exists key, f, (h_startIdx h + 1 + 1), (l - 2).
  - right. by exists key, (h_startIdx h + 1 + 1), (l - 2).
Qed.

Lemma partsLoop_Throw (fuel : nat) (array sep : list byte)
    (contentProcessors : gmap string processor) (st : scan) (msg : string) :
  partsLoop fuel array sep (withDefaults contentProcessors) st = Throw msg →
  msg = missingFieldError ∨ msg ∈ structuralErrors
  ∨ (∃ key f b e, withDefaults contentProcessors !! key = Some f
                  ∧ f (subarray array b e) = Throw msg)
  ∨ (∃ key b e, key ∈ objectPrototypeNames
                ∧ withDefaults contentProcessors !! key = None
                ∧ Object_prototype_call key (withDefaults contentProcessors)
                    (subarray array b e) = Throw msg).
Proof.
  revert st. induction fuel as [|fuel IH]; intros st; simpl.
  { by destruct (negb _). }
  destruct (negb _); [done|].
  destruct (partStep fuel array sep _ st) as [[st'|st']|msg'|] eqn:Ep;
    simpl; [apply IH|done| |done].
  intros [= <-]. by apply partStep_Throw in Ep.
Qed.

(** X15: the exceptions of a call.  [parseMultipartFormData] raises the
    missing-name error, one of the two errors of the Content-Disposition
    scan, what a processor of the effective registry raised on a slice of
    the input, or what the call of a member of [Object.prototype], found
    under a content type that the registry does not own, raised on such a
    slice; nothing else. *)
Theorem parse_errors (fuel : nat) (array : list byte) (boundary : string)
    (contentProcessors : gmap string processor) (msg : string) :
  parseMultipartFormData fuel array boundary contentProcessors = Throw msg →
  msg = missingFieldError ∨ msg ∈ structuralErrors
  ∨ (∃ key f b e, withDefaults contentProcessors !! key = Some f
                  ∧ f (subarray array b e) = Throw msg)
  ∨ (∃ key b e, key ∈ objectPrototypeNames
                ∧ withDefaults contentProcessors !! key = None
                ∧ Object_prototype_call key (withDefaults contentProcessors)
                    (subarray array b e) = Throw msg).
Proof.
  unfold parseMultipartFormData.
  destruct (skipPreamble fuel array _ 0) as [s|msg'|] eqn:Es; simpl;
    [| |done].
  2:{ by apply skipPreamble_no_Throw in Es. }
  destruct (partsLoop fuel array _ _ _) as [st|msg'|] eqn:El; simpl;
    [done| |done].
  intros [= <-]. by apply partsLoop_Throw in El.
Qed.

End MoreErrors.

(** ** The loops that end *)

Lemma delimiterAt_lt (a sep : list byte) (l : nat) :
  sep ≠ [] → delimiterAt a sep l → l < length a.
Proof.
  intros Hsep (_ & _ & Hs). destruct (decide (l < length a)); [done|].
  rewrite drop_ge, startsWith_nil in Hs by (done || lia). done.
Qed.

Lemma first_delimiter (a sep : list byte) (i l : nat) :
  i ≤ l → delimiterAt a sep l →
  ∃ l0, i ≤ l0 ≤ l ∧ delimiterAt a sep l0
        ∧ ∀ l', i ≤ l' < l0 → ¬ delimiterAt a sep l'.
Proof.
  remember (l - i) as n eqn:En. revert i En.
  induction n as [|n IH]; intros i En Hle Hd.
  - exists l. split; [lia|]. split; [done|]. intros l' Hl'. lia.
  - destruct (decide (delimiterAt a sep i)) as [Hi|Hi].
    + exists i. split; [lia|]. split; [done|]. intros l' Hl'. lia.
    + destruct (IH (S i)) as (l0 & Hl0 & Hd0 & Hnone); [lia|lia|done|].
      exists l0. split; [lia|]. split; [done|]. intros l' Hl'.
      destruct (decide (l' = i)) as [->|]; [done|]. apply Hnone. lia.
Qed.

Section LoopsEnd.
Context `{Platform} `{!Runtime}.

Lemma bodyScan_Timeout_none (fuel : nat) (a sep : list byte) (i : nat) :
  sep ≠ [] → length a ≤ i + fuel →
  bodyScan fuel a sep i = Timeout →
  ∀ l, i + 2 ≤ l → ¬ delimiterAt a sep l.
Proof.
  intros Hsep Hfuel Hrun l Hl Hd.
  destruct (first_delimiter a sep (i + 2) l Hl Hd) as (l0 & Hl0 & Hd0 & Hnone).
  pose proof (delimiterAt_lt a sep l0 Hsep Hd0) as Hlt.
  rewrite (bodyScan_finds fuel a sep i l0) in Hrun; [done|lia|done|done|lia].
Qed.

(** The outer loop, entered with fuel for one pass per byte that is left,
    stops short of an answer only inside a part: in the body loop of a part
    after which no delimiter line comes, or in the processor of a part. *)
Lemma partsLoop_Timeout_inv (f fuel : nat) (array sep : list byte)
    (procs : gmap string processor) (st : scan) :
  sep ≠ [] → f ≤ fuel →
  Reaches fuel array sep procs st →
  startIdx st ≤ lineEndIdx st →
  length array + 2 ≤ f + startIdx st →
  partsLoop f array sep procs st = Timeout →
  ∃ st' h name,
    Reaches fuel array sep procs st'
    ∧ startIdx st' < length array
    ∧ readHeaders fuel array (newPart (lineEndIdx st')) = Ret h
    ∧ h_name h = Some name ∧ name ≠ ""
    ∧ ((∀ l, h_startIdx h + 3 ≤ l → ¬ delimiterAt array sep l)
       ∨ ∃ l, bodyScan fuel array sep (h_startIdx h + 1) = Ret l
              ∧ processContent procs (default "text/plain" (h_contentType h))
                  (subarray array (h_startIdx h + 1 + 1) (l - 2))
                  (h_filename h)
                = Timeout).
Proof.
  intros Hsep. revert st.
  induction f as [|f IH]; intros st Hle Hreach Hinv Hfuel; simpl.
  { rewrite (proj2 (Nat.ltb_ge _ _)) by lia. done. }
  destruct (startIdx st <? length array) eqn:Elt; [|done].
  apply Nat.ltb_lt in Elt. cbn [negb].
  destruct (partStep f array sep procs st) as [[st1|st1]|msg|] eqn:Ep;
    simpl; [|done..|].
  - assert (partStep fuel array sep procs st = Ret (Next st1)) as Ep'.
    { rewrite (partStep_mono f fuel) by (lia || by rewrite Ep). done. }
    destruct (partStep_progress _ _ _ _ _ _ Hsep Ep) as (Hp & _ & Hn).
    specialize (Hn st1 eq_refl). simpl in Hp.
    apply IH; [lia| |lia|lia].
    by apply (Reaches_next _ _ _ _ st).
  - intros _. unfold partStep in Ep.
    destruct (readHeaders f array (newPart (lineEndIdx st)))
      as [h|msg|] eqn:Eh; simpl in Ep; [|done|].
    2:{ exfalso. revert Eh. apply readHeaders_ends. simpl. lia. }
    destruct (h_name h) as [name|] eqn:En; [|done].
    case_bool_decide as Hname; [done|].
    pose proof (readHeaders_progress _ _ _ _ Eh) as Hprog. simpl in Hprog.
    assert (readHeaders fuel array (newPart (lineEndIdx st)) = Ret h) as Eh'.
    { rewrite (readHeaders_mono f fuel) by (lia || by rewrite Eh). done. }
    exists st, h, name. do 5 (split; [done|]).
    destruct (bodyScan f array sep (h_startIdx h + 1)) as [l|msg|] eqn:El;
      simpl in Ep.
    + right. exists l. split.
      { rewrite (bodyScan_mono f fuel) by (lia || by rewrite El). done. }
      destruct (processContent _ _ _ _) as [content|msg|]; simpl in Ep;
        [by destruct (_ && _)|done..].
    + by apply bodyScan_no_Throw in El.
    + left. intros l Hl.
      apply (bodyScan_Timeout_none f array sep (h_startIdx h + 1));
        [done|lia|done|lia].
Qed.

(** X13: which loops end.  The preamble loop and the header loop end
    within one pass per byte that is left, and [readContentDisposition]
    always answers.  The outer loop ends too, unless a part keeps it: a
    call that has fuel for one pass per byte of the buffer and still gives
    no answer has reached, at the guard of the outer loop, a part whose
    header block gave a name and after which either no CR LF pair is
    followed by the delimiter, so that the body loop runs for ever, or the
    processor called on the body gives no answer. *)
Theorem preamble_and_header_loops_end (fuel : nat) (array sep : list byte)
    (s : nat) (h : headers) :
  (length array - s < fuel → skipPreamble fuel array sep s ≠ Timeout)
  ∧ (length array - h_startIdx h < fuel →
     readHeaders fuel array h ≠ Timeout)
  ∧ readContentDisposition array ≠ Timeout
  ∧ (∀ (boundary : string) (contentProcessors : gmap string processor),
       length array < fuel →
       parseMultipartFormData fuel array boundary contentProcessors
       = Timeout →
       ∃ st h' name,
         Reaches fuel array (separatorOf boundary)
           (withDefaults contentProcessors) st
         ∧ startIdx st < length array
         ∧ readHeaders fuel array (newPart (lineEndIdx st)) = Ret h'
         ∧ h_name h' = Some name ∧ name ≠ ""
         ∧ ((∀ l, h_startIdx h' + 3 ≤ l →
                  ¬ delimiterAt array (separatorOf boundary) l)
            ∨ ∃ l, bodyScan fuel array (separatorOf boundary)
                     (h_startIdx h' + 1) = Ret l
                   ∧ processContent (withDefaults contentProcessors)
                       (default "text/plain" (h_contentType h'))
                       (subarray array (h_startIdx h' + 1 + 1) (l - 2))
                       (h_filename h')
                     = Timeout)).
Proof.
  split; [apply skipPreamble_ends|]. split; [apply readHeaders_ends|].
  split; [apply readContentDisposition_no_timeout|].
  intros boundary contentProcessors Hfuel. unfold parseMultipartFormData.
  destruct (skipPreamble fuel array (separatorOf boundary) 0)
    as [s0|msg|] eqn:Es; simpl.
  - destruct (partsLoop fuel array _ _ (firstPart s0)) as [st|msg|] eqn:El;
      simpl; [done..|]. intros _.
    apply skipPreamble_result in Es as Hs0.
    apply (partsLoop_Timeout_inv fuel fuel array _ _ (firstPart s0));
      [apply separatorOf_nonempty|done|by constructor|done|simpl; lia|done].
  - done.
  - exfalso. revert Es. apply skipPreamble_ends. lia.
Qed.

End LoopsEnd.


(** ** Payloads as a sender writes them *)

Lemma agree_app (x tail : list byte) : agree (length x) x (x ++ tail).
Proof.
  split; [|split].
  - by rewrite take_app_length, take_ge by lia.
  - done.
  - rewrite length_app. lia.
Qed.

Lemma crlfAt_app_l (x tail : list byte) (j : nat) :
  S j < length x → crlfAt (x ++ tail) j ↔ crlfAt x j.
Proof.
  intros Hj. unfold crlfAt. by rewrite !lookup_app_l by lia.
Qed.

Lemma crlfAt_middle (x rest : list byte) :
  crlfAt (x ++ x0d :: x0a :: rest) (length x).
Proof.
  split.
  - by rewrite list_lookup_middle.
  - rewrite (cons_middle x0d), app_assoc.
    rewrite list_lookup_middle; [done|]. rewrite length_app. simpl. lia.
Qed.

Lemma no_crlf_cons (b : byte) (t : list byte) :
  b ≠ x0d → (∀ j, ¬ crlfAt t j) → ∀ j, ¬ crlfAt (b :: t) j.
Proof.
  intros Hb Ht [|j] Hc.
  - destruct Hc as [Hc _]. simpl in Hc. congruence.
  - by apply crlfAt_cons, Ht in Hc.
Qed.

Section RenderedHeaders.
Context `{Platform} `{!Runtime}.

Lemma readHeaders_S (fuel : nat) (array : list byte) (h : headers) :
  readHeaders (S fuel) array h
  = h' ← headerStep array h;
    if headerMore array (h_startIdx h') then readHeaders fuel array h'
    else Ret h'.
Proof. reflexivity. Qed.

Lemma headerStep_disposition (pre rest name : list byte)
    (file : option (list byte)) (fileFirst : bool) (h : headers) :
  h_startIdx h = length pre → falsy (h_name h) = true →
  quoteUTF8 ∉ name → (∀ f, file = Some f → quoteUTF8 ∉ f) →
  headerStep (pre ++ dispositionLine name file fileFirst ++ rest) h
  = Ret {| h_startIdx :=
             length pre + length (dispositionLine name file fileFirst);
           h_name := Some (decode name); h_contentType := h_contentType h;
           h_filename := decode <$> file |}.
Proof.
  intros Hs Hn Hq Hf. unfold headerStep. rewrite Hs, Hn, drop_app_length.
  assert (startsWithArrayPrefix
            (dispositionLine name file fileFirst ++ rest)
            contentDispositionPrefixUTF8 = true) as ->.
  { apply startsWith_app. unfold dispositionLine. rewrite <- app_assoc.
    eauto. }
  cbn [andb]. rewrite readContentDisposition_line by done.
  by rewrite bind_Ret.
Qed.

Lemma headerStep_typed (pre rest t : list byte) (c : byte) (h : headers) :
  h_startIdx h = length pre → falsy (h_contentType h) = true →
  (∀ j, ¬ crlfAt (c :: t) j) →
  headerStep (pre ++ contentTypePrefixUTF8 ++ c :: t ++ x0d :: x0a :: rest) h
  = Ret {| h_startIdx := length pre + (length t + 16);
           h_name := h_name h; h_contentType := Some (decode t);
           h_filename := h_filename h |}.
Proof.
  intros Hs Hct Ht. unfold headerStep. rewrite Hs, Hct, drop_app_length.
  assert (startsWithArrayPrefix
            (contentTypePrefixUTF8 ++ c :: t ++ x0d :: x0a :: rest)
            contentDispositionPrefixUTF8 = false) as ->.
  { apply not_true_is_false. intros [r E]%startsWith_app.
    simpl in E. discriminate. }
  rewrite (proj2 (startsWith_app _ contentTypePrefixUTF8)) by eauto.
  rewrite andb_false_r. cbn [andb].
  assert (pre ++ contentTypePrefixUTF8 ++ c :: t ++ x0d :: x0a :: rest
          = (pre ++ contentTypePrefixUTF8)
            ++ (c :: t) ++ x0d :: x0a :: rest) as ->
    by (by rewrite <- app_assoc).
  assert (length pre + length contentTypePrefixUTF8
          = length (pre ++ contentTypePrefixUTF8) + 0) as ->
    by (rewrite length_app; lia).
  rewrite getLineEndIdx_shift, getLineEndIdx_line by done.
  f_equal. f_equal.
  - rewrite length_app. simpl. lia.
  - do 2 f_equal.
    change ((c :: t) ++ ?l) with ([c] ++ t ++ l).
    rewrite (app_assoc _ [c]).
    apply subarray_app; rewrite !length_app; simpl; lia.
Qed.

(** X17: the value of a Content-Type header is what stands between the
    second byte after the colon and the CR LF of the line.  The byte after
    [Content-Type:] is dropped without being examined: a header written
    without the space loses the first byte of its value. *)
Theorem contentType_value (pre rest t : list byte) (c : byte) (h : headers) :
  h_startIdx h = length pre → falsy (h_contentType h) = true →
  (∀ j, ¬ crlfAt (c :: t) j) →
  headerStep (pre ++ contentTypePrefixUTF8 ++ c :: t ++ x0d :: x0a :: rest) h
  = Ret {| h_startIdx := length pre + (length t + 16);
           h_name := h_name h; h_contentType := Some (decode t);
           h_filename := h_filename h |}.
Proof. apply headerStep_typed. Qed.

Lemma headerStep_contentType (pre rest t : list byte) (h : headers) :
  h_startIdx h = length pre → falsy (h_contentType h) = true →
  (∀ j, ¬ crlfAt t j) →
  headerStep (pre ++ contentTypeLine t ++ rest) h
  = Ret {| h_startIdx := length pre + length (contentTypeLine t);
           h_name := h_name h; h_contentType := Some (decode t);
           h_filename := h_filename h |}.
Proof.
  intros Hs Hct Ht.
  assert (pre ++ contentTypeLine t ++ rest
          = pre ++ contentTypePrefixUTF8
            ++ x20 :: t ++ x0d :: x0a :: rest) as ->
    by (unfold contentTypeLine; by flatten_app).
  rewrite headerStep_typed by (done || by apply no_crlf_cons).
  do 3 f_equal. unfold contentTypeLine. rewrite length_app. simpl.
  rewrite length_app. simpl. lia.
Qed.

Lemma headerMore_byte (array : list byte) (s : nat) (b : byte) :
  array !! s = Some b → b ≠ x0d → headerMore array s = true.
Proof.
  intros E Hb. apply headerMore_true.
  - by apply lookup_lt_Some in E.
  - intros [Hc _]. congruence.
Qed.

Lemma dispositionLine_head (name : list byte) (file : option (list byte))
    (fileFirst : bool) (rest : list byte) :
  (dispositionLine name file fileFirst ++ rest) !! 0 = Some x43.
Proof. done. Qed.

Lemma contentTypeLine_head (t rest : list byte) :
  (contentTypeLine t ++ rest) !! 0 = Some x43.
Proof. done. Qed.

(** The header loop on the header lines of a part, from [length pre]. *)
Lemma readHeaders_rendered (fuel : nat) (pre rest sep : list byte)
    (p : part) :
  2 ≤ fuel → wellFormed sep p →
  readHeaders fuel (pre ++ headerLines p ++ x0d :: x0a :: rest)
    (newPart (length pre))
  = Ret {| h_startIdx := length pre + length (headerLines p);
           h_name := Some (decode (p_name p));
           h_contentType := decode <$> p_type p;
           h_filename := decode <$> p_file p |}.
Proof.
  intros Hfuel (Hq & Hf & Hne & Ht & _).
  destruct fuel as [|[|fuel]]; [lia..|].
  unfold headerLines. cbv zeta.
  destruct (p_type p) as [t|] eqn:Et; [destruct (p_typeFirst p)|].
  - specialize (Ht t eq_refl).
    rewrite <- (app_assoc (contentTypeLine t)).
    rewrite readHeaders_S, headerStep_contentType by done.
    rewrite bind_Ret. cbn [h_startIdx newPart h_name h_filename].
    rewrite (headerMore_byte _ _ x43); [|
      rewrite app_assoc, <- length_app, <- (Nat.add_0_r (length _)),
        lookup_shift; apply dispositionLine_head | done].
    rewrite (app_assoc pre (contentTypeLine t)).
    rewrite readHeaders_S, headerStep_disposition
      by (done || by rewrite length_app).
    rewrite bind_Ret. cbn [h_startIdx h_contentType].
    rewrite headerMore_crlf.
    + do 2 f_equal. rewrite !length_app. lia.
    + left. rewrite !app_assoc, <- !length_app. apply crlfAt_middle.
  - specialize (Ht t eq_refl).
    rewrite <- (app_assoc _ (contentTypeLine t)).
    rewrite readHeaders_S, headerStep_disposition by done.
    rewrite bind_Ret. cbn [h_startIdx newPart h_contentType].
    rewrite (headerMore_byte _ _ x43); [|
      rewrite app_assoc, <- length_app, <- (Nat.add_0_r (length _)),
        lookup_shift; apply contentTypeLine_head | done].
    rewrite (app_assoc pre (dispositionLine _ _ _)).
    rewrite readHeaders_S, headerStep_contentType
      by (done || by rewrite length_app).
    rewrite bind_Ret. cbn [h_startIdx h_name h_filename].
    rewrite headerMore_crlf.
    + do 2 f_equal. rewrite !length_app. lia.
    + left. rewrite !app_assoc, <- !length_app. apply crlfAt_middle.
  - rewrite readHeaders_S, headerStep_disposition by done.
    rewrite bind_Ret. cbn [h_startIdx newPart h_contentType].
    rewrite headerMore_crlf; [done|].
    left. rewrite !app_assoc, <- !length_app. apply crlfAt_middle.
Qed.

End RenderedHeaders.

Section RenderedParts.
Context `{Platform} `{!Runtime}.

(** The body loop on a body that its CR LF and the delimiter close, from
    the LF of the empty line. *)
Lemma bodyScan_body (fuel : nat) (pre body sep tail : list byte) :
  (∀ l, l < length body + 2 →
        ¬ delimiterAt (body ++ x0d :: x0a :: sep) sep l) →
  length body + 3 ≤ fuel →
  bodyScan fuel (pre ++ x0a :: body ++ x0d :: x0a :: sep ++ tail) sep
    (length pre + 0)
  = Ret (length pre + (length body + 3)).
Proof.
  intros Hclean Hfuel. rewrite bodyScan_shift.
  rewrite (bodyScan_finds fuel _ sep 0 (length body + 3)); [done|lia| | |lia].
  - split; [lia|]. split.
    + replace (length body + 3 - 2) with (length (x0a :: body))
        by (simpl; lia).
      change (x0a :: body ++ ?l) with ((x0a :: body) ++ l).
      apply crlfAt_middle.
    + apply startsWith_app. exists tail.
      assert (x0a :: body ++ x0d :: x0a :: sep ++ tail
              = (x0a :: body ++ [x0d; x0a]) ++ sep ++ tail) as ->
        by (by flatten_app).
      rewrite drop_app_length'; [done|].
      simpl. rewrite length_app. simpl. lia.
  - intros l' Hl' (Hl2 & Hc & Hs).
    destruct (decide (l' = 2)) as [->|Hne].
    { destruct Hc as [Hc _]. simpl in Hc. discriminate. }
    apply (Hclean (l' - 1)); [lia|].
    assert (body ++ x0d :: x0a :: sep ++ tail
            = (body ++ x0d :: x0a :: sep) ++ tail) as E
      by (by rewrite <- app_assoc).
    split; [lia|]. split.
    + replace (l' - 2) with (S (l' - 3)) in Hc by lia.
      apply crlfAt_cons in Hc. rewrite E in Hc.
      replace (l' - 1 - 2) with (l' - 3) by lia.
      apply crlfAt_app_l in Hc; [done|].
      rewrite length_app. simpl. lia.
    + replace l' with (S (l' - 1)) in Hs by lia.
      change (drop (S (l' - 1)) (x0a :: ?l)) with (drop (l' - 1) l) in Hs.
      rewrite E in Hs. rewrite <- Hs.
      apply (agree_startsWith (length (body ++ x0d :: x0a :: sep)));
        [apply agree_app|].
      rewrite length_app. simpl. lia.
Qed.

Lemma renderPart_length (p : part) :
  length (renderPart p) = length (headerLines p) + 2 + length (p_body p) + 2.
Proof.
  unfold renderPart. rewrite length_app. simpl. rewrite length_app. simpl.
  lia.
Qed.

(** One pass through the part loop on a part as a sender writes it. *)
Lemma partStep_rendered (fuel : nat) (pre sep tail : list byte)
    (contentProcessors : gmap string processor) (p : part) (st : scan) :
  wellFormed sep p → length (p_body p) + 3 ≤ fuel →
  lineEndIdx st = length pre →
  partStep fuel (pre ++ renderPart p ++ sep ++ tail) sep
    (withDefaults contentProcessors) st
  = e ← entryOf contentProcessors p;
    let array := pre ++ renderPart p ++ sep ++ tail in
    let l := length pre + length (renderPart p) in
    let r := getLineEndIdx array l in
    let line := subarray array (l + length sep) r in
    let result := addContentToResult (result st) (decode (p_name p)) e in
    if byte_is (line !! 0) finalByte && byte_is (line !! 1) finalByte
    then Ret (Break {| startIdx := l; lineEndIdx := r; result := result |})
    else Ret (Next {| startIdx := l; lineEndIdx := r + 2;
                      result := result |}).
Proof.
  intros Hwf Hfuel Hst. pose proof Hwf as (Hq & Hf & Hne & Ht & Hclean).
  unfold partStep. rewrite Hst.
  set (array := pre ++ renderPart p ++ sep ++ tail).
  assert (array = pre ++ headerLines p
                  ++ x0d :: x0a :: (p_body p ++ x0d :: x0a :: sep ++ tail))
    as E1 by (unfold array, renderPart; by flatten_app).
  assert (readHeaders fuel array (newPart (length pre))
          = Ret {| h_startIdx := length pre + length (headerLines p);
                   h_name := Some (decode (p_name p));
                   h_contentType := decode <$> p_type p;
                   h_filename := decode <$> p_file p |}) as ->.
  { rewrite E1. apply (readHeaders_rendered _ _ _ sep); [lia|done]. }
  rewrite bind_Ret. cbn [h_name h_startIdx h_contentType h_filename].
  rewrite bool_decide_eq_false_2 by done.
  assert (array = (pre ++ headerLines p ++ [x0d])
                  ++ x0a :: p_body p ++ x0d :: x0a :: sep ++ tail)
    as E2 by (rewrite E1; by rewrite <- !app_assoc).
  assert (length pre + length (headerLines p) + 1
          = length (pre ++ headerLines p ++ [x0d]) + 0) as E3
    by (rewrite !length_app; simpl; lia).
  assert (bodyScan fuel array sep (length pre + length (headerLines p) + 1)
          = Ret (length pre + length (renderPart p))) as ->.
  { rewrite E2, E3, bodyScan_body by done. f_equal.
    rewrite renderPart_length, !length_app. simpl. lia. }
  rewrite bind_Ret.
  assert (subarray array (length pre + length (headerLines p) + 1 + 1)
            (length pre + length (renderPart p) - 2) = p_body p) as ->.
  { assert (array = (pre ++ headerLines p ++ [x0d; x0a])
                    ++ p_body p ++ x0d :: x0a :: sep ++ tail) as ->
      by (rewrite E1; by rewrite <- !app_assoc).
    apply subarray_app; rewrite ?renderPart_length, !length_app; simpl; lia. }
  fold (entryOf contentProcessors p).
  by destruct (entryOf contentProcessors p).
Qed.

(** After a part: a delimiter line that is not the final one. *)
Lemma next_delimiter (array x sep more : list byte) (l : nat) :
  array = x ++ sep ++ x0d :: x0a :: more → l = length x →
  (∀ j, ¬ crlfAt sep j) →
  getLineEndIdx array l = l + length sep
  ∧ byte_is (subarray array (l + length sep) (getLineEndIdx array l) !! 0)
      finalByte
    && byte_is (subarray array (l + length sep) (getLineEndIdx array l) !! 1)
         finalByte
    = false.
Proof.
  intros -> -> Hsep.
  assert (getLineEndIdx (x ++ sep ++ x0d :: x0a :: more) (length x)
          = length x + length sep) as ->.
  { rewrite <- (Nat.add_0_r (length x)) at 1.
    by rewrite getLineEndIdx_shift, getLineEndIdx_line. }
  split; [done|]. unfold subarray. by rewrite Nat.sub_diag.
Qed.

(** After a part: the final delimiter. *)
Lemma final_delimiter (array x sep more : list byte) (l : nat) :
  array = x ++ sep ++ x2d :: x2d :: more → l = length x →
  (∀ j, ¬ crlfAt sep j) →
  byte_is (subarray array (l + length sep) (getLineEndIdx array l) !! 0)
    finalByte
  && byte_is (subarray array (l + length sep) (getLineEndIdx array l) !! 1)
       finalByte
  = true.
Proof.
  intros -> -> Hsep. apply final_test.
  assert (x ++ sep ++ x2d :: x2d :: more
          = (x ++ sep) ++ x2d :: x2d :: more) as E
    by (by rewrite <- app_assoc).
  split; [|split].
  - rewrite E, <- length_app. by rewrite list_lookup_middle.
  - rewrite E, <- length_app, lookup_app_r by lia.
    by replace (length (x ++ sep) + 1 - length (x ++ sep)) with 1 by lia.
  - rewrite <- (Nat.add_0_r (length x)) at 2. rewrite getLineEndIdx_shift.
    destruct (getLineEndIdx_spec (sep ++ x2d :: x2d :: more) 0)
      as [[->|[_ Hc]] _].
    { rewrite length_app. simpl. lia. }
    set (r := getLineEndIdx _ 0) in *.
    destruct (decide (length sep + 2 ≤ r)) as [|Hlt]; [lia|exfalso].
    destruct (decide (S r < length sep)) as [Hin|Hout].
    { apply crlfAt_app_l in Hc; [|done]. by apply Hsep in Hc. }
    destruct Hc as [Hc1 Hc2].
    destruct (decide (S r = length sep)) as [Eq|Hne].
    { rewrite Eq in Hc2. by rewrite list_lookup_middle in Hc2. }
    rewrite lookup_app_r in Hc1 by lia.
    destruct (r - length sep) as [|[|k]] eqn:Ek; simpl in Hc1;
      [done|done|lia].
Qed.

Lemma partsLoop_S (fuel : nat) (array sep : list byte)
    (procs : gmap string processor) (st : scan) :
  partsLoop (S fuel) array sep procs st
  = if negb (startIdx st <? length array) then Ret st
    else
      c ← partStep fuel array sep procs st;
      match c with
      | Break st' => Ret st'
      | Next st' => partsLoop fuel array sep procs st'
      end.
Proof. reflexivity. Qed.

(** The part loop on the parts that are left, the first of them beginning
    at [length pre]. *)
Lemma partsLoop_rendered (sep epilogue : list byte)
    (contentProcessors : gmap string processor) (ps : list part) :
  (∀ j, ¬ crlfAt sep j) →
  ∀ (fuel : nat) (p : part) (pre : list byte) (st : scan),
    Forall (wellFormed sep) (p :: ps) →
    lineEndIdx st = length pre →
    startIdx st
    < length (pre ++ renderPart p ++ renderParts sep ps ++ epilogue) →
    length (renderPart p ++ renderParts sep ps) < fuel →
    result
      <$> partsLoop fuel
            (pre ++ renderPart p ++ renderParts sep ps ++ epilogue) sep
            (withDefaults contentProcessors) st
    = collect contentProcessors (result st) (p :: ps).
Proof.
  intros Hsep.
  induction ps as [|p2 ps IH]; intros fuel p pre st Hall Hst Hlt Hfuel;
    apply Forall_cons in Hall as [Hwf Hall];
    (destruct fuel as [|fuel]; [lia|]);
    rewrite partsLoop_S, (proj2 (Nat.ltb_lt _ _) Hlt); cbn [negb];
    rewrite length_app, renderPart_length in Hfuel;
    cbn [renderParts collect].
  - assert (pre ++ renderPart p ++ (sep ++ [x2d; x2d]) ++ epilogue
            = pre ++ renderPart p ++ sep ++ x2d :: x2d :: epilogue) as ->
      by (by rewrite <- !app_assoc).
    rewrite partStep_rendered by (done || lia).
    destruct (entryOf contentProcessors p) as [e| |]; [|done..].
    rewrite !bind_Ret. cbv zeta.
    by rewrite (final_delimiter _ (pre ++ renderPart p) sep epilogue)
      by (done || by rewrite <- ?app_assoc, ?length_app).
  - assert (pre ++ renderPart p
            ++ (sep ++ x0d :: x0a :: renderPart p2 ++ renderParts sep ps)
            ++ epilogue
            = pre ++ renderPart p ++ sep
              ++ x0d :: x0a
                 :: renderPart p2 ++ renderParts sep ps ++ epilogue) as Earr
      by (by flatten_app).
    rewrite Earr in *.
    rewrite partStep_rendered by (done || lia).
    destruct (entryOf contentProcessors p) as [e| |]; [|done..].
    rewrite !bind_Ret. cbv zeta.
    destruct (next_delimiter
                (pre ++ renderPart p ++ sep
                 ++ x0d :: x0a
                    :: renderPart p2 ++ renderParts sep ps ++ epilogue)
                (pre ++ renderPart p) sep
                (renderPart p2 ++ renderParts sep ps ++ epilogue)
                (length pre + length (renderPart p)))
      as [Er Ef]; [by rewrite <- app_assoc|by rewrite length_app|done|].
    rewrite Ef, Er.
    assert (pre ++ renderPart p ++ sep
            ++ x0d :: x0a :: renderPart p2 ++ renderParts sep ps ++ epilogue
            = (pre ++ renderPart p ++ sep ++ [x0d; x0a])
              ++ renderPart p2 ++ renderParts sep ps ++ epilogue) as Earr3
      by (by rewrite <- !app_assoc).
    rewrite Earr3 in *. rewrite bind_Ret.
    rewrite IH; [done|done| | |].
    + cbn [lineEndIdx]. rewrite !length_app. simpl. lia.
    + cbn [startIdx]. rewrite !length_app. simpl. lia.
    + cbn [renderParts] in Hfuel. rewrite !length_app in Hfuel.
      simpl in Hfuel. lia.
Qed.

(** X16: a payload as a sender writes it is read back.  The payload starts
    with the delimiter line; each part has a Content-Disposition line with
    its name and possibly a file name, possibly a Content-Type line before
    or after it, an empty line, a body and CR LF; the final delimiter and
    any epilogue follow.  When the delimiter holds no CR LF and every part
    is well formed, the call answers what [collect] answers: for each part
    in order, [processContent] on the decoded content type, the body as it
    is and the decoded file name, then [addContentToResult] under the
    decoded name.  Names and content types that are found on
    [Object.prototype] are not set apart: the parse treats them as
    [processContent] and [addContentToResult] do. *)
Theorem parse_rendered (fuel : nat) (boundary : string)
    (contentProcessors : gmap string processor) (p : part) (ps : list part)
    (epilogue : list byte) :
  (∀ j, ¬ crlfAt (separatorOf boundary) j) →
  Forall (wellFormed (separatorOf boundary)) (p :: ps) →
  length (renderParts (separatorOf boundary) (p :: ps)) < fuel →
  parseMultipartFormData fuel
    (renderParts (separatorOf boundary) (p :: ps) ++ epilogue) boundary
    contentProcessors
  = collect contentProcessors [] (p :: ps).
Proof.
  intros Hsep Hall Hfuel. unfold parseMultipartFormData.
  set (sep := separatorOf boundary) in *.
  cbn [renderParts] in *.
  assert ((sep ++ x0d :: x0a :: renderPart p ++ renderParts sep ps)
          ++ epilogue
          = sep ++ x0d :: x0a
                   :: renderPart p ++ renderParts sep ps ++ epilogue) as ->
    by (by flatten_app).
  destruct fuel as [|fuel]; [lia|]. cbn [skipPreamble].
  rewrite getLineEndIdx_line by done.
  rewrite subarray_0, take_app_length.
  rewrite (proj2 (startsWith_app sep sep)) by (exists []; by rewrite app_nil_r).
  cbn [negb andb]. rewrite bind_Ret.
  assert (sep ++ x0d :: x0a
                 :: renderPart p ++ renderParts sep ps ++ epilogue
          = (sep ++ [x0d; x0a])
            ++ renderPart p ++ renderParts sep ps ++ epilogue) as ->
    by (by rewrite <- app_assoc).
  pose proof (partsLoop_rendered sep epilogue contentProcessors ps Hsep
                (S fuel) p (sep ++ [x0d; x0a]) (firstPart (length sep + 2)))
    as Hloop.
  cbn [firstPart result] in Hloop. rewrite <- Hloop.
  - by destruct (partsLoop _ _ _ _ _).
  - done.
  - cbn [firstPart lineEndIdx]. rewrite length_app. simpl. lia.
  - cbn [firstPart startIdx]. rewrite !length_app, renderPart_length.
    simpl. lia.
  - rewrite length_app in Hfuel. simpl in Hfuel. lia.
Qed.

End RenderedParts.

(** ** Parts at the end of the buffer *)

Section MoreDriver.
Context `{Platform} `{!Runtime}.

Lemma Reaches_fuel (fuel : nat) (array sep : list byte)
    (procs : gmap string processor) (st : scan) :
  Reaches fuel array sep procs st → 0 < fuel.
Proof.
  induction 1 as [s Hs|]; [|done]. destruct fuel; [done|lia].
Qed.

Lemma partStep_at_end (fuel : nat) (array sep : list byte)
    (procs : gmap string processor) (st : scan) :
  0 < fuel → length array ≤ lineEndIdx st →
  partStep fuel array sep procs st = Throw "The entry name is missing".
Proof.
  intros Hfuel Hend. destruct fuel as [|fuel]; [lia|].
  apply (partStep_missing_name _ _ _ _ _
           {| h_startIdx := lineEndIdx st + 1; h_name := None;
              h_contentType := None; h_filename := None |}); [|done].
  rewrite readHeaders_S. unfold headerStep. cbn [newPart h_startIdx].
  rewrite drop_ge by done. rewrite !startsWith_nil by done.
  rewrite !andb_false_r, bind_Ret. cbn [h_startIdx].
  by rewrite headerMore_crlf by (right; lia).
Qed.

(** X18: the guard of the part loop tests the position of the last
    delimiter line, not the position where the next part would begin.
    When the driver comes back to the guard with that position inside the
    buffer and the next part beginning at its end or later (a delimiter
    line without the final [--] ends the buffer), the loop is entered once
    more and the call fails with the missing-name error. *)
Theorem delimiter_line_at_end (fuel : nat) (array : list byte)
    (boundary : string) (procs : gmap string processor) (st : scan) :
  Reaches fuel array (separatorOf boundary) (withDefaults procs) st →
  startIdx st < length array → length array ≤ lineEndIdx st →
  ∃ fuel0, ∀ fuel', fuel0 ≤ fuel' →
    parseMultipartFormData fuel' array boundary procs
    = Throw "The entry name is missing".
Proof.
  intros Hreach Hlt Hend.
  apply (Reaches_Throw fuel array boundary procs st); [done..|].
  apply partStep_at_end; [|done]. by apply Reaches_fuel in Hreach.
Qed.

Lemma Reaches_Timeout (fuel0 : nat) (array sep : list byte)
    (procs : gmap string processor) (st : scan) :
  Reaches fuel0 array sep procs st →
  (∀ fuel, partsLoop fuel array sep procs st = Timeout) →
  ∀ fuel, (s ← skipPreamble fuel array sep 0;
           partsLoop fuel array sep procs (firstPart s)) = Timeout.
Proof.
  induction 1 as [s Hs|st st' Hreach IH Hlt Hstep]; intros Hloop fuel.
  - destruct (fuel_agree (fun n => skipPreamble n array sep 0)
                (fun n n' => skipPreamble_mono n n' array sep 0)
                fuel0 fuel s Hs) as [->| ->]; [|done].
    rewrite bind_Ret. apply Hloop.
  - apply IH. intros [|f]; simpl;
      rewrite (proj2 (Nat.ltb_lt _ _) Hlt); cbn [negb]; [done|].
    destruct (fuel_agree (fun n => partStep n array sep procs st)
                (fun n n' => partStep_mono n n' array sep procs st)
                fuel0 f (Next st') Hstep) as [->| ->]; [|done].
    rewrite bind_Ret. apply Hloop.
Qed.

(** X19: a part that the parse reaches, whose header block gives a name
    and after which no CR LF pair is followed by the delimiter, makes the
    call run for ever: no amount of fuel lets it return or raise.  This is
    the case of a payload cut off inside a body, and of a payload whose
    last part is not closed by a delimiter line. *)
Theorem unclosed_body_never_returns (fuel0 : nat) (array : list byte)
    (boundary : string) (procs : gmap string processor) (st : scan)
    (h : headers) (name : string) :
  Reaches fuel0 array (separatorOf boundary) (withDefaults procs) st →
  startIdx st < length array →
  readHeaders fuel0 array (newPart (lineEndIdx st)) = Ret h →
  h_name h = Some name → name ≠ "" →
  (∀ l, h_startIdx h + 3 ≤ l → ¬ delimiterAt array (separatorOf boundary) l) →
  ∀ fuel, parseMultipartFormData fuel array boundary procs = Timeout.
Proof.
  intros Hreach Hlt Hh Hname Hne Hnone fuel.
  assert (∀ f, partsLoop f array (separatorOf boundary) (withDefaults procs)
                 st = Timeout) as Hloop.
  { intros [|f]; simpl; rewrite (proj2 (Nat.ltb_lt _ _) Hlt); cbn [negb];
      [done|].
    unfold partStep.
    destruct (fuel_agree
                (fun n => readHeaders n array (newPart (lineEndIdx st)))
                (fun n n' => readHeaders_mono n n' array _)
                fuel0 f h Hh) as [->| ->]; [|done].
    rewrite bind_Ret, Hname, bool_decide_eq_false_2 by done.
    destruct (bodyScan f array (separatorOf boundary) (h_startIdx h + 1))
      as [l|msg|] eqn:El; [| |done].
    - apply bodyScan_Ret_first in El as (Hl & Hd & _);
        [|apply separatorOf_nonempty].
      exfalso. apply (Hnone l); [lia|done].
    - by apply bodyScan_no_Throw in El. }
  pose proof (Reaches_Timeout fuel0 array _ _ st Hreach Hloop fuel) as E.
  unfold parseMultipartFormData.
  destruct (skipPreamble fuel array _ 0) as [s| |]; [|done..].
  rewrite bind_Ret in E. rewrite bind_Ret. by rewrite E.
Qed.

(** X20: after the body of a part the driver stands on a delimiter.  It
    leaves the part loop exactly when the two bytes after the delimiter are
    [--] and no CR LF pair is met before them; otherwise the next part
    begins two bytes past the end of the delimiter line. *)
Theorem final_delimiter_recognised (fuel : nat) (a sep : list byte)
    (procs : gmap string processor) (st : scan) (c : control) :
  sep ≠ [] → partStep fuel a sep procs st = Ret c →
  startsWithArrayPrefix (drop (startIdx (scanOf c)) a) sep = true
  ∧ ((∃ st', c = Break st')
     ↔ a !! (startIdx (scanOf c) + length sep) = Some finalByte
       ∧ a !! (startIdx (scanOf c) + length sep + 1) = Some finalByte
       ∧ startIdx (scanOf c) + length sep + 2
         ≤ getLineEndIdx a (startIdx (scanOf c)))
  ∧ (∀ st', c = Next st' →
       lineEndIdx st' = getLineEndIdx a (startIdx (scanOf c)) + 2).
Proof.
  intros Hsep (h & name & l & content & _ & _ & _ & Hl & _ & ->)%partStep_inv.
  apply (bodyScan_result _ _ _ _ _ Hsep) in Hl as (_ & _ & Hs).
  pose proof (final_test a (l + length sep) (getLineEndIdx a l)) as Hfinal.
  destruct (_ && _); cbn [scanOf startIdx].
  - split; [done|]. split; [|done]. split; [intros _; by apply Hfinal|].
    intros _. eauto.
  - split; [done|]. split; [|by intros st' [= <-]]. split.
    + by intros [st' ?].
    + intros Hf. apply Hfinal in Hf. done.
Qed.

End MoreDriver.

(** * The further properties on concrete inputs *)

(** A byte that a constant byte string does not hold. *)
Ltac not_in_literal :=
  unfold quoteUTF8, encode; simpl;
  repeat (apply not_elem_of_cons; split; [discriminate|]);
  apply not_elem_of_nil.

Lemma readContentDisposition_offset_witness :
  33 ≤ 42
  ∧ 42 ≤ length (dispositionLine (encode "a") None false)
  ∧ crlfAt (dispositionLine (encode "a") None false) (42 - 2).
Proof.
  apply (readContentDisposition_offset (H := asciiPlatform)
           (dispositionLine (encode "a") None false)
           {| d_name := Some "a"; d_filename := None; d_offset := 42 |}).
  vm_compute. reflexivity.
Defined.

Lemma readContentDisposition_canonical_witness :
  readContentDisposition (H := asciiPlatform)
    (dispositionLine (encode "a") (Some (encode "b.txt")) true ++ encode "x")
  = Ret {| d_name := Some "a"; d_filename := Some "b.txt"; d_offset := 60 |}.
Proof.
  apply (readContentDisposition_canonical (H := asciiPlatform) (encode "a")
           (Some (encode "b.txt")) true (encode "x")).
  - not_in_literal.
  - intros f [= <-]. not_in_literal.
Defined.

Lemma caller_processor_wins_witness :
  processContent (H := asciiPlatform)
    (withDefaults {[ "text/plain" := fun content => Ret (Bytes content) ]})
    "text/plain" (encode "hi") None
  = Ret {| contentType := "text/plain"; data_of := Bytes (encode "hi");
           filename := None |}.
Proof.
  apply (caller_processor_wins (H := asciiPlatform)
           {[ "text/plain" := fun content => Ret (Bytes content) ]}
           "text/plain" (encode "hi") None (fun content => Ret (Bytes content))).
  vm_compute. reflexivity.
Defined.

Lemma bodyScan_first_delimiter_witness :
  0 + 2 ≤ 3
  ∧ delimiterAt (encode (joinLines ["x"; "--B"])) (separatorOf "B") 3
  ∧ ∀ l', 0 + 2 ≤ l' < 3 →
          ¬ delimiterAt (encode (joinLines ["x"; "--B"])) (separatorOf "B") l'.
Proof.
  destruct (bodyScan_first_delimiter
              (encode (joinLines ["x"; "--B"])) (separatorOf "B") 0)
    as [Hiff _]; [discriminate|].
  apply Hiff. exists 5. vm_compute. reflexivity.
Defined.

Lemma skipPreamble_first_delimiter_line_witness :
  skipPreamble 5 notePayload (separatorOf "B") 0 = Ret 11.
Proof.
  apply (skipPreamble_first_delimiter_line 5 notePayload
           (separatorOf "B") [encode "note"] (encode "--B") [encode "rest"]).
  - discriminate.
  - vm_compute. reflexivity.
  - repeat constructor.
  - vm_compute. reflexivity.
  - simpl. lia.
Defined.

Lemma readHeaders_unrecognised_witness :
  readHeaders (H := asciiPlatform) 10 unknownHeaderPayload (newPart 5)
  = Ret {| h_startIdx := 12; h_name := None; h_contentType := None;
           h_filename := None |}.
Proof.
  apply (readHeaders_unrecognised (H := asciiPlatform) 10
           unknownHeaderPayload (newPart 5) 7).
  - lia.
  - lia.
  - vm_compute. lia.
  - intros j Hj.
    do 7 (destruct j as [|j]; [split; vm_compute; reflexivity|]). lia.
  - intros j Hj [Hc _].
    do 7 (destruct j as [|j]; [try lia; vm_compute in Hc; congruence|]). lia.
  - left. split; vm_compute; reflexivity.
Defined.

Lemma parse_errors_witness :
  notCallable = missingFieldError
  ∨ notCallable ∈ structuralErrors
  ∨ (∃ key f b e,
      withDefaults (H := asciiPlatform) ∅ !! key = Some f
      ∧ f (subarray protoTypePayload b e) = Throw notCallable)
  ∨ (∃ key b e,
      key ∈ objectPrototypeNames
      ∧ withDefaults (H := asciiPlatform) ∅ !! key = None
      ∧ Object_prototype_call key (withDefaults (H := asciiPlatform) ∅)
          (subarray protoTypePayload b e) = Throw notCallable).
Proof.
  apply (parse_errors (H := asciiPlatform) 20 protoTypePayload "B" ∅).
  vm_compute. reflexivity.
Defined.

Lemma contentType_value_witness :
  headerStep (H := asciiPlatform)
    (encode "Content-Type:text/plain" ++ [x0d; x0a]) (newPart 0)
  = Ret {| h_startIdx := 25; h_name := None;
           h_contentType := Some "ext/plain"; h_filename := None |}.
Proof.
  apply (contentType_value (H := asciiPlatform) [] [] (encode "ext/plain")
           x74 (newPart 0)).
  - reflexivity.
  - reflexivity.
  - apply no_crlf_by_scan. vm_compute. reflexivity.
Defined.

Lemma parse_rendered_witness :
  parseMultipartFormData (H := asciiPlatform) 300
    (renderParts (separatorOf "B") [examplePart1; examplePart2]
     ++ encode "bye") "B" ∅
  = Ret [ ("a", Single {| contentType := "text/plain"; data_of := Str "1";
                          filename := None |});
          ("f", Single {| contentType := "application/json";
                          data_of := Val (H := asciiPlatform)
                                       (joinLines ["{"; "}"]);
                          filename := Some "x.txt" |}) ].
Proof.
  etrans.
  - apply (parse_rendered (H := asciiPlatform) 300 "B" ∅ examplePart1
             [examplePart2] (encode "bye")).
    + apply no_crlf_by_scan. vm_compute. reflexivity.
    + constructor; [|constructor; [|constructor]].
      * split; [not_in_literal|]. split; [done|]. split; [done|].
        split; [done|].
        intros l Hl (Hl2 & [Hc1 Hc2] & Hs).
        do 3 (destruct l as [|l];
              [first [lia | vm_compute in Hc1; congruence
                     | vm_compute in Hs; congruence]|]).
        simpl in Hl. lia.
      * split; [not_in_literal|].
        split; [intros f [= <-]; not_in_literal|]. split; [done|].
        split; [intros t [= <-]; apply no_crlf_by_scan; vm_compute;
                reflexivity|].
        intros l Hl (Hl2 & [Hc1 Hc2] & Hs).
        do 6 (destruct l as [|l];
              [first [lia | vm_compute in Hc1; congruence
                     | vm_compute in Hs; congruence]|]).
        simpl in Hl. lia.
    + vm_compute. lia.
  - vm_compute. reflexivity.
Defined.

Lemma delimiter_line_at_end_witness :
  ∃ fuel0, ∀ fuel', fuel0 ≤ fuel' →
    parseMultipartFormData (H := asciiPlatform) fuel' unfinishedPayload
      "B" ∅
    = Throw "The entry name is missing".
Proof.
  apply (delimiter_line_at_end (H := asciiPlatform) 20 unfinishedPayload "B"
           ∅ unfinishedSecond).
  - apply (Reaches_next _ _ _ _ (firstPart 5)).
    + apply Reaches_first. vm_compute. reflexivity.
    + vm_compute. lia.
    + vm_compute. reflexivity.
  - vm_compute. lia.
  - vm_compute. lia.
Defined.

Lemma unclosed_body_never_returns_witness :
  parseMultipartFormData (H := asciiPlatform) 1000 unclosedPayload "B" ∅
  = Timeout.
Proof.
  apply (unclosed_body_never_returns (H := asciiPlatform) 20 unclosedPayload
           "B" ∅ (firstPart 5)
           {| h_startIdx := 47; h_name := Some "a"; h_contentType := None;
              h_filename := None |} "a").
  - apply Reaches_first. vm_compute. reflexivity.
  - vm_compute. lia.
  - vm_compute. reflexivity.
  - reflexivity.
  - discriminate.
  - intros l Hl (_ & [Hc1 Hc2] & Hs).
    pose proof (startsWith_length _ _ _ Hs (separatorOf_nonempty "B")) as Hlen.
    change (length (separatorOf "B")) with 3 in Hlen.
    change (length unclosedPayload) with 61 in Hlen.
    cbn [h_startIdx] in Hl.
    assert (∃ m, l = 50 + m) as [m ->] by (exists (l - 50); lia).
    do 9 (destruct m as [|m];
          [first [vm_compute in Hc1; congruence
                 | vm_compute in Hs; congruence]|]).
    lia.
Defined.

Lemma final_delimiter_recognised_witness :
  startsWithArrayPrefix (drop (startIdx (scanOf (Break onePartFinal)))
                           onePartPayload) (separatorOf "B") = true
  ∧ ((∃ st', Break onePartFinal = Break st')
     ↔ onePartPayload
         !! (startIdx (scanOf (Break onePartFinal))
             + length (separatorOf "B")) = Some finalByte
       ∧ onePartPayload
           !! (startIdx (scanOf (Break onePartFinal))
               + length (separatorOf "B") + 1) = Some finalByte
       ∧ startIdx (scanOf (Break onePartFinal)) + length (separatorOf "B") + 2
         ≤ getLineEndIdx onePartPayload
             (startIdx (scanOf (Break onePartFinal))))
  ∧ (∀ st', Break onePartFinal = Next st' →
       lineEndIdx st'
       = getLineEndIdx onePartPayload
           (startIdx (scanOf (Break onePartFinal))) + 2).
Proof.
  apply (final_delimiter_recognised (H := asciiPlatform) 20 onePartPayload
           (separatorOf "B") (withDefaults ∅) (firstPart 5)
           (Break onePartFinal)).
  - discriminate.
  - vm_compute. reflexivity.
Defined.

(** A first entry whose name is a member of [Object.prototype] follows
    that member in a list. *)
Example inherited_name_heads_list :
  addContentToResult (H := asciiPlatform) [] "toString" plainEntry
  = [("toString", Headed (ObjectMember "toString") [plainEntry])].
Proof. by vm_compute. Qed.

(** A content type [__proto__] finds [Object.prototype], which is no
    function. *)
Example proto_type_raises :
  parseMultipartFormData (H := asciiPlatform) 20 protoTypePayload "B" ∅
  = Throw notCallable.
Proof. by vm_compute. Qed.

(** A part named [__proto__] creates no key: its entry goes into the array
    that becomes the prototype of the result, where the part named [1] that
    follows finds it.  The payload is read back as [collect] says. *)
Example rendered_inherited_names :
  parseMultipartFormData (H := asciiPlatform) 300
    (renderParts (separatorOf "B") [protoPart; indexPart]) "B" ∅
  = collect ∅ [] [protoPart; indexPart]
  ∧ collect (H := asciiPlatform) ∅ [] [protoPart; indexPart]
    = Ret [ ("__proto__",
             Headed ObjectPrototype
               [ {| contentType := "toString";
                    data_of := Str "[object Object]"; filename := None |} ]);
            ("1",
             Multiple
               [ {| contentType := "toString";
                    data_of := Str "[object Object]"; filename := None |};
                 {| contentType := "text/plain"; data_of := Str "y";
                    filename := None |} ]) ]
  ∧ ownKeys <$> collect (H := asciiPlatform) ∅ [] [protoPart; indexPart]
    = Ret ["1"].
Proof. split; [|split]; by vm_compute. Qed.
